(** * Draw It Or Lose It: the game-state core

    A shallow embedding of the entity model ([Entity], [Player], [Team],
    [Game]) and of the [GameService] singleton, followed by the properties
    of the specification that concern them.

    Modelling conventions.
    - A JavaScript string is a sequence of code units; the development
      covers the code units below 256 (Latin-1), on which [trim] and
      [toLowerCase] are written out exactly.
    - A score is a JavaScript number, that is an IEEE 754 double: a
      [spec_float] of precision 53, with the addition and the comparison
      of the standard library's specification of floating-point
      arithmetic. Numbers that count (rounds, limits) are integers ([Z]),
      on which the arithmetic of the source is exact within the
      safe-integer range.
    - [new Date()] is the reading [now] of the clock handed to each call.
    - [Math.random] and [uuidv4] are inputs of the calls that use them.
    - A [Player] is a shared mutable object: it lives in a store and is
      referred to by its position there, from the game's collection, from
      a team's collection and from the current-drawer slot.
    - A JavaScript [Map] keeps insertion order: it is an association
      list whose keys are distinct. *)

From stdpp Require Import base option list strings gmap.
From Stdlib Require Import ZArith Ascii String DecimalString DecimalNat Lia.
From Stdlib Require Import SpecFloat.

Open Scope string_scope.
Open Scope Z_scope.

(** ** Strings *)

Module JsString.

Definition code (c : ascii) : N := N_of_ascii c.

(** WhiteSpace and LineTerminator code units below 256:
    TAB, LF, VT, FF, CR, SP and NBSP. *)
Definition isWhiteSpace (c : ascii) : bool :=
  let n := code c in
  (((9 <=? n) && (n <=? 13)) || (n =? 32) || (n =? 160))%N.

(** [A-Z], and the upper-case letters of Latin-1 (U+00C0 to U+00DE,
    the multiplication sign U+00D7 apart), move up by 32. *)
Definition lowerChar (c : ascii) : ascii :=
  let n := code c in
  if (((65 <=? n) && (n <=? 90))
      || ((192 <=? n) && (n <=? 222) && negb (n =? 215)))%N
  then ascii_of_N (n + 32) else c.

Fixpoint toLowerCase (s : string) : string :=
  match s with
  | EmptyString => EmptyString
  | String c r => String (lowerChar c) (toLowerCase r)
  end.

Fixpoint trimStart (s : string) : string :=
  match s with
  | EmptyString => EmptyString
  | String c r => if isWhiteSpace c then trimStart r else s
  end.

Fixpoint trimEnd (s : string) : string :=
  match s with
  | EmptyString => EmptyString
  | String c r =>
      match trimEnd r with
      | EmptyString => if isWhiteSpace c then EmptyString else String c EmptyString
      | r' => String c r'
      end
  end.

Definition trim (s : string) : string := trimEnd (trimStart s).

(** A string is truthy when it is not empty. *)
Definition truthy (s : string) : bool :=
  match s with EmptyString => false | _ => true end.

(** Every code unit is white space. *)
Fixpoint blank (s : string) : bool :=
  match s with
  | EmptyString => true
  | String c r => isWhiteSpace c && blank r
  end.

(** A string that does not start with white space. *)
Definition headed (s : string) : Prop :=
  match s with
  | EmptyString => True
  | String c _ => isWhiteSpace c = false
  end.

(** Two code units that are the same letter, in either case. *)
Definition same_letter (c d : ascii) : Prop :=
  c = d \/ d = lowerChar c \/ c = lowerChar d.

(** Two strings that differ only in the case of their letters. *)
Inductive case_variant : string -> string -> Prop :=
| cv_empty : case_variant EmptyString EmptyString
| cv_char c d s t :
    same_letter c d -> case_variant s t ->
    case_variant (String c s) (String d t).

(** [v] differs from [n] only in letter case or surrounding white space:
    both are a core padded with white space, and the cores differ only
    in case. *)
Definition variant (n v : string) : Prop :=
  exists a b m a' b' m',
    n = (a ++ m ++ b)%string /\ v = (a' ++ m' ++ b')%string /\
    blank a = true /\ blank b = true /\
    blank a' = true /\ blank b' = true /\
    case_variant m m'.

End JsString.

(** ** Values and exceptions *)

(** The JavaScript values an argument documented as a string may be. *)
Inductive JsValue :=
| JsUndefined
| JsNull
| JsBoolean (b : bool)
| JsNumber (n : Z)
| JsStr (s : string)
| JsObject.

(** [!v || typeof v !== 'string'] *)
Definition notNonEmptyString (v : JsValue) : bool :=
  match v with
  | JsStr s => negb (JsString.truthy s)
  | _ => true
  end.

(** [!v] *)
Definition falsy (v : JsValue) : bool :=
  match v with
  | JsUndefined | JsNull | JsBoolean false | JsNumber 0 => true
  | JsStr s => negb (JsString.truthy s)
  | _ => false
  end.

Inductive exn :=
| Error (message : string)
| TypeError (message : string).

(** [error.message] *)
Definition errorMessage (e : exn) : string :=
  match e with Error message | TypeError message => message end.

(** The state a call leaves behind, with the value it returns or the
    exception it throws: a throw does not undo what was written before
    it. *)
Inductive outcome (S A : Type) :=
| Return (s : S) (a : A)
| Throw (s : S) (e : exn).
Arguments Return {S A} s a.
Arguments Throw {S A} s e.

Definition final {S A} (o : outcome S A) : S :=
  match o with Return s _ => s | Throw s _ => s end.

Definition threw {S A} (o : outcome S A) : option exn :=
  match o with Return _ _ => None | Throw _ e => Some e end.

Definition returned {S A} (o : outcome S A) : option A :=
  match o with Return _ a => Some a | Throw _ _ => None end.

(** ** Insertion-ordered maps keyed by strings *)

Module JsMap.
Section ops.
Context {V : Type}.

Fixpoint get (k : string) (m : list (string * V)) : option V :=
  match m with
  | [] => None
  | (k', v) :: r => if String.eqb k k' then Some v else get k r
  end.

Definition has (k : string) (m : list (string * V)) : bool :=
  match get k m with Some _ => true | None => false end.

(** [set] keeps the position of a key that is present and appends a
    new one. *)
Fixpoint set (k : string) (v : V) (m : list (string * V)) : list (string * V) :=
  match m with
  | [] => [(k, v)]
  | (k', v') :: r =>
      if String.eqb k k' then (k, v) :: r else (k', v') :: set k v r
  end.

Definition delete (k : string) (m : list (string * V)) : list (string * V) :=
  List.filter (fun kv => negb (String.eqb k (fst kv))) m.

Definition size (m : list (string * V)) : Z := Z.of_nat (List.length m).

Definition keys (m : list (string * V)) : list string := List.map fst m.
Definition values (m : list (string * V)) : list V := List.map snd m.
End ops.
End JsMap.

(** ** Entity ([src/entities/Entity.js]) *)

Module Entity.

(** The constructor throws unless [id] and [name] are both truthy. *)
Definition accepts (id name : string) : bool :=
  JsString.truthy id && JsString.truthy name.

Definition requires : exn := Error "Entity requires both id and name".

(** [_validateName], on a string argument: the length test is on the
    name as given, the result is the trimmed name. *)
Definition _validateName (name : string) : exn + string :=
  if negb (JsString.truthy name) then
    inl (Error "Name must be a non-empty string")
  else if (Z.of_nat (String.length name) <? 2)
          || (50 <? Z.of_nat (String.length name)) then
    inl (Error "Name must be between 2 and 50 characters")
  else inr (JsString.trim name).

End Entity.

(** ** Numbers

    A number is a double: a value of [spec_float] at precision 53 and
    exponent bound 1024, with no payload for [NaN]. *)

Module JsNumber.

Definition t := spec_float.

Definition prec : Z := 53.
Definition emax : Z := 1024.

(** The values of [spec_float] that are doubles: a finite one is given by
    its canonical mantissa and exponent. *)
Definition isDouble (x : t) : bool := valid_binary prec emax x.

(** [x + y], rounded to the nearest double, ties to even. *)
Definition add (x y : t) : t := SFadd prec emax x y.

(** [x < y]: false as soon as one of them is [NaN]. *)
Definition ltb (x y : t) : bool := SFltb x y.

(** The double nearest to an integer; an integer literal stands for it. *)
Definition ofZ (z : Z) : t := binary_normalize prec emax z 0 false.

Definition NaN : t := S754_nan.
Definition Infinity : t := S754_infinity false.

End JsNumber.

Coercion JsNumber.ofZ : Z >-> JsNumber.t.

(** ** Player ([src/entities/Player.js]) *)

(** A reference to a [Player] object: its position in the store. *)
Definition loc := nat.

(** [teamId] is [null] or a string; [null] and the empty string are falsy. *)
Definition truthyId (o : option string) : bool :=
  match o with Some s => JsString.truthy s | None => false end.

Module Player.

Record t := mk {
  id : string;
  name : string;
  createdAt : Z;
  teamId : option string;
  score : JsNumber.t;
  isDrawing : bool;
  isReady : bool;
  lastActivity : Z
}.

Record json := mkJson {
  j_id : string;
  j_name : string;
  j_type : string;
  j_createdAt : Z;
  j_teamId : option string;
  j_score : JsNumber.t;
  j_isDrawing : bool;
  j_isReady : bool;
  j_lastActivity : Z
}.

Definition new (now : Z) (id name : string) (teamId : option string) : exn + t :=
  if negb (Entity.accepts id name) then inl Entity.requires
  else inr (mk id name now teamId 0 false false now).

Definition joinTeam (now : Z) (teamId : option string) (p : t) : exn + t :=
  if negb (truthyId teamId) then inl (Error "Team ID is required")
  else inr (mk (id p) (name p) (createdAt p) teamId (score p)
               (isDrawing p) (isReady p) now).

Definition leaveTeam (now : Z) (p : t) : t :=
  mk (id p) (name p) (createdAt p) None (score p) false (isReady p) now.

Definition setDrawing (now : Z) (b : bool) (p : t) : t :=
  mk (id p) (name p) (createdAt p) (teamId p) (score p) b (isReady p) now.

Definition setReady (now : Z) (b : bool) (p : t) : t :=
  mk (id p) (name p) (createdAt p) (teamId p) (score p) (isDrawing p) b now.

(** [addScore(points)], on a number. *)
Definition addScore (now : Z) (points : JsNumber.t) (p : t) : exn + t :=
  if JsNumber.ltb points 0 then inl (Error "Score cannot be negative")
  else inr (mk (id p) (name p) (createdAt p) (teamId p)
               (JsNumber.add (score p) points)
               (isDrawing p) (isReady p) now).

Definition resetScore (now : Z) (p : t) : t :=
  mk (id p) (name p) (createdAt p) (teamId p) 0 (isDrawing p) (isReady p) now.

Definition updateName (newName : string) (p : t) : exn + t :=
  match Entity._validateName newName with
  | inl e => inl e
  | inr n => inr (mk (id p) n (createdAt p) (teamId p) (score p)
                     (isDrawing p) (isReady p) (lastActivity p))
  end.

Definition toJSON (p : t) : json :=
  mkJson (id p) (name p) "Player" (createdAt p) (teamId p) (score p)
         (isDrawing p) (isReady p) (lastActivity p).

(** *** The public mutators, as one call *)

Inductive op :=
| JoinTeam (teamId : option string)
| LeaveTeam
| SetDrawing (b : bool)
| SetReady (b : bool)
| AddScore (points : JsNumber.t)
| ResetScore
| UpdateName (newName : string).

(** The numbers a call is given are doubles. *)
Definition numeric (o : op) : Prop :=
  match o with
  | AddScore points => JsNumber.isDouble points = true
  | _ => True
  end.

Definition lift (p : t) (r : exn + t) : outcome t unit :=
  match r with inl e => Throw p e | inr p' => Return p' tt end.

Definition run (now : Z) (o : op) (p : t) : outcome t unit :=
  match o with
  | JoinTeam teamId => lift p (joinTeam now teamId p)
  | LeaveTeam => Return (leaveTeam now p) tt
  | SetDrawing b => Return (setDrawing now b p) tt
  | SetReady b => Return (setReady now b p) tt
  | AddScore points => lift p (addScore now points p)
  | ResetScore => Return (resetScore now p) tt
  | UpdateName newName => lift p (updateName newName p)
  end.

(** A sequence of calls on one player, each at its own reading of the
    clock; a call that throws leaves its state to the next one. *)
Fixpoint runAll (calls : list (Z * op)) (p : t) : t :=
  match calls with
  | [] => p
  | (now, o) :: r => runAll r (final (run now o p))
  end.

End Player.

(** The store of [Player] objects. *)
Definition heap := list Player.t.

(** The objects of [h] are still in [h'], each under its id. *)
Definition sameIds (h h' : heap) : Prop :=
  forall (l : loc) p, h !! l = Some p ->
                      exists p', h' !! l = Some p' /\ Player.id p' = Player.id p.

(** ** Team ([src/entities/Team.js]) *)

Module Team.

Record t := mk {
  id : string;
  name : string;
  createdAt : Z;
  _players : list (string * loc);
  score : JsNumber.t;
  color : string;
  isActive : bool;
  _lastActivity : option Z
}.

Record json := mkJson {
  j_id : string;
  j_name : string;
  j_type : string;
  j_createdAt : Z;
  j_playerCount : Z;
  j_players : list Player.json;
  j_score : JsNumber.t;
  j_color : string;
  j_isActive : bool;
  j_isReady : bool
}.

Definition colors : list string :=
  [ "#FF6B6B"; "#4ECDC4"; "#45B7D1"; "#96CEB4";
    "#FFEAA7"; "#DDA0DD"; "#98D8C8"; "#F7DC6F" ].

(** [rnd] stands for [Math.floor(Math.random() * colors.length)], one of
    0 .. 7; it is taken modulo the length of the palette. *)
Definition _generateColor (rnd : nat) : string :=
  nth (rnd mod List.length colors)%nat colors "#FF6B6B".

Definition new (now : Z) (rnd : nat) (id name : string)
           (color : option string) : exn + t :=
  if negb (Entity.accepts id name) then inl Entity.requires
  else
    let c := match color with
             | Some c => if JsString.truthy c then c else _generateColor rnd
             | None => _generateColor rnd
             end in
    inr (mk id name now [] 0 c true None).

Definition with_players (ps : list (string * loc)) (tm : t) : t :=
  mk (id tm) (name tm) (createdAt tm) ps (score tm) (color tm) (isActive tm)
     (_lastActivity tm).

Definition _updateActivity (now : Z) (tm : t) : t :=
  mk (id tm) (name tm) (createdAt tm) (_players tm) (score tm) (color tm)
     (isActive tm) (Some now).

(** The [players] getter: the player objects, in insertion order. *)
Definition players (tm : t) : list loc := JsMap.values (_players tm).

Definition hasPlayer (playerId : string) (tm : t) : bool :=
  JsMap.has playerId (_players tm).

Definition getPlayer (playerId : string) (tm : t) : option loc :=
  JsMap.get playerId (_players tm).

(** [addPlayer(player)]: the player object is entered under its id and
    told to join this team. A reference that leads nowhere stands for a
    missing argument. *)
Definition addPlayer (now : Z) (player : loc) (h : heap) (tm : t)
  : outcome (heap * t) unit :=
  match h !! player with
  | None => Throw (h, tm) (Error "Valid player object is required")
  | Some p =>
      if negb (JsString.truthy (Player.id p)) then
        Throw (h, tm) (Error "Valid player object is required")
      else if JsMap.has (Player.id p) (_players tm) then
        Throw (h, tm) (Error "Player is already in this team")
      else
        let t1 := with_players (JsMap.set (Player.id p) player (_players tm)) tm in
        match Player.joinTeam now (Some (id tm)) p with
        | inl e => Throw (h, t1) e
        | inr p' => Return (<[player := p']> h, _updateActivity now t1) tt
        end
  end.

Definition removePlayer (now : Z) (playerId : string) (h : heap) (tm : t)
  : outcome (heap * t) unit :=
  match JsMap.get playerId (_players tm) with
  | None => Throw (h, tm) (Error "Player not found in team")
  | Some player =>
      let h' := match h !! player with
                | Some p => <[player := Player.leaveTeam now p]> h
                | None => h
                end in
      Return (h', _updateActivity now
                    (with_players (JsMap.delete playerId (_players tm)) tm)) tt
  end.

(** [addScore(points)], on a number. *)
Definition addScore (now : Z) (points : JsNumber.t) (tm : t) : exn + t :=
  if JsNumber.ltb points 0 then inl (Error "Score cannot be negative")
  else inr (mk (id tm) (name tm) (createdAt tm) (_players tm)
               (JsNumber.add (score tm) points)
               (color tm) (isActive tm) (Some now)).

Definition resetScore (now : Z) (tm : t) : t :=
  mk (id tm) (name tm) (createdAt tm) (_players tm) 0 (color tm) (isActive tm)
     (Some now).

Definition setActive (now : Z) (b : bool) (tm : t) : t :=
  mk (id tm) (name tm) (createdAt tm) (_players tm) (score tm) (color tm) b
     (Some now).

Definition updateName (newName : string) (tm : t) : exn + t :=
  match Entity._validateName newName with
  | inl e => inl e
  | inr n => inr (mk (id tm) n (createdAt tm) (_players tm) (score tm) (color tm)
                     (isActive tm) (_lastActivity tm))
  end.

(** The ready flag of the object a reference leads to. *)
Definition readyAt (h : heap) (l : loc) : bool :=
  match h !! l with Some p => Player.isReady p | None => false end.

Definition isReady (h : heap) (tm : t) : bool :=
  if JsMap.size (_players tm) =? 0 then false
  else forallb (readyAt h) (JsMap.values (_players tm)).

Definition playersJSON (h : heap) (ps : list loc) : list Player.json :=
  omap (fun l => Player.toJSON <$> h !! l) ps.

Definition toJSON (h : heap) (tm : t) : json :=
  mkJson (id tm) (name tm) "Team" (createdAt tm) (JsMap.size (_players tm))
         (playersJSON h (players tm)) (score tm) (color tm) (isActive tm)
         (isReady h tm).

(** Every reference the team holds leads to an object of the store. *)
Definition refsValid (h : heap) (tm : t) : Prop :=
  forall k l, In (k, l) (_players tm) -> (l < List.length h)%nat.

(** The keys of the team's collection are distinct, and each entry leads
    to a player object whose id is the key. *)
Definition keyed (h : heap) (tm : t) : Prop :=
  List.NoDup (JsMap.keys (_players tm)) /\
  forall k l, In (k, l) (_players tm) ->
              exists p, h !! l = Some p /\ Player.id p = k.

(** *** The public mutators, as one call *)

Inductive op :=
| AddPlayer (player : loc)
| RemovePlayer (playerId : string)
| AddScore (points : JsNumber.t)
| ResetScore
| SetActive (b : bool)
| UpdateName (newName : string).

(** The numbers a call is given are doubles. *)
Definition numeric (o : op) : Prop :=
  match o with
  | AddScore points => JsNumber.isDouble points = true
  | _ => True
  end.

Definition lift (h : heap) (tm : t) (r : exn + t) : outcome (heap * t) unit :=
  match r with inl e => Throw (h, tm) e | inr tm' => Return (h, tm') tt end.

Definition run (now : Z) (o : op) (h : heap) (tm : t) : outcome (heap * t) unit :=
  match o with
  | AddPlayer player => addPlayer now player h tm
  | RemovePlayer playerId => removePlayer now playerId h tm
  | AddScore points => lift h tm (addScore now points tm)
  | ResetScore => Return (h, resetScore now tm) tt
  | SetActive b => Return (h, setActive now b tm) tt
  | UpdateName newName => lift h tm (updateName newName tm)
  end.

(** A sequence of calls, each at its own reading of the clock; a call
    that throws leaves its state to the next one. *)
Fixpoint runAll (calls : list (Z * op)) (h : heap) (tm : t) : heap * t :=
  match calls with
  | [] => (h, tm)
  | (now, o) :: r => let '(h', tm') := final (run now o h tm) in runAll r h' tm'
  end.

End Team.

(** ** Game ([src/entities/Game.js], the second part of
    [src/core/GameService.js]) *)

Inductive GameState := waiting | playing | paused | finished.

Module Game.

Record settings := mkSettings {
  allowSpectators : bool;
  enableChat : bool;
  showScores : bool
}.

Record t := mk {
  id : string;
  name : string;
  createdAt : Z;
  _teams : list (string * Team.t);
  _players : list (string * loc);
  _maxTeams : Z;
  _maxPlayersPerTeam : Z;
  gameState : GameState;
  currentRound : Z;
  maxRounds : Z;
  _roundTimeLimit : Z;
  currentWord : option string;
  currentDrawer : option loc;
  gameSettings : settings;
  _lastActivity : option Z
}.

Record json := mkJson {
  j_id : string;
  j_name : string;
  j_type : string;
  j_createdAt : Z;
  j_teams : list Team.json;
  j_players : list Player.json;
  j_gameState : GameState;
  j_currentRound : Z;
  j_maxRounds : Z;
  j_currentWord : option string;
  j_currentDrawer : option Player.json;
  j_gameSettings : settings
}.

Definition new (now : Z) (id name : string) (maxTeams maxPlayersPerTeam : Z)
  : exn + t :=
  if negb (Entity.accepts id name) then inl Entity.requires
  else inr (mk id name now [] [] maxTeams maxPlayersPerTeam waiting 0 10 60
               None None (mkSettings true true true) None).

(** *** Field updates *)

Definition with_name (n : string) (g : t) : t :=
  mk (id g) n (createdAt g) (_teams g) (_players g) (_maxTeams g)
     (_maxPlayersPerTeam g) (gameState g) (currentRound g) (maxRounds g)
     (_roundTimeLimit g) (currentWord g) (currentDrawer g) (gameSettings g)
     (_lastActivity g).

Definition with_teams (ts : list (string * Team.t)) (g : t) : t :=
  mk (id g) (name g) (createdAt g) ts (_players g) (_maxTeams g)
     (_maxPlayersPerTeam g) (gameState g) (currentRound g) (maxRounds g)
     (_roundTimeLimit g) (currentWord g) (currentDrawer g) (gameSettings g)
     (_lastActivity g).

Definition with_players (ps : list (string * loc)) (g : t) : t :=
  mk (id g) (name g) (createdAt g) (_teams g) ps (_maxTeams g)
     (_maxPlayersPerTeam g) (gameState g) (currentRound g) (maxRounds g)
     (_roundTimeLimit g) (currentWord g) (currentDrawer g) (gameSettings g)
     (_lastActivity g).

Definition with_gameState (s : GameState) (g : t) : t :=
  mk (id g) (name g) (createdAt g) (_teams g) (_players g) (_maxTeams g)
     (_maxPlayersPerTeam g) s (currentRound g) (maxRounds g)
     (_roundTimeLimit g) (currentWord g) (currentDrawer g) (gameSettings g)
     (_lastActivity g).

Definition with_currentRound (r : Z) (g : t) : t :=
  mk (id g) (name g) (createdAt g) (_teams g) (_players g) (_maxTeams g)
     (_maxPlayersPerTeam g) (gameState g) r (maxRounds g)
     (_roundTimeLimit g) (currentWord g) (currentDrawer g) (gameSettings g)
     (_lastActivity g).

Definition with_currentWord (w : option string) (g : t) : t :=
  mk (id g) (name g) (createdAt g) (_teams g) (_players g) (_maxTeams g)
     (_maxPlayersPerTeam g) (gameState g) (currentRound g) (maxRounds g)
     (_roundTimeLimit g) w (currentDrawer g) (gameSettings g)
     (_lastActivity g).

Definition with_currentDrawer (d : option loc) (g : t) : t :=
  mk (id g) (name g) (createdAt g) (_teams g) (_players g) (_maxTeams g)
     (_maxPlayersPerTeam g) (gameState g) (currentRound g) (maxRounds g)
     (_roundTimeLimit g) (currentWord g) d (gameSettings g)
     (_lastActivity g).

Definition _updateActivity (now : Z) (g : t) : t :=
  mk (id g) (name g) (createdAt g) (_teams g) (_players g) (_maxTeams g)
     (_maxPlayersPerTeam g) (gameState g) (currentRound g) (maxRounds g)
     (_roundTimeLimit g) (currentWord g) (currentDrawer g) (gameSettings g)
     (Some now).

(** The [teams] and [players] getters: the values, in insertion order. *)
Definition teams (g : t) : list Team.t := JsMap.values (_teams g).
Definition players (g : t) : list loc := JsMap.values (_players g).

Definition isPlaying (s : GameState) : bool :=
  match s with playing => true | _ => false end.

Definition isPaused (s : GameState) : bool :=
  match s with paused => true | _ => false end.

(** *** Private helpers *)

Definition _allTeamsReady (h : heap) (g : t) : bool :=
  forallb (Team.isReady h) (JsMap.values (_teams g)).

(** [player.teamId && this._teams.has(player.teamId)] *)
Definition onExistingTeam (h : heap) (g : t) (l : loc) : bool :=
  match h !! l with
  | Some p =>
      truthyId (Player.teamId p) &&
      match Player.teamId p with
      | Some tid => JsMap.has tid (_teams g)
      | None => false
      end
  | None => false
  end.

Definition activePlayers (h : heap) (g : t) : list loc :=
  List.filter (onExistingTeam h g) (players g).

(** [Array.prototype.findIndex]: the first position where [f] holds,
    and -1 when there is none. *)
Fixpoint findIndex {A} (f : A -> bool) (l : list A) : Z :=
  match l with
  | [] => -1
  | x :: r =>
      if f x then 0
      else let i := findIndex f r in if i =? -1 then -1 else i + 1
  end.

(** [this._currentDrawer?.id]: [None] stands for [undefined]. *)
Definition drawerId (h : heap) (g : t) : option string :=
  match currentDrawer g with
  | Some d => Player.id <$> h !! d
  | None => None
  end.

(** [p.id === this._currentDrawer?.id] *)
Definition isDrawer (h : heap) (g : t) (l : loc) : bool :=
  match h !! l, drawerId h g with
  | Some p, Some i => String.eqb (Player.id p) i
  | _, _ => false
  end.

(** [this._currentDrawer.setDrawing(true)], on the shared object. *)
Definition markDrawing (now : Z) (h : heap) (d : loc) : heap :=
  match h !! d with
  | Some p => <[d := Player.setDrawing now true p]> h
  | None => h
  end.

Definition _selectNextDrawer (now : Z) (h : heap) (g : t) : heap * t :=
  match activePlayers h g with
  | [] => (h, with_currentDrawer None g)
  | (first :: _) as active =>
      let currentIndex := findIndex (isDrawer h g) active in
      let nextIndex := Z.rem (currentIndex + 1) (Z.of_nat (List.length active)) in
      let d := nth (Z.to_nat nextIndex) active first in
      (markDrawing now h d, with_currentDrawer (Some d) g)
  end.

(** *** Game state management *)

Definition endGame (now : Z) (g : t) : t :=
  _updateActivity now
    (with_currentWord None (with_currentDrawer None (with_gameState finished g))).

Definition startGame (now : Z) (h : heap) (g : t) : outcome (heap * t) unit :=
  if JsMap.size (_teams g) <? 2 then
    Throw (h, g) (Error "At least 2 teams required to start game")
  else if negb (_allTeamsReady h g) then
    Throw (h, g) (Error "All teams must be ready to start game")
  else
    let g1 := with_currentRound 1 (with_gameState playing g) in
    let '(h2, g2) := _selectNextDrawer now h g1 in
    Return (h2, _updateActivity now g2) tt.

Definition pauseGame (now : Z) (g : t) : t :=
  if isPlaying (gameState g) then _updateActivity now (with_gameState paused g)
  else g.

Definition resumeGame (now : Z) (g : t) : t :=
  if isPaused (gameState g) then _updateActivity now (with_gameState playing g)
  else g.

Definition nextRound (now : Z) (h : heap) (g : t) : outcome (heap * t) unit :=
  if negb (isPlaying (gameState g)) then
    Throw (h, g) (Error "Game must be in playing state to advance round")
  else
    let g1 := with_currentRound (currentRound g + 1) g in
    if maxRounds g1 <? currentRound g1 then Return (h, endGame now g1) tt
    else
      let '(h2, g2) := _selectNextDrawer now h g1 in
      Return (h2, _updateActivity now g2) tt.

Definition setCurrentWord (now : Z) (word : JsValue) (g : t) : outcome t unit :=
  match word with
  | JsStr w =>
      if negb (JsString.truthy w) then Throw g (Error "Valid word is required")
      else Return (_updateActivity now
                     (with_currentWord
                        (Some (JsString.trim (JsString.toLowerCase w))) g)) tt
  | _ => Throw g (Error "Valid word is required")
  end.

Definition updateName (newName : string) (g : t) : outcome t unit :=
  match Entity._validateName newName with
  | inl e => Throw g e
  | inr n => Return (with_name n g) tt
  end.

(** *** Team management *)

Definition createTeam (now : Z) (rnd : nat) (teamId teamName : string)
           (color : option string) (g : t) : outcome t Team.t :=
  if JsMap.has teamId (_teams g) then
    Throw g (Error "Team with this ID already exists")
  else if _maxTeams g <=? JsMap.size (_teams g) then
    Throw g (Error "Maximum number of teams reached")
  else
    match Team.new now rnd teamId teamName color with
    | inl e => Throw g e
    | inr team =>
        Return (_updateActivity now
                  (with_teams (JsMap.set teamId team (_teams g)) g)) team
    end.

(** The ids of the player objects a team holds, as [removeTeam] reads
    them. *)
Definition memberIds (h : heap) (team : Team.t) : list string :=
  omap (fun l => Player.id <$> h !! l) (Team.players team).

Definition removeTeam (now : Z) (teamId : string) (h : heap) (g : t)
  : outcome t unit :=
  match JsMap.get teamId (_teams g) with
  | None => Throw g (Error "Team not found")
  | Some team =>
      let ps := fold_left (fun ps pid => JsMap.delete pid ps)
                          (memberIds h team) (_players g) in
      Return (_updateActivity now
                (with_teams (JsMap.delete teamId (_teams g))
                   (with_players ps g))) tt
  end.

Definition getTeam (teamId : string) (g : t) : option Team.t :=
  JsMap.get teamId (_teams g).

(** *** Player management *)

Definition addPlayer (now : Z) (playerId playerName : string)
           (teamId : option string) (h : heap) (g : t)
  : outcome (heap * t) loc :=
  if JsMap.has playerId (_players g) then
    Throw (h, g) (Error "Player with this ID already exists")
  else
    match Player.new now playerId playerName teamId with
    | inl e => Throw (h, g) e
    | inr p =>
        let player := List.length h in
        let h1 := (h ++ [p])%list in
        let g1 := with_players (JsMap.set playerId player (_players g)) g in
        match (if truthyId teamId then teamId else None) with
        | Some tid =>
            match JsMap.get tid (_teams g1) with
            | Some team =>
                match Team.addPlayer now player h1 team with
                | Throw (h2, team') e =>
                    Throw (h2, with_teams (JsMap.set tid team' (_teams g1)) g1) e
                | Return (h2, team') _ =>
                    Return (h2, _updateActivity now
                                  (with_teams (JsMap.set tid team' (_teams g1)) g1))
                           player
                end
            | None => Return (h1, _updateActivity now g1) player
            end
        | None => Return (h1, _updateActivity now g1) player
        end
    end.

Definition removePlayer (now : Z) (playerId : string) (h : heap) (g : t)
  : outcome (heap * t) unit :=
  match JsMap.get playerId (_players g) with
  | None => Throw (h, g) (Error "Player not found")
  | Some player =>
      let tid := match h !! player with
                 | Some p => if truthyId (Player.teamId p)
                             then Player.teamId p else None
                 | None => None
                 end in
      let finish h' g' :=
        Return (h', _updateActivity now
                      (with_players (JsMap.delete playerId (_players g')) g')) tt in
      match tid with
      | Some tid =>
          match JsMap.get tid (_teams g) with
          | Some team =>
              match Team.removePlayer now playerId h team with
              | Throw (h2, team') e =>
                  Throw (h2, with_teams (JsMap.set tid team' (_teams g)) g) e
              | Return (h2, team') _ =>
                  finish h2 (with_teams (JsMap.set tid team' (_teams g)) g)
              end
          | None => finish h g
          end
      | None => finish h g
      end
  end.

Definition getPlayer (playerId : string) (g : t) : option loc :=
  JsMap.get playerId (_players g).

(** *** Serialization *)

Definition toJSON (h : heap) (g : t) : json :=
  mkJson (id g) (name g) "Game" (createdAt g)
         (List.map (Team.toJSON h) (teams g))
         (Team.playersJSON h (players g))
         (gameState g) (currentRound g) (maxRounds g) (currentWord g)
         (match currentDrawer g with
          | Some d => Player.toJSON <$> h !! d
          | None => None
          end)
         (gameSettings g).

(** *** The public mutators, as one call

    A team is reached through [getTeam] and a player object through
    [getPlayer] or a reference the caller kept; [NewPlayer] is a player
    constructed outside the game. Calling a method on what [getTeam]
    did not find, or through a reference that leads nowhere, is a
    [TypeError] that changes nothing. *)

Inductive op :=
| StartGame
| PauseGame
| ResumeGame
| EndGame
| NextRound
| SetCurrentWord (word : JsValue)
| UpdateName (newName : string)
| CreateTeam (rnd : nat) (teamId teamName : string) (color : option string)
| RemoveTeam (teamId : string)
| AddPlayer (playerId playerName : string) (teamId : option string)
| RemovePlayer (playerId : string)
| NewPlayer (playerId playerName : string) (teamId : option string)
| OnPlayer (player : loc) (o : Player.op)
| OnTeam (teamId : string) (o : Team.op).

Definition forget {S A} (o : outcome S A) : outcome S unit :=
  match o with Return s _ => Return s tt | Throw s e => Throw s e end.

Definition onGame (h : heap) (o : outcome t unit) : outcome (heap * t) unit :=
  match o with Return g _ => Return (h, g) tt | Throw g e => Throw (h, g) e end.

Definition notAnObject : exn :=
  TypeError "Cannot read properties of undefined".

Definition run (now : Z) (o : op) (h : heap) (g : t) : outcome (heap * t) unit :=
  match o with
  | StartGame => startGame now h g
  | PauseGame => Return (h, pauseGame now g) tt
  | ResumeGame => Return (h, resumeGame now g) tt
  | EndGame => Return (h, endGame now g) tt
  | NextRound => nextRound now h g
  | SetCurrentWord word => onGame h (setCurrentWord now word g)
  | UpdateName newName => onGame h (updateName newName g)
  | CreateTeam rnd teamId teamName color =>
      onGame h (forget (createTeam now rnd teamId teamName color g))
  | RemoveTeam teamId => onGame h (removeTeam now teamId h g)
  | AddPlayer playerId playerName teamId =>
      forget (addPlayer now playerId playerName teamId h g)
  | RemovePlayer playerId => removePlayer now playerId h g
  | NewPlayer playerId playerName teamId =>
      match Player.new now playerId playerName teamId with
      | inl e => Throw (h, g) e
      | inr p => Return ((h ++ [p])%list, g) tt
      end
  | OnPlayer player o =>
      match h !! player with
      | None => Throw (h, g) notAnObject
      | Some p =>
          match Player.run now o p with
          | Return p' _ => Return (<[player := p']> h, g) tt
          | Throw p' e => Throw (<[player := p']> h, g) e
          end
      end
  | OnTeam teamId o =>
      match JsMap.get teamId (_teams g) with
      | None => Throw (h, g) notAnObject
      | Some team =>
          match Team.run now o h team with
          | Return (h', team') _ =>
              Return (h', with_teams (JsMap.set teamId team' (_teams g)) g) tt
          | Throw (h', team') e =>
              Throw (h', with_teams (JsMap.set teamId team' (_teams g)) g) e
          end
      end
  end.

Fixpoint runAll (calls : list (Z * op)) (h : heap) (g : t) : heap * t :=
  match calls with
  | [] => (h, g)
  | (now, o) :: r => let '(h', g') := final (run now o h g) in runAll r h' g'
  end.

(** [nextRound()] called once per reading of the clock, stopping at the
    first call that throws. *)
Fixpoint nextRounds (nows : list Z) (h : heap) (g : t) : outcome (heap * t) unit :=
  match nows with
  | [] => Return (h, g) tt
  | now :: r =>
      match nextRound now h g with
      | Return (h', g') _ => nextRounds r h' g'
      | Throw w e => Throw w e
      end
  end.

(** The states a game goes through: constructed, then any public call. *)
Inductive reachable : heap -> t -> Prop :=
| reach_new now id name maxTeams maxPlayersPerTeam g :
    new now id name maxTeams maxPlayersPerTeam = inr g ->
    reachable [] g
| reach_run now o h g h' g' :
    reachable h g ->
    final (run now o h g) = (h', g') ->
    reachable h' g'.

(** What the limit on rounds is about: the state, the round and the
    maximum. *)
Definition roundView (g : t) : GameState * Z * Z :=
  (gameState g, currentRound g, maxRounds g).

(** The round is at most one past the maximum, and it is past the maximum
    only in a finished game. *)
Definition roundBounded (g : t) : Prop :=
  0 <= currentRound g <= maxRounds g + 1 /\
  1 <= maxRounds g /\
  (maxRounds g < currentRound g -> gameState g = finished).

(** The keys of each collection are distinct; every player is entered
    under its id, in the game and in the teams; every team is entered
    under its id, which is not empty. *)
Definition keyed (h : heap) (g : t) : Prop :=
  List.NoDup (JsMap.keys (_players g)) /\
  (forall k l, In (k, l) (_players g) ->
               exists p, h !! l = Some p /\ Player.id p = k) /\
  List.NoDup (JsMap.keys (_teams g)) /\
  (forall tid team, In (tid, team) (_teams g) ->
                    Team.id team = tid /\ tid <> "" /\ Team.keyed h team).

(** Every reference held by the game leads to an object of the store. *)
Definition refsValid (h : heap) (g : t) : Prop :=
  (forall k l, In (k, l) (_players g) -> (l < List.length h)%nat) /\
  (forall tid team, In (tid, team) (_teams g) -> Team.refsValid h team) /\
  (forall d, currentDrawer g = Some d -> (d < List.length h)%nat).

End Game.

(** ** GameService ([src/core/GameService.js]) *)

(** The [options] argument of [createGame]: left out, [null], or an object
    whose two fields are numbers when present. *)
Inductive optionsArg :=
| OptUndefined
| OptNull
| OptObject (maxTeams maxPlayersPerTeam : option Z).

Module GameService.

Record archived := mkArchived {
  game : Game.json;
  endedAt : Z
}.

Record t := mk {
  _currentGame : option Game.t;
  _gameHistory : list archived;
  _uniqueNames : gset string;
  _isInitialized : bool
}.

(** The constructor, and [_reset]. *)
Definition new : t := mk None [] ∅ false.

Definition initialize (s : t) : outcome t unit :=
  if _isInitialized s then Throw s (Error "GameService is already initialized")
  else Return (mk (_currentGame s) (_gameHistory s) (_uniqueNames s) true) tt.

Definition _reset (s : t) : t := mk None [] ∅ false.

(** [name.trim().toLowerCase()] *)
Definition normalize (name : string) : string :=
  JsString.toLowerCase (JsString.trim name).

(** [v || d] on a number that may be absent: 0 is falsy. *)
Definition orDefault (v : option Z) (d : Z) : Z :=
  match v with
  | Some n => if n =? 0 then d else n
  | None => d
  end.

Definition createGame (now : Z) (uuid : string) (gameName : JsValue)
           (options : optionsArg) (s : t) : outcome t Game.t :=
  if negb (_isInitialized s) then
    Throw s (Error "GameService must be initialized first")
  else
    match _currentGame s with
    | Some _ =>
        Throw s (Error "A game is already in progress. Only one game instance allowed.")
    | None =>
        match gameName with
        | JsStr gameName =>
            if negb (JsString.truthy gameName) then
              Throw s (Error "Valid game name is required")
            else
              let normalizedName := normalize gameName in
              if bool_decide (normalizedName ∈ _uniqueNames s) then
                Throw s (Error "Game name must be unique")
              else
                match options with
                | OptNull =>
                    Throw s (TypeError "Cannot read properties of null (reading 'maxTeams')")
                | _ =>
                    let '(mt, mp) := match options with
                                     | OptObject mt mp => (mt, mp)
                                     | _ => (None, None)
                                     end in
                    match Game.new now uuid (JsString.trim gameName)
                                   (orDefault mt 4) (orDefault mp 6) with
                    | inl e => Throw s e
                    | inr g =>
                        Return (mk (Some g) (_gameHistory s)
                                   ({[normalizedName]} ∪ _uniqueNames s)
                                   (_isInitialized s)) g
                    end
                end
        | _ => Throw s (Error "Valid game name is required")
        end
    end.

Definition getCurrentGame (s : t) : option Game.t := _currentGame s.

Definition endCurrentGame (now : Z) (h : heap) (s : t) : t * option Game.t :=
  match _currentGame s with
  | None => (s, None)
  | Some g =>
      let endedGame := Game.endGame now g in
      let history := (_gameHistory s ++ [mkArchived (Game.toJSON h endedGame) now])%list in
      let normalizedName := JsString.toLowerCase (Game.name endedGame) in
      (mk None history (_uniqueNames s ∖ {[normalizedName]}) (_isInitialized s),
       Some endedGame)
  end.

Definition isNameUnique (name : JsValue) (s : t) : bool :=
  match name with
  | JsStr name =>
      if negb (JsString.truthy name) then false
      else negb (bool_decide (normalize name ∈ _uniqueNames s))
  | _ => false
  end.

Definition registerUniqueName (name : JsValue) (s : t) : outcome t bool :=
  match name with
  | JsStr name =>
      if negb (JsString.truthy name) then Throw s (Error "Valid name is required")
      else if bool_decide (normalize name ∈ _uniqueNames s) then
        Throw s (Error "Name must be unique")
      else
        Return (mk (_currentGame s) (_gameHistory s)
                   ({[normalize name]} ∪ _uniqueNames s) (_isInitialized s)) true
  | _ => Throw s (Error "Valid name is required")
  end.

Definition unregisterUniqueName (name : JsValue) (s : t) : t :=
  match name with
  | JsStr name =>
      if negb (JsString.truthy name) then s
      else mk (_currentGame s) (_gameHistory s)
              (_uniqueNames s ∖ {[normalize name]}) (_isInitialized s)
  | _ => s
  end.

Definition getGameHistory (s : t) : list archived := _gameHistory s.

(** *** The calls a client makes

    [OnCurrentGame] is a call on the game [getCurrentGame] returns, or
    on one of the player objects. *)

Inductive call :=
| Initialize
| Reset
| CreateGame (uuid : string) (gameName : JsValue) (options : optionsArg)
| EndCurrentGame
| RegisterUniqueName (name : JsValue)
| UnregisterUniqueName (name : JsValue)
| OnCurrentGame (o : Game.op).

Definition with_currentGame (g : option Game.t) (s : t) : t :=
  mk g (_gameHistory s) (_uniqueNames s) (_isInitialized s).

Definition run (now : Z) (c : call) (h : heap) (s : t) : heap * t :=
  match c with
  | Initialize => (h, final (initialize s))
  | Reset => (h, _reset s)
  | CreateGame uuid gameName options =>
      (h, final (createGame now uuid gameName options s))
  | EndCurrentGame => (h, fst (endCurrentGame now h s))
  | RegisterUniqueName name => (h, final (registerUniqueName name s))
  | UnregisterUniqueName name => (h, unregisterUniqueName name s)
  | OnCurrentGame o =>
      match _currentGame s with
      | Some g =>
          let '(h', g') := final (Game.run now o h g) in
          (h', with_currentGame (Some g') s)
      | None => (h, s)
      end
  end.

Fixpoint runAll (calls : list (Z * call)) (h : heap) (s : t) : heap * t :=
  match calls with
  | [] => (h, s)
  | (now, c) :: r => let '(h', s') := run now c h s in runAll r h' s'
  end.

Inductive reachable : heap -> t -> Prop :=
| reach_new : reachable [] new
| reach_run now c h s h' s' :
    reachable h s -> run now c h s = (h', s') -> reachable h' s'.

(** The name of the current game carries no white space around it. *)
Definition nameTrimmed (s : t) : Prop :=
  forall g, _currentGame s = Some g -> JsString.trim (Game.name g) = Game.name g.

End GameService.

(** ** NameValidator ([src/utils/NameValidator.js]) *)

Module NameValidator.

(** The result object; [originalName] is a property of the accepted
    ones only. *)
Record result := mkResult {
  isValid : bool;
  message : string;
  normalizedName : string;
  originalName : option string
}.

Definition reservedWords : list string :=
  [ "admin"; "system"; "game"; "player"; "team"; "user";
    "guest"; "anonymous"; "null"; "undefined"; "test" ].

Definition minLength : Z := 2.
Definition maxLength : Z := 50.

(** [[a-zA-Z0-9]] *)
Definition isAlphanumeric (c : ascii) : bool :=
  let n := JsString.code c in
  (((97 <=? n) && (n <=? 122)) || ((65 <=? n) && (n <=? 90))
   || ((48 <=? n) && (n <=? 57)))%N.

(** [[\s\-_]] *)
Definition isSpecial (c : ascii) : bool :=
  let n := JsString.code c in
  (JsString.isWhiteSpace c || (n =? 45) || (n =? 95))%N.

(** [/^[a-zA-Z0-9\s\-_]+$/] *)
Definition onlyAllowed (s : string) : bool :=
  match list_ascii_of_string s with
  | [] => false
  | cs => forallb (fun c => isAlphanumeric c || isSpecial c) cs
  end.

(** [/[\s\-_]{2,}/] *)
Fixpoint consecutiveSpecial (cs : list ascii) : bool :=
  match cs with
  | c :: (d :: _) as r => (isSpecial c && isSpecial d) || consecutiveSpecial r
  | _ => false
  end.

(** [/^[\s\-_]|[\s\-_]$/] *)
Definition edgeSpecial (cs : list ascii) : bool :=
  match cs with
  | [] => false
  | c :: _ => isSpecial c || isSpecial (List.last cs c)
  end.

Definition fail (msg : string) : result := mkResult false msg "" None.

Definition validateName (name : JsValue) (type : string) : result :=
  match name with
  | JsStr name =>
      if negb (JsString.truthy name) then
        fail (type ++ " name is required")
      else
        let trimmedName := JsString.trim name in
        let normalizedName := JsString.toLowerCase trimmedName in
        if Z.of_nat (String.length trimmedName) <? minLength then
          fail (type ++ " name must be at least 2 characters long")
        else if maxLength <? Z.of_nat (String.length trimmedName) then
          fail (type ++ " name must be no more than 50 characters long")
        else if existsb (String.eqb normalizedName) reservedWords then
          fail (type ++ " name cannot be a reserved word")
        else if negb (onlyAllowed trimmedName) then
          fail (type ++ " name can only contain letters, numbers, spaces, hyphens, and underscores")
        else if consecutiveSpecial (list_ascii_of_string trimmedName) then
          fail (type ++ " name cannot have consecutive special characters")
        else if edgeSpecial (list_ascii_of_string trimmedName) then
          fail (type ++ " name cannot start or end with special characters")
        else mkResult true "Name is valid" normalizedName (Some trimmedName)
  | JsUndefined | JsNull | JsBoolean false | JsNumber 0 =>
      fail (type ++ " name is required")
  | _ => fail (type ++ " name must be a string")
  end.

(** [validateMultipleNames(names)], on an array of objects with a [name]
    and a [type] property; an absent [type] is [undefined], for which
    [validateName] takes its default ['entity'] while the error line
    prints it as it is. *)
Record entry := mkEntry { entryName : JsValue; entryType : option string }.

Record checked := mkChecked {
  checkedName : JsValue;
  checkedType : option string;
  verdict : result
}.

Record report := mkReport {
  allValid : bool;
  results : list checked;
  errors : list string
}.

(** The text a template literal gives a value; a [JsObject] is a plain
    object, and the text of a number is [numberText] of it, an input of
    the model. *)
Definition toText (numberText : Z -> string) (v : JsValue) : string :=
  match v with
  | JsUndefined => "undefined"
  | JsNull => "null"
  | JsBoolean true => "true"
  | JsBoolean false => "false"
  | JsNumber n => numberText n
  | JsStr s => s
  | JsObject => "[object Object]"
  end.

Definition typeText (ty : option string) : string :=
  match ty with Some ty => ty | None => "undefined" end.

(** One turn of the loop over [names]. *)
Definition validateOne (numberText : Z -> string) (r : report) (e : entry)
  : report :=
  let validation :=
    validateName (entryName e) (default "entity" (entryType e)) in
  let results' :=
    (results r ++ [mkChecked (entryName e) (entryType e) validation])%list in
  if negb (isValid validation) then
    mkReport false results'
             (errors r ++
              [ (typeText (entryType e) ++ " " ++ String (ascii_of_nat 34) ""
                 ++ toText numberText (entryName e)
                 ++ String (ascii_of_nat 34) ""
                 ++ ": " ++ message validation)%string ])%list
  else mkReport (allValid r) results' (errors r).

Definition validateMultipleNames (numberText : Z -> string)
    (names : list entry) : report :=
  fold_left (validateOne numberText) names (mkReport true [] []).


(** [s.replace(/[^a-zA-Z0-9\s\-_]/g, '')] *)
Definition clean (s : string) : string :=
  string_of_list_ascii
    (List.filter (fun c => isAlphanumeric c || isSpecial c)
                 (list_ascii_of_string s)).

(** The suggestion made from the counter [n]: [`${cleanBase}${n}`]. *)
Definition numbered (cleanBase : string) (n : nat) : string :=
  (cleanBase ++ NilEmpty.string_of_uint (Nat.to_uint n))%string.

(** The value of [suggestion] after [k] turns of the loop. *)
Definition suggestionAt (cleanBase : string) (k : nat) : string :=
  match k with O => cleanBase | _ => numbered cleanBase k end.

(** The [while] loop of [generateUniqueName], run for at most [fuel]
    tests of its condition: [None] when the loop is still running
    then. *)
Fixpoint generateLoop (fuel : nat) (existingNames : gset string)
    (cleanBase suggestion : string) (counter : nat) : option string :=
  match fuel with
  | O => None
  | S fuel =>
      if bool_decide (JsString.toLowerCase suggestion ∈ existingNames) then
        generateLoop fuel existingNames cleanBase
                     (numbered cleanBase counter) (S counter)
      else Some suggestion
  end.

(** [generateUniqueName(baseName, existingNames)], on a set of strings. *)
Definition generateUniqueName (fuel : nat) (baseName : JsValue)
    (existingNames : gset string) : option (exn + string) :=
  let baseName := if falsy baseName then JsStr "NewEntity" else baseName in
  match baseName with
  | JsStr baseName =>
      let cleanBase := clean (JsString.trim baseName) in
      inr <$> generateLoop fuel existingNames cleanBase cleanBase 1
  | _ => Some (inl (TypeError "baseName.trim is not a function"))
  end.



End NameValidator.

(** ** The HTTP routes ([server.js])

    The handlers of the game routes, on the game service and the store
    of player objects; a response is its status and its JSON body. *)

Module Server.

Inductive payload :=
| ErrorBody (error : string)
| Created (game : Game.json)
| GameBody (game : Game.json)
| Ended (game : option Game.json)
| Unique (isUnique : bool)
| History (history : list GameService.archived).

Record response := mkResponse { status : Z; body : payload }.

(** [POST /api/games], on a body that is an object with the properties
    [name] and [options]: an absent [options] is the empty object. *)
Definition postGame (now : Z) (uuid : string) (name : JsValue)
    (options : optionsArg) (h : heap) (s : GameService.t)
  : GameService.t * response :=
  if falsy name then (s, mkResponse 400 (ErrorBody "Game name is required"))
  else
    let options := match options with
                   | OptUndefined => OptObject None None
                   | _ => options
                   end in
    match GameService.createGame now uuid name options s with
    | Return s' game => (s', mkResponse 201 (Created (Game.toJSON h game)))
    | Throw s' e => (s', mkResponse 400 (ErrorBody (errorMessage e)))
    end.

(** [GET /api/games/current] *)
Definition getCurrentGame (h : heap) (s : GameService.t) : response :=
  match GameService.getCurrentGame s with
  | None => mkResponse 404 (ErrorBody "No active game")
  | Some game => mkResponse 200 (GameBody (Game.toJSON h game))
  end.

(** [DELETE /api/games/current] *)
Definition deleteCurrentGame (now : Z) (h : heap) (s : GameService.t)
  : GameService.t * response :=
  let '(s', endedGame) := GameService.endCurrentGame now h s in
  (s', mkResponse 200 (Ended (Game.toJSON h <$> endedGame))).

(** [POST /api/validate/name] *)
Definition postValidateName (name : JsValue) (s : GameService.t) : response :=
  if falsy name then mkResponse 400 (ErrorBody "Name is required")
  else mkResponse 200 (Unique (GameService.isNameUnique name s)).

(** [GET /api/games/history] *)
Definition getHistory (s : GameService.t) : response :=
  mkResponse 200 (History (GameService.getGameHistory s)).

End Server.

(** ** The specification's vocabulary *)

Module Spec.

(** A team is ready when it has at least one player and the ready flag
    of every one of its players is true. *)
Definition teamReady (h : heap) (tm : Team.t) : Prop :=
  Team._players tm <> [] /\
  forall l, In l (JsMap.values (Team._players tm)) ->
            exists p, h !! l = Some p /\ Player.isReady p = true.

(** The position of the first element on which [f] holds. *)
Fixpoint position {A} (f : A -> bool) (l : list A) : option nat :=
  match l with
  | [] => None
  | x :: r => if f x then Some 0%nat else S <$> position f r
  end.

(** Round-robin over the players in turn: the one after the previous
    drawer, back to the first one after the last; the first one when
    nobody was drawing or the previous drawer is not among them. *)
Definition roundRobin (active : list loc) (previous : option nat) : option loc :=
  match previous with
  | Some i => active !! ((i + 1) mod List.length active)%nat
  | None => active !! 0%nat
  end.

(** A player belongs to an existing team when its team reference is the
    id of a team of the game. *)
Definition belongs (h : heap) (g : Game.t) (l : loc) : bool :=
  match h !! l with
  | Some p =>
      match Player.teamId p with
      | Some tid => existsb (String.eqb tid) (List.map fst (Game._teams g))
      | None => false
      end
  | None => false
  end.

(** The players the round-robin runs over: those of the game that belong
    to an existing team, in the order they were entered in the game. *)
Definition candidates (h : heap) (g : Game.t) : list loc :=
  List.filter (belongs h g) (List.map snd (Game._players g)).

(** The player that was drawing last: players are told apart by their
    id, as the collections are keyed. *)
Definition wasDrawing (h : heap) (g : Game.t) (l : loc) : bool :=
  match Game.currentDrawer g with
  | Some d =>
      match h !! d, h !! l with
      | Some previous, Some p => String.eqb (Player.id p) (Player.id previous)
      | _, _ => false
      end
  | None => false
  end.

(** The drawer the rule selects in a game: the candidate after the one
    that was drawing last. *)
Definition nextDrawer (h : heap) (g : Game.t) : option loc :=
  roundRobin (candidates h g) (position (wasDrawing h g) (candidates h g)).

(** A name the validator accepts. *)
Definition validName (n : string) : Prop :=
  NameValidator.isValid (NameValidator.validateName (JsStr n) "entity") = true.

End Spec.

(** The player [_selectNextDrawer] makes the drawer: its index arithmetic
    read as a rotation, over the list it filters and from the index it
    finds. *)
Definition selected (h : heap) (g : Game.t) : option loc :=
  let active := Game.activePlayers h g in
  Spec.roundRobin active (Spec.position (Game.isDrawer h g) active).

(** ** A game night, for the examples

    Teams Red and Blue, players A and B on Red and C on Blue, everybody
    ready. *)

Module Scenario.

Definition game0 : Game.t :=
  Game.mk "game-1" "Pictionary Night" 0 [] [] 4 6 waiting 0 10 60 None None
          (Game.mkSettings true true true) None.

Definition setup : list (Z * Game.op) :=
  [ (1, Game.CreateTeam 0 "red" "Red" None);
    (2, Game.CreateTeam 1 "blue" "Blue" None);
    (3, Game.AddPlayer "a" "A" (Some "red"));
    (4, Game.AddPlayer "b" "B" (Some "red"));
    (5, Game.AddPlayer "c" "C" (Some "blue"));
    (6, Game.OnPlayer 0%nat (Player.SetReady true));
    (7, Game.OnPlayer 1%nat (Player.SetReady true));
    (8, Game.OnPlayer 2%nat (Player.SetReady true)) ].

(** Everybody is ready, the game has not started. *)
Definition lobby : heap * Game.t := Game.runAll setup [] game0.

(** The game after [startGame()]. *)
Definition started : heap * Game.t :=
  Game.runAll [(9, Game.StartGame)] (fst lobby) (snd lobby).

(** Ten calls of [nextRound()] after the start. *)
Definition tenRounds : list (Z * Game.op) :=
  [ (10, Game.NextRound); (11, Game.NextRound); (12, Game.NextRound);
    (13, Game.NextRound); (14, Game.NextRound); (15, Game.NextRound);
    (16, Game.NextRound); (17, Game.NextRound); (18, Game.NextRound);
    (19, Game.NextRound) ].

(** The game after the start and ten more rounds. *)
Definition ended : heap * Game.t :=
  Game.runAll tenRounds (fst started) (snd started).

Definition team0 : Team.t :=
  Team.mk "red" "Red" 1 [] 0 "#FF6B6B" true None.

(** Team Red in the lobby. *)
Definition red : Team.t :=
  Team.mk "red" "Red" 1 [("a", 0%nat); ("b", 1%nat)] 0 "#FF6B6B" true (Some 4).

(** Player A has left team Red on its own and was then removed from the
    game: Red still holds the object. *)
Definition strayed : heap * Game.t :=
  Game.runAll [ (9, Game.OnPlayer 0%nat Player.LeaveTeam);
                (10, Game.RemovePlayer "a") ]
              (fst lobby) (snd lobby).

(** A player joined for a team that was created only afterwards. *)
Definition early : heap * Game.t :=
  Game.runAll [ (1, Game.AddPlayer "x" "X" (Some "late"));
                (2, Game.CreateTeam 0 "late" "Late" None) ]
              [] game0.

(** An initialized service with no game. *)
Definition service0 : GameService.t := GameService.mk None [] ∅ true.

(** The service once "Pictionary Night" has been created. *)
Definition night : heap * GameService.t :=
  GameService.runAll
    [ (0, GameService.Initialize);
      (1, GameService.CreateGame "game-1" (JsStr "Pictionary Night") OptUndefined) ]
    [] GameService.new.

End Scenario.

(** * Properties *)

(** ** Strings *)

Section string_facts.
Import JsString.

Lemma lowerChar_idempotent c : lowerChar (lowerChar c) = lowerChar c.
Proof. destruct c as [[] [] [] [] [] [] [] []]; reflexivity. Qed.

Lemma isWhiteSpace_lowerChar c : isWhiteSpace (lowerChar c) = isWhiteSpace c.
Proof. destruct c as [[] [] [] [] [] [] [] []]; reflexivity. Qed.

Lemma same_letter_lower c d : same_letter c d -> lowerChar c = lowerChar d.
Proof.
  intros [-> | [-> | ->]];
    [reflexivity | symmetry; apply lowerChar_idempotent
    | apply lowerChar_idempotent].
Qed.

Lemma case_variant_lower s t :
  case_variant s t -> toLowerCase s = toLowerCase t.
Proof.
  induction 1 as [| c d s t Hcd _ IH]; simpl; [reflexivity |].
  now rewrite (same_letter_lower _ _ Hcd), IH.
Qed.

Lemma trimStart_blank_app a s :
  blank a = true -> trimStart (a ++ s)%string = trimStart s.
Proof.
  induction a as [| c a IH]; simpl; [reflexivity |].
  intros [Hc Ha]%andb_prop. rewrite Hc. auto.
Qed.

Lemma trimEnd_blank b : blank b = true -> trimEnd b = EmptyString.
Proof.
  induction b as [| c b IH]; simpl; [reflexivity |].
  intros [Hc Hb]%andb_prop. rewrite (IH Hb), Hc. reflexivity.
Qed.

Lemma trimEnd_app_blank s b :
  blank b = true -> trimEnd (s ++ b)%string = trimEnd s.
Proof.
  intros Hb. induction s as [| c s IH]; simpl.
  - now apply trimEnd_blank.
  - now rewrite IH.
Qed.

Lemma trimStart_blank b : blank b = true -> trimStart b = EmptyString.
Proof.
  induction b as [| c b IH]; simpl; [reflexivity |].
  intros [Hc Hb]%andb_prop. rewrite Hc. auto.
Qed.

(** White space around a core does not survive [trim]. *)
Lemma trim_padded a m b :
  blank a = true -> blank b = true -> trim (a ++ m ++ b)%string = trim m.
Proof.
  intros Ha Hb. unfold trim. rewrite (trimStart_blank_app _ _ Ha).
  induction m as [| c m IH]; simpl.
  - change (EmptyString ++ b)%string with b.
    now rewrite (trimStart_blank _ Hb).
  - destruct (isWhiteSpace c); [exact IH |].
    change (String c (m ++ b)%string) with (String c m ++ b)%string.
    now apply trimEnd_app_blank.
Qed.

Lemma toLowerCase_trimStart s :
  toLowerCase (trimStart s) = trimStart (toLowerCase s).
Proof.
  induction s as [| c s IH]; simpl; [reflexivity |].
  rewrite isWhiteSpace_lowerChar. now destruct (isWhiteSpace c).
Qed.

Lemma toLowerCase_trimEnd s :
  toLowerCase (trimEnd s) = trimEnd (toLowerCase s).
Proof.
  induction s as [| c s IH]; simpl; [reflexivity |].
  rewrite <- IH, isWhiteSpace_lowerChar.
  destruct (trimEnd s); simpl; [now destruct (isWhiteSpace c) | reflexivity].
Qed.

Lemma toLowerCase_trim s : toLowerCase (trim s) = trim (toLowerCase s).
Proof. unfold trim. now rewrite toLowerCase_trimEnd, toLowerCase_trimStart. Qed.

Lemma trimEnd_idempotent s : trimEnd (trimEnd s) = trimEnd s.
Proof.
  induction s as [| c s IH]; simpl; [reflexivity |].
  destruct (trimEnd s) as [| d r] eqn:E.
  - destruct (isWhiteSpace c) eqn:Hc; simpl; [reflexivity | now rewrite Hc].
  - simpl in *. now rewrite IH.
Qed.

Lemma trimStart_headed s : headed (trimStart s).
Proof.
  induction s as [| c s IH]; simpl; [exact I |].
  destruct (isWhiteSpace c) eqn:Hc; [exact IH | exact Hc].
Qed.

Lemma trimEnd_headed s : headed s -> headed (trimEnd s).
Proof.
  destruct s as [| c s]; simpl; [trivial |].
  intros Hc. destruct (trimEnd s); simpl; [now rewrite Hc | exact Hc].
Qed.

Lemma headed_trimStart s : headed s -> trimStart s = s.
Proof. destruct s as [| c s]; simpl; [trivial | now intros ->]. Qed.

Lemma trim_idempotent s : trim (trim s) = trim s.
Proof.
  unfold trim.
  rewrite (headed_trimStart (trimEnd (trimStart s))).
  - apply trimEnd_idempotent.
  - apply trimEnd_headed, trimStart_headed.
Qed.

(** The two sides of a variant have the same normalized form. *)
Lemma variant_normalize n v :
  variant n v -> GameService.normalize v = GameService.normalize n.
Proof.
  intros (a & b & m & a' & b' & m' & -> & -> & Ha & Hb & Ha' & Hb' & Hm).
  unfold GameService.normalize.
  rewrite !trim_padded by assumption.
  now rewrite !toLowerCase_trim, (case_variant_lower _ _ Hm).
Qed.

Lemma truthy_nonempty s : truthy s = true <-> s <> EmptyString.
Proof. destruct s; simpl; split; congruence. Qed.

Lemma trim_truthy s : truthy (trim s) = true -> truthy s = true.
Proof. destruct s; simpl; [discriminate | reflexivity]. Qed.

Lemma toLowerCase_truthy s : truthy (toLowerCase s) = truthy s.
Proof. now destruct s. Qed.

End string_facts.

(** ** Insertion-ordered maps *)

Section map_facts.
Context {V : Type}.
Implicit Types (m : list (string * V)) (k : string) (v : V).

Lemma has_get k m : JsMap.has k m = true <-> exists v, JsMap.get k m = Some v.
Proof.
  unfold JsMap.has. destruct (JsMap.get k m); split; eauto; try discriminate.
  intros [? ?]; discriminate.
Qed.

Lemma has_false_get k m : JsMap.has k m = false <-> JsMap.get k m = None.
Proof. unfold JsMap.has. destruct (JsMap.get k m); split; congruence. Qed.

Lemma get_In k v m : JsMap.get k m = Some v -> In (k, v) m.
Proof.
  induction m as [| [k' v'] m IH]; simpl; [discriminate |].
  destruct (String.eqb_spec k k') as [-> | Hne].
  - intros [= ->]. now left.
  - intros H. right. auto.
Qed.

Lemma get_None_keys k m : JsMap.get k m = None <-> ~ In k (JsMap.keys m).
Proof.
  induction m as [| [k' v'] m IH]; simpl; [tauto |].
  destruct (String.eqb_spec k k') as [-> | Hne].
  - split; [discriminate | tauto].
  - rewrite IH. split; [intros H [E | HIn]; congruence | tauto].
Qed.

Lemma get_set_eq k v m : JsMap.get k (JsMap.set k v m) = Some v.
Proof.
  induction m as [| [k' v'] m IH]; simpl.
  - now rewrite String.eqb_refl.
  - destruct (String.eqb_spec k k') as [-> | Hne]; simpl.
    + now rewrite String.eqb_refl.
    + destruct (String.eqb_spec k k'); [contradiction | exact IH].
Qed.

Lemma get_set_ne k k' v m :
  k <> k' -> JsMap.get k' (JsMap.set k v m) = JsMap.get k' m.
Proof.
  intros Hne. induction m as [| [k0 v0] m IH]; simpl.
  - destruct (String.eqb_spec k' k); [congruence | reflexivity].
  - destruct (String.eqb_spec k k0) as [-> | Hk]; simpl.
    + destruct (String.eqb_spec k' k0); [congruence | reflexivity].
    + destruct (String.eqb_spec k' k0); [reflexivity | exact IH].
Qed.

Lemma set_fresh k v m :
  JsMap.get k m = None -> JsMap.set k v m = (m ++ [(k, v)])%list.
Proof.
  induction m as [| [k' v'] m IH]; simpl; [reflexivity |].
  destruct (String.eqb_spec k k'); [discriminate |].
  intros H. now rewrite IH.
Qed.

Lemma In_set k v m k' v' :
  In (k', v') (JsMap.set k v m) -> (k', v') = (k, v) \/ In (k', v') m.
Proof.
  induction m as [| [k0 v0] m IH]; simpl.
  - intros [E | []]. now left.
  - destruct (String.eqb k k0); simpl; intros [E | H]; auto.
    destruct (IH H); auto.
Qed.

Lemma get_delete_eq k m : JsMap.get k (JsMap.delete k m) = None.
Proof.
  induction m as [| [k' v'] m IH]; simpl; [reflexivity |].
  destruct (String.eqb_spec k k') as [-> | Hne]; simpl; [exact IH |].
  destruct (String.eqb_spec k k'); [contradiction | exact IH].
Qed.

Lemma get_delete_ne k k' m :
  k <> k' -> JsMap.get k' (JsMap.delete k m) = JsMap.get k' m.
Proof.
  intros Hne. induction m as [| [k0 v0] m IH]; simpl; [reflexivity |].
  destruct (String.eqb_spec k k0) as [-> | Hk]; simpl.
  - destruct (String.eqb_spec k' k0); [congruence | exact IH].
  - destruct (String.eqb_spec k' k0); [reflexivity | exact IH].
Qed.

Lemma In_delete k m kv : In kv (JsMap.delete k m) -> In kv m.
Proof. unfold JsMap.delete. rewrite filter_In. tauto. Qed.

(** Deleting a list of keys one after the other keeps, in their order,
    the entries whose key is not in the list. *)
Lemma delete_all ks m :
  fold_left (fun m k => JsMap.delete k m) ks m
  = List.filter (fun kv => negb (existsb (String.eqb (fst kv)) ks)) m.
Proof.
  revert m. induction ks as [| k ks IH]; intros m; simpl.
  - induction m as [| kv m IHm]; simpl; congruence.
  - rewrite IH. unfold JsMap.delete.
    induction m as [| kv m IHm]; simpl; [reflexivity |].
    rewrite (String.eqb_sym k (fst kv)).
    destruct (String.eqb (fst kv) k); simpl; [exact IHm |].
    destruct (existsb _ ks); simpl; congruence.
Qed.

End map_facts.

(** ** Team *)

Lemma forallb_readyAt h ls :
  forallb (Team.readyAt h) ls = true <->
  forall l, In l ls -> exists p, h !! l = Some p /\ Player.isReady p = true.
Proof.
  rewrite forallb_forall. unfold Team.readyAt.
  split; intros H l Hl; specialize (H l Hl).
  - destruct (h !! l) as [p |]; [eauto | discriminate].
  - destruct H as (p & -> & Hp). exact Hp.
Qed.

(** The two descriptions of a ready team agree. *)
Lemma isReady_teamReady h tm :
  Team.isReady h tm = true <-> Spec.teamReady h tm.
Proof.
  unfold Team.isReady, Spec.teamReady, JsMap.size.
  destruct (Team._players tm) as [| kv ps] eqn:E.
  - simpl. split; [discriminate | intros [H _]; congruence].
  - replace (Z.of_nat (List.length (kv :: ps)) =? 0) with false
      by (symmetry; apply Z.eqb_neq; simpl List.length; lia).
    rewrite forallb_readyAt. split; [intros H; split; [discriminate | exact H] | tauto].
Qed.

(** C8. [isReady()] is false for a team without players; for a team with
    at least one player it is true exactly when the ready flag of every
    member is true. *)
Theorem Team_isReady_spec (h : heap) (tm : Team.t) :
  (Team._players tm = [] -> Team.isReady h tm = false) /\
  (Team._players tm <> [] ->
   (Team.isReady h tm = true <->
    forall l, In l (JsMap.values (Team._players tm)) ->
              exists p, h !! l = Some p /\ Player.isReady p = true)).
Proof.
  split.
  - intros E. unfold Team.isReady. now rewrite E.
  - intros Hne. rewrite isReady_teamReady. unfold Spec.teamReady. tauto.
Qed.

(** ** Doubles

    What the properties of the scores need of the standard library's
    floating-point specification: rounding a positive value gives a
    double that is below no double below the value, and is exact on a
    value the format holds. Values are compared as integers, in units of
    the least positive double. *)

Section double_facts.
Variables prec emax : Z.
Hypothesis Hprec : 0 < prec.
Hypothesis Hemax : prec < emax.

Local Abbreviation emin := (SpecFloat.emin prec emax).
Local Abbreviation fexp := (SpecFloat.fexp prec emax).

Lemma digits2_pos_bounds m :
  2 ^ (Zpos (digits2_pos m) - 1) <= Zpos m < 2 ^ Zpos (digits2_pos m).
Proof.
  induction m as [m IH | m IH |]; cbn [digits2_pos].
  - rewrite Pos2Z.inj_succ.
    replace (Z.succ (Z.pos (digits2_pos m)) - 1) with (Z.succ (Z.pos (digits2_pos m) - 1)) by lia.
    rewrite !Z.pow_succ_r by lia. lia.
  - rewrite Pos2Z.inj_succ.
    replace (Z.succ (Z.pos (digits2_pos m)) - 1) with (Z.succ (Z.pos (digits2_pos m) - 1)) by lia.
    rewrite !Z.pow_succ_r by lia. lia.
  - simpl. lia.
Qed.

Lemma digits2_pos_unique m d :
  2 ^ (d - 1) <= Zpos m < 2 ^ d -> Zpos (digits2_pos m) = d.
Proof.
  intros [Hlo Hhi]. pose proof (digits2_pos_bounds m) as [Hlo' Hhi'].
  assert (Hd : 0 < d).
  { destruct (Z.lt_trichotomy d 0) as [Hn | [-> | Hp]]; [| simpl in Hhi; lia | exact Hp].
    rewrite Z.pow_neg_r in Hhi by lia. lia. }
  destruct (Z.lt_trichotomy (Zpos (digits2_pos m)) d) as [Hlt | [Heq | Hgt]];
    [| exact Heq |].
  - assert (2 ^ Zpos (digits2_pos m) <= 2 ^ (d - 1)) by (apply Z.pow_le_mono_r; lia). lia.
  - assert (2 ^ d <= 2 ^ (Zpos (digits2_pos m) - 1)) by (apply Z.pow_le_mono_r; lia). lia.
Qed.

Lemma iter_xO m d : Zpos (Pos.iter xO m d) = Zpos m * 2 ^ Zpos d.
Proof.
  rewrite <- Z.shiftl_mul_pow2 by lia. cbn [Z.shiftl].
  apply (Pos.iter_swap_gen _ _ Zpos xO (Z.mul 2)). reflexivity.
Qed.


Lemma shl_align_spec mx ex ez :
  ez <= ex ->
  Zpos (fst (shl_align mx ex ez)) = Zpos mx * 2 ^ (ex - ez) /\
  snd (shl_align mx ex ez) = ez.
Proof.
  intros Hle. unfold shl_align.
  destruct (ez - ex) as [| d | d] eqn:E; try lia.
  - assert (ex = ez) by lia. subst. rewrite Z.sub_diag. simpl. split; lia.
  - cbn [fst snd]. rewrite iter_xO.
    replace (ex - ez) with (Zpos d) by lia. split; reflexivity.
Qed.

Lemma shr_1_m r : 0 <= shr_m r -> shr_m (shr_1 r) = shr_m r / 2.
Proof.
  destruct r as [m r s]. cbn [shr_m]. intros Hm. unfold shr_1.
  destruct m as [| [p | p |] | p]; cbn [shr_m]; [reflexivity | | | reflexivity | lia].
  - rewrite (Pos2Z.inj_xI p). apply Z.div_unique with (r := 1); lia.
  - rewrite (Pos2Z.inj_xO p). apply Z.div_unique with (r := 0); lia.
Qed.

Lemma iter_shr_m n :
  forall r, 0 <= shr_m r ->
            shr_m (iter_pos shr_1 n r) = shr_m r / 2 ^ Zpos n.
Proof.
  assert (Hstep : forall r, 0 <= shr_m r -> 0 <= shr_m (shr_1 r)).
  { intros r Hr. rewrite shr_1_m by exact Hr. apply Z.div_pos; lia. }
  induction n as [n IH | n IH |]; intros r Hr; cbn [iter_pos].
  - rewrite IH, IH, shr_1_m by
      (try rewrite IH by auto; try apply Z.div_pos; auto; try lia;
       apply Z.pow_pos_nonneg; lia).
    rewrite !Z.div_div by (try apply Z.pow_pos_nonneg; lia).
    f_equal. rewrite (Pos2Z.inj_xI n).
    replace (2 * Zpos n + 1) with (1 + Zpos n + Zpos n) by lia.
    rewrite !Z.pow_add_r by lia. lia.
  - rewrite IH, IH by
      (try rewrite IH by auto; try apply Z.div_pos; auto; try lia;
       apply Z.pow_pos_nonneg; lia).
    rewrite !Z.div_div by (try apply Z.pow_pos_nonneg; lia).
    f_equal. rewrite (Pos2Z.inj_xO n).
    replace (2 * Zpos n) with (Zpos n + Zpos n) by lia.
    rewrite !Z.pow_add_r by lia. lia.
  - rewrite shr_1_m by exact Hr. reflexivity.
Qed.

Lemma round_nearest_even_bounds m l :
  m <= round_nearest_even m l <= m + 1.
Proof.
  unfold round_nearest_even.
  destruct l as [| []]; try lia. destruct (Z.even m); lia.
Qed.


Lemma pow2_pos k : 0 < 2 ^ k \/ k < 0.
Proof. destruct (Z.le_gt_cases 0 k); [left; apply Z.pow_pos_nonneg; lia | right; lia]. Qed.

Lemma shr_fexp_exact (m : positive) (e : Z) :
  let n := fexp (Zpos (digits2_pos m) + e) - e in
  shr_fexp prec emax (Zpos m) e loc_Exact
  = if 0 <? n
    then (iter_pos shr_1 (Z.to_pos n) (Build_shr_record (Zpos m) false false),
          e + n)
    else (Build_shr_record (Zpos m) false false, e).
Proof.
  cbv zeta. unfold shr_fexp, shr. cbn [Zdigits2 shr_record_of_loc].
  destruct (fexp (Zpos (digits2_pos m) + e) - e) as [| p | p]; reflexivity.
Qed.

(** Rounding a positive mantissa that is not shorter than the format
    asks: the result is infinite, or a double that is not below the
    mantissa cut to the format. *)
Lemma binary_round_aux_pos (m : positive) (e : Z) :
  emin <= e -> e <= fexp (Zpos (digits2_pos m) + e) ->
  let n := fexp (Zpos (digits2_pos m) + e) - e in
  binary_round_aux prec emax false (Zpos m) e loc_Exact = S754_infinity false \/
  exists mR eR,
    binary_round_aux prec emax false (Zpos m) e loc_Exact
    = S754_finite false mR eR /\
    bounded prec emax mR eR = true /\ emin <= eR /\
    (Zpos m / 2 ^ n) * 2 ^ (e + n - emin) <= Zpos mR * 2 ^ (eR - emin).
Proof.
  intros He Hn. cbv zeta.
  pose proof (digits2_pos_bounds m) as [Hlo Hhi].
  set (d := Zpos (digits2_pos m)) in *.
  set (n := fexp (d + e) - e) in *.
  unfold binary_round_aux. rewrite shr_fexp_exact. fold d. fold n.
  destruct (Z.ltb_spec 0 n) as [Hpos | Hzero].
  - assert (Hf : fexp (d + e) = d + e - prec) by (unfold SpecFloat.fexp in *; lia).
    assert (Hnd : n = d - prec) by lia.
    assert (H2n : 0 < 2 ^ n) by (apply Z.pow_pos_nonneg; lia).
    set (r1 := iter_pos shr_1 (Z.to_pos n) (Build_shr_record (Zpos m) false false)).
    assert (Hm1 : shr_m r1 = Zpos m / 2 ^ n).
    { unfold r1. rewrite iter_shr_m by (cbn; lia). cbn [shr_m].
      now rewrite Z2Pos.id by lia. }
    assert (Hm1lo : 2 ^ (prec - 1) <= shr_m r1).
    { rewrite Hm1. apply Z.div_le_lower_bound; [exact H2n |].
      rewrite <- Z.pow_add_r by lia. replace (n + (prec - 1)) with (d - 1) by lia.
      exact Hlo. }
    assert (Hm1hi : shr_m r1 < 2 ^ prec).
    { rewrite Hm1. apply Z.div_lt_upper_bound; [exact H2n |].
      rewrite <- Z.pow_add_r by lia. replace (n + prec) with d by lia.
      exact Hhi. }
    pose proof (round_nearest_even_bounds (shr_m r1) (loc_of_shr_record r1)) as Hrne.
    assert (Hp1 : 0 < 2 ^ (prec - 1)) by (apply Z.pow_pos_nonneg; lia).
    destruct (round_nearest_even (shr_m r1) (loc_of_shr_record r1))
      as [| q | q] eqn:Eq; [lia | | lia].
    rewrite shr_fexp_exact.
    assert (He1 : emin <= e + n) by lia.
    assert (H2e : 0 < 2 ^ (e + n - emin)) by (apply Z.pow_pos_nonneg; lia).
    destruct (Z.eq_dec (Zpos q) (2 ^ prec)) as [Htop | Hlow].
    + assert (Hdq : Zpos (digits2_pos q) = prec + 1).
      { apply digits2_pos_unique. rewrite Htop.
        replace (prec + 1 - 1) with prec by lia. split; [lia |].
        apply Z.pow_lt_mono_r; lia. }
      rewrite Hdq.
      assert (Hn2 : fexp (prec + 1 + (e + n)) - (e + n) = 1)
        by (unfold SpecFloat.fexp; lia).
      rewrite Hn2. cbn [Z.ltb Z.compare Z.to_pos iter_pos].
      assert (Hm2 : shr_m (shr_1 (Build_shr_record (Zpos q) false false))
                    = 2 ^ (prec - 1)).
      { rewrite shr_1_m by (cbn; lia). cbn [shr_m]. rewrite Htop.
        replace prec with (1 + (prec - 1)) at 1 by lia.
        rewrite Z.pow_add_r by lia. change (2 ^ 1) with 2.
        rewrite Z.mul_comm. apply Z.div_mul. lia. }
      rewrite Hm2.
      assert (Hpp : 2 ^ prec = 2 * 2 ^ (prec - 1)).
      { replace prec with (1 + (prec - 1)) at 1 by lia.
        now rewrite Z.pow_add_r by lia. }
      destruct (2 ^ (prec - 1)) as [| q2 | q2] eqn:Eq2; [lia | | lia].
      destruct (Z.leb_spec (e + n + 1) (emax - prec)) as [Hfin | Hinf];
        [| left; reflexivity].
      right. exists q2, (e + n + 1). split; [reflexivity |].
      split; [| split; [lia |]].
      * unfold bounded, canonical_mantissa.
        assert (Hdq2 : Zpos (digits2_pos q2) = prec).
        { apply digits2_pos_unique. rewrite <- Eq2. split; [lia |].
          apply Z.pow_lt_mono_r; lia. }
        rewrite Hdq2. apply andb_true_intro. split.
        -- apply Z.eqb_eq. unfold SpecFloat.fexp. lia.
        -- apply Z.leb_le. lia.
      * rewrite <- Hm1.
        replace (e + n + 1 - emin) with (1 + (e + n - emin)) by lia.
        rewrite Z.pow_add_r by lia. change (2 ^ 1) with 2. nia.
    + assert (Hdq : Zpos (digits2_pos q) = prec).
      { apply digits2_pos_unique. split; lia. }
      rewrite Hdq.
      assert (Hn2 : fexp (prec + (e + n)) - (e + n) = 0)
        by (unfold SpecFloat.fexp; lia).
      rewrite Hn2. cbn [Z.ltb Z.compare shr_m].
      destruct (Z.leb_spec (e + n) (emax - prec)) as [Hfin | Hinf];
        [| left; reflexivity].
      right. exists q, (e + n). split; [reflexivity |].
      split; [| split; [lia |]].
      * unfold bounded, canonical_mantissa. rewrite Hdq.
        apply andb_true_intro. split.
        -- apply Z.eqb_eq. unfold SpecFloat.fexp. lia.
        -- apply Z.leb_le. lia.
      * rewrite <- Hm1. apply Z.mul_le_mono_nonneg_r; lia.
  - assert (Hn0 : n = 0) by lia.
    cbn [shr_m loc_of_shr_record round_nearest_even].
    rewrite shr_fexp_exact. fold d. fold n. rewrite Hn0. cbn [Z.ltb Z.compare shr_m].
    destruct (Z.leb_spec e (emax - prec)) as [Hfin | Hinf];
      [| left; reflexivity].
    right. exists m, e. split; [reflexivity |].
    split; [| split; [lia |]].
    + unfold bounded, canonical_mantissa. fold d.
      apply andb_true_intro. split; [apply Z.eqb_eq; lia | apply Z.leb_le; lia].
    + change (2 ^ 0) with 1. rewrite Z.div_1_r, Z.add_0_r. lia.
Qed.


(** A positive double that is canonical for the format. *)
Lemma bounded_canonical ms es :
  bounded prec emax ms es = true ->
  es = fexp (Zpos (digits2_pos ms) + es) /\ emin <= es /\ es <= emax - prec.
Proof.
  unfold bounded, canonical_mantissa. intros H.
  apply andb_prop in H as [Hc Hb].
  apply Z.eqb_eq in Hc. apply Z.leb_le in Hb.
  split; [lia |]. split; [| exact Hb].
  rewrite <- Hc. unfold SpecFloat.fexp. lia.
Qed.

(** The magnitude orders the values. *)
Lemma value_lt_magnitude m1 e1 m2 e2 :
  emin <= e1 -> emin <= e2 ->
  Zpos (digits2_pos m1) + e1 < Zpos (digits2_pos m2) + e2 ->
  Zpos m1 * 2 ^ (e1 - emin) < Zpos m2 * 2 ^ (e2 - emin).
Proof.
  intros H1 H2 Hlt.
  pose proof (digits2_pos_bounds m1) as [_ Hhi].
  pose proof (digits2_pos_bounds m2) as [Hlo _].
  assert (Hd1 : 0 < Zpos (digits2_pos m1)) by lia.
  assert (Hd2 : 0 < Zpos (digits2_pos m2)) by lia.
  assert (Hp1 : 0 < 2 ^ (e1 - emin)) by (apply Z.pow_pos_nonneg; lia).
  assert (Hp2 : 0 < 2 ^ (e2 - emin)) by (apply Z.pow_pos_nonneg; lia).
  apply Z.lt_le_trans with (2 ^ (Zpos (digits2_pos m1) + (e1 - emin))).
  - rewrite Z.pow_add_r by lia. apply Z.mul_lt_mono_pos_r; assumption.
  - apply Z.le_trans with (2 ^ (Zpos (digits2_pos m2) - 1 + (e2 - emin))).
    + apply Z.pow_le_mono_r; lia.
    + rewrite Z.pow_add_r by lia. apply Z.mul_le_mono_nonneg_r; lia.
Qed.

(** A mantissa cut to the format is not below any double that is not
    above the value cut. *)
Lemma round_down_above (m : positive) (e : Z) (ms : positive) (es : Z) :
  emin <= e -> e <= fexp (Zpos (digits2_pos m) + e) ->
  bounded prec emax ms es = true ->
  Zpos ms * 2 ^ (es - emin) <= Zpos m * 2 ^ (e - emin) ->
  let n := fexp (Zpos (digits2_pos m) + e) - e in
  Zpos ms * 2 ^ (es - emin) <= (Zpos m / 2 ^ n) * 2 ^ (e + n - emin).
Proof.
  intros He Hn Hs Hle. cbv zeta.
  apply bounded_canonical in Hs as (Hes & Hes_min & _).
  pose proof (digits2_pos_bounds m) as [Hlo Hhi].
  set (d := Zpos (digits2_pos m)) in *.
  set (ds := Zpos (digits2_pos ms)) in *.
  set (n := fexp (d + e) - e) in *.
  assert (Hd : 0 < d) by (unfold d; lia).
  destruct (Z.eq_dec n 0) as [Hn0 | Hn0].
  { rewrite Hn0. change (2 ^ 0) with 1. now rewrite Z.div_1_r, Z.add_0_r. }
  assert (Hpos : 0 < n) by lia.
  assert (Hf : fexp (d + e) = d + e - prec) by (unfold SpecFloat.fexp in *; lia).
  assert (H2n : 0 < 2 ^ n) by (apply Z.pow_pos_nonneg; lia).
  assert (H2e : 0 < 2 ^ (e - emin)) by (apply Z.pow_pos_nonneg; lia).
  assert (Hsplit : 2 ^ (e + n - emin) = 2 ^ n * 2 ^ (e - emin)).
  { rewrite <- Z.pow_add_r by lia. f_equal. lia. }
  destruct (Z.lt_ge_cases (ds + es) (d + e)) as [Hlt | Hge].
  - (* a smaller magnitude *)
    pose proof (digits2_pos_bounds ms) as [_ Hshi]. fold ds in Hshi.
    assert (Hds : 0 < ds) by (unfold ds; lia).
    assert (H2s : 0 < 2 ^ (es - emin)) by (apply Z.pow_pos_nonneg; lia).
    apply Z.le_trans with (2 ^ (ds + (es - emin))).
    + rewrite Z.pow_add_r by lia. apply Z.mul_le_mono_nonneg_r; lia.
    + apply Z.le_trans with (2 ^ (prec - 1) * 2 ^ (e + n - emin)).
      * rewrite <- Z.pow_add_r by lia. apply Z.pow_le_mono_r; lia.
      * apply Z.mul_le_mono_nonneg_r; [apply Z.pow_nonneg; lia |].
        apply Z.div_le_lower_bound; [exact H2n |].
        rewrite <- Z.pow_add_r by lia.
        replace (n + (prec - 1)) with (d - 1) by lia. exact Hlo.
  - (* the same magnitude *)
    assert (Hmag : ds + es = d + e).
    { destruct (Z.eq_dec (ds + es) (d + e)) as [E | E]; [exact E |].
      exfalso.
      assert (Zpos m * 2 ^ (e - emin) < Zpos ms * 2 ^ (es - emin))
        by (apply value_lt_magnitude; fold d; fold ds; lia).
      lia. }
    assert (Hes' : es = e + n) by (unfold n; rewrite <- Hmag; lia).
    rewrite Hes'. apply Z.mul_le_mono_nonneg_r; [apply Z.pow_nonneg; lia |].
    apply Z.div_le_lower_bound; [exact H2n |].
    rewrite Hes', Hsplit in Hle. nia.
Qed.

(** Rounding a positive mantissa gives infinity or a positive double,
    which is not below any double that is not above the value
    rounded. *)
Lemma binary_round_pos (m : positive) (e : Z) :
  emin <= e ->
  binary_round prec emax false m e = S754_infinity false \/
  exists mR eR,
    binary_round prec emax false m e = S754_finite false mR eR /\
    bounded prec emax mR eR = true /\
    forall ms es,
      bounded prec emax ms es = true ->
      Zpos ms * 2 ^ (es - emin) <= Zpos m * 2 ^ (e - emin) ->
      Zpos ms * 2 ^ (es - emin) <= Zpos mR * 2 ^ (eR - emin).
Proof.
  intros He. unfold binary_round.
  set (d := Zpos (digits2_pos m)).
  destruct (Z.lt_ge_cases (fexp (d + e)) e) as [Hshort | Hlong].
  - (* the mantissa is shorter than the format: it is moved up *)
    pose proof (shl_align_spec m e (fexp (d + e)) ltac:(lia)) as [Hmz Hez].
    destruct (shl_align m e (fexp (d + e))) as [mz ez]. cbn [fst snd] in Hmz, Hez.
    assert (Hfe : emin <= fexp (d + e)) by (unfold SpecFloat.fexp; lia).
    assert (Hdz : Zpos (digits2_pos mz) = d + (e - fexp (d + e))).
    { apply digits2_pos_unique. rewrite Hmz.
      pose proof (digits2_pos_bounds m) as [Hlo Hhi]. fold d in Hlo, Hhi.
      assert (0 < d) by (unfold d; lia).
      assert (0 < 2 ^ (e - fexp (d + e))) by (apply Z.pow_pos_nonneg; lia).
      replace (d + (e - fexp (d + e)) - 1) with ((d - 1) + (e - fexp (d + e))) by lia.
      rewrite !Z.pow_add_r by lia. split.
      - apply Z.mul_le_mono_nonneg_r; lia.
      - apply Z.mul_lt_mono_pos_r; lia. }
    subst ez.
    assert (Hmag : Zpos (digits2_pos mz) + fexp (d + e) = d + e) by lia.
    destruct (binary_round_aux_pos mz (fexp (d + e)) Hfe ltac:(rewrite Hmag; lia))
      as [Hinf | (mR & eR & HR & Hb & HeR & Hval)]; [left; exact Hinf |].
    right. exists mR, eR. split; [exact HR |]. split; [exact Hb |].
    intros ms es Hs Hle. eapply Z.le_trans; [| exact Hval].
    rewrite Hmag. replace (fexp (d + e) - fexp (d + e)) with 0 by lia.
    change (2 ^ 0) with 1. rewrite Z.div_1_r, Z.add_0_r, Hmz.
    rewrite <- Z.mul_assoc, <- Z.pow_add_r by lia.
    replace (e - fexp (d + e) + (fexp (d + e) - emin)) with (e - emin) by lia.
    exact Hle.
  - (* the mantissa is cut to the format *)
    assert (Hal : shl_align m e (fexp (d + e)) = (m, e)).
    { unfold shl_align. destruct (fexp (d + e) - e) eqn:E; try reflexivity. lia. }
    rewrite Hal.
    destruct (binary_round_aux_pos m e He ltac:(fold d; lia))
      as [Hinf | (mR & eR & HR & Hb & HeR & Hval)]; [left; exact Hinf |].
    right. exists mR, eR. split; [exact HR |]. split; [exact Hb |].
    intros ms es Hs Hle. eapply Z.le_trans; [| exact Hval].
    apply round_down_above; [exact He | fold d; lia | exact Hs | exact Hle].
Qed.


Lemma iter_shr_exact n :
  forall m, 0 <= m ->
    iter_pos shr_1 n (Build_shr_record (m * 2 ^ Zpos n) false false)
    = Build_shr_record m false false.
Proof.
  assert (Hstep : forall m, 0 <= m ->
            shr_1 (Build_shr_record (2 * m) false false)
            = Build_shr_record m false false).
  { intros [| p | p] Hm; [reflexivity | reflexivity | lia]. }
  induction n as [n IH | n IH |]; intros m Hm; cbn [iter_pos].
  - rewrite (Pos2Z.inj_xI n).
    replace (m * 2 ^ (2 * Zpos n + 1)) with (2 * (m * 2 ^ Zpos n * 2 ^ Zpos n))
      by (replace (2 * Zpos n + 1) with (1 + Zpos n + Zpos n) by lia;
          rewrite !Z.pow_add_r by lia; change (2 ^ 1) with 2; lia).
    rewrite Hstep by (apply Z.mul_nonneg_nonneg; [apply Z.mul_nonneg_nonneg |];
                      try lia; apply Z.pow_nonneg; lia).
    rewrite IH by (apply Z.mul_nonneg_nonneg; [lia | apply Z.pow_nonneg; lia]).
    apply IH. exact Hm.
  - rewrite (Pos2Z.inj_xO n).
    replace (m * 2 ^ (2 * Zpos n)) with (m * 2 ^ Zpos n * 2 ^ Zpos n)
      by (replace (2 * Zpos n) with (Zpos n + Zpos n) by lia;
          rewrite !Z.pow_add_r by lia; lia).
    rewrite IH by (apply Z.mul_nonneg_nonneg; [lia | apply Z.pow_nonneg; lia]).
    apply IH. exact Hm.
  - change (2 ^ 1) with 2. rewrite Z.mul_comm. apply Hstep. exact Hm.
Qed.

(** A canonical mantissa is kept as it is. *)
Lemma binary_round_aux_canonical (m : positive) (e : Z) :
  fexp (Zpos (digits2_pos m) + e) = e ->
  binary_round_aux prec emax false (Zpos m) e loc_Exact
  = if e <=? emax - prec then S754_finite false m e else S754_infinity false.
Proof.
  intros Hc. unfold binary_round_aux.
  rewrite shr_fexp_exact, Hc, Z.sub_diag. cbn [Z.ltb Z.compare].
  cbn [shr_m loc_of_shr_record round_nearest_even].
  rewrite shr_fexp_exact, Hc, Z.sub_diag. reflexivity.
Qed.

(** Rounding is exact on a value the format holds: the result has the
    exponent of the format and the mantissa that gives the value. *)
Lemma binary_round_exact (m : positive) (e : Z) (mR : positive) :
  emin <= e ->
  let E := fexp (Zpos (digits2_pos m) + e) in
  E <= emax - prec ->
  Zpos m * 2 ^ (e - emin) = Zpos mR * 2 ^ (E - emin) ->
  binary_round prec emax false m e = S754_finite false mR E.
Proof.
  intros He E HE Hval. unfold binary_round. fold E.
  pose proof (digits2_pos_bounds m) as [Hlo Hhi].
  set (d := Zpos (digits2_pos m)) in *.
  assert (Hd : 0 < d) by (unfold d; lia).
  assert (HEmin : emin <= E) by (unfold E, SpecFloat.fexp; lia).
  assert (H2E : 0 < 2 ^ (E - emin)) by (apply Z.pow_pos_nonneg; lia).
  destruct (Z.lt_ge_cases E e) as [Hshort | Hlong].
  - pose proof (shl_align_spec m e E ltac:(lia)) as [Hmz Hez].
    destruct (shl_align m e E) as [mz ez]. cbn [fst snd] in Hmz, Hez. subst ez.
    assert (Hmm : mz = mR).
    { apply Pos2Z.inj. rewrite Hmz.
      replace (e - emin) with ((e - E) + (E - emin)) in Hval by lia.
      rewrite Z.pow_add_r, Z.mul_assoc in Hval by lia.
      apply Z.mul_cancel_r in Hval; lia. }
    subst mz.
    assert (Hdz : Zpos (digits2_pos mR) = d + (e - E)).
    { apply digits2_pos_unique. rewrite Hmz.
      assert (0 < 2 ^ (e - E)) by (apply Z.pow_pos_nonneg; lia).
      replace (d + (e - E) - 1) with ((d - 1) + (e - E)) by lia.
      rewrite !Z.pow_add_r by lia. split.
      - apply Z.mul_le_mono_nonneg_r; lia.
      - apply Z.mul_lt_mono_pos_r; lia. }
    rewrite binary_round_aux_canonical
      by (rewrite Hdz; replace (d + (e - E) + E) with (d + e) by lia; reflexivity).
    destruct (Z.leb_spec E (emax - prec)); [reflexivity | lia].
  - assert (Hal : shl_align m e E = (m, e)).
    { unfold shl_align. destruct (E - e) eqn:Eq; try reflexivity. lia. }
    rewrite Hal.
    destruct (Z.eq_dec E e) as [Heq | Hne].
    + assert (Hmm : m = mR).
      { apply Pos2Z.inj. rewrite <- Heq in Hval at 1.
        apply Z.mul_cancel_r in Hval; lia. }
      subst mR. rewrite binary_round_aux_canonical by (fold d; fold E; lia).
      rewrite <- Heq.
      destruct (Z.leb_spec E (emax - prec)); [reflexivity | lia].
    + set (n := E - e). assert (Hn : 0 < n) by (unfold n; lia).
      assert (Hmn : Zpos m = Zpos mR * 2 ^ n).
      { replace (E - emin) with (n + (e - emin)) in Hval by (unfold n; lia).
        rewrite Z.pow_add_r, Z.mul_assoc in Hval by lia.
        apply Z.mul_cancel_r in Hval; [exact Hval |].
        assert (0 < 2 ^ (e - emin)) by (apply Z.pow_pos_nonneg; lia). lia. }
      assert (H2n : 0 < 2 ^ n) by (apply Z.pow_pos_nonneg; lia).
      assert (Hnd : n = d - prec)
        by (unfold n, E, SpecFloat.fexp in *; lia).
      assert (HdR : Zpos (digits2_pos mR) = d - n).
      { apply digits2_pos_unique. split.
        - apply Z.mul_le_mono_pos_r with (2 ^ n); [exact H2n |].
          rewrite <- Z.pow_add_r, <- Hmn by lia.
          replace (d - n - 1 + n) with (d - 1) by lia. exact Hlo.
        - apply Z.mul_lt_mono_pos_r with (2 ^ n); [exact H2n |].
          rewrite <- Z.pow_add_r, <- Hmn by lia.
          replace (d - n + n) with d by lia. exact Hhi. }
      unfold binary_round_aux. rewrite shr_fexp_exact. fold d. fold E. fold n.
      destruct (Z.ltb_spec 0 n); [| lia].
      pose proof (iter_shr_exact (Z.to_pos n) (Zpos mR) ltac:(lia)) as Hiter.
      rewrite Z2Pos.id, <- Hmn in Hiter by lia. rewrite Hiter.
      cbn [shr_m loc_of_shr_record round_nearest_even].
      replace (e + n) with E by (unfold n; lia).
      rewrite shr_fexp_exact, HdR.
      replace (d - n + E) with (d + e) by (unfold n; lia). fold E.
      rewrite Z.sub_diag. cbn [Z.ltb Z.compare shr_m].
      destruct (Z.leb_spec E (emax - prec)); [reflexivity | lia].
Qed.

Lemma fexp_mono a b : a <= b -> fexp a <= fexp b.
Proof. unfold SpecFloat.fexp. lia. Qed.

(** On positive doubles, [<] is the order of the values. *)
Lemma SFltb_pos_value m1 e1 m2 e2 :
  bounded prec emax m1 e1 = true -> bounded prec emax m2 e2 = true ->
  SFltb (S754_finite false m1 e1) (S754_finite false m2 e2) = true ->
  Zpos m1 * 2 ^ (e1 - emin) < Zpos m2 * 2 ^ (e2 - emin).
Proof.
  intros H1 H2. apply bounded_canonical in H1 as (Hc1 & Hm1 & _).
  apply bounded_canonical in H2 as (Hc2 & Hm2 & _).
  unfold SFltb, SFcompare.
  destruct (Z.compare_spec e1 e2) as [-> | Hlt | Hgt]; [| | discriminate].
  - change (Pos.compare_cont Eq m1 m2) with (Pos.compare m1 m2).
    destruct (Pos.compare_spec m1 m2) as [| Hm |]; try discriminate.
    intros _. apply Z.mul_lt_mono_pos_r; [apply Z.pow_pos_nonneg; lia | lia].
  - intros _. apply value_lt_magnitude; [exact Hm1 | exact Hm2 |].
    destruct (Z.lt_ge_cases (Zpos (digits2_pos m1) + e1) (Zpos (digits2_pos m2) + e2))
      as [H | H]; [exact H |].
    apply fexp_mono in H. lia.
Qed.

(** The sum of two doubles that are not below zero: it is a double, it is
    not below zero, and it is below neither of the two. *)
Lemma SFadd_not_below x y :
  valid_binary prec emax x = true -> valid_binary prec emax y = true ->
  SFltb x (S754_zero false) = false -> SFltb y (S754_zero false) = false ->
  valid_binary prec emax (SFadd prec emax x y) = true /\
  SFltb (SFadd prec emax x y) (S754_zero false) = false /\
  SFltb (SFadd prec emax x y) x = false /\
  SFltb (SFadd prec emax x y) y = false.
Proof.
  intros Hx Hy Hx0 Hy0.
  assert (Hrefl : forall m e, SFltb (S754_finite false m e) (S754_finite false m e) = false).
  { intros m e. unfold SFltb, SFcompare. rewrite Z.compare_refl.
    change (Pos.compare_cont Eq m m) with (Pos.compare m m).
    now rewrite Pos.compare_refl. }
  destruct x as [sx | [] | | [] mx ex], y as [sy | [] | | [] my ey];
    try discriminate;
    try (destruct sx; repeat split; try reflexivity; try assumption; apply Hrefl);
    try (destruct sy; repeat split; try reflexivity; try assumption; apply Hrefl);
    try (repeat split; reflexivity).
  - destruct sx, sy; repeat split; reflexivity.
  - cbn [valid_binary] in Hx, Hy.
    pose proof (bounded_canonical _ _ Hx) as (_ & Hex & _).
    pose proof (bounded_canonical _ _ Hy) as (_ & Hey & _).
    cbn [SFadd cond_Zopp]. cbv zeta.
    set (ez := Z.min ex ey).
    pose proof (shl_align_spec mx ex ez ltac:(unfold ez; lia)) as [Hax _].
    pose proof (shl_align_spec my ey ez ltac:(unfold ez; lia)) as [Hay _].
    set (ax := fst (shl_align mx ex ez)) in *.
    set (ay := fst (shl_align my ey ez)) in *.
    change (Zpos ax + Zpos ay) with (Zpos (ax + ay)).
    cbn [binary_normalize].
    assert (Hez : emin <= ez) by (unfold ez; lia).
    assert (H2z : 0 < 2 ^ (ez - emin)) by (apply Z.pow_pos_nonneg; lia).
    assert (Hvx : Zpos mx * 2 ^ (ex - emin) = Zpos ax * 2 ^ (ez - emin)).
    { rewrite Hax, <- Z.mul_assoc, <- Z.pow_add_r by (unfold ez; lia).
      do 2 f_equal. lia. }
    assert (Hvy : Zpos my * 2 ^ (ey - emin) = Zpos ay * 2 ^ (ez - emin)).
    { rewrite Hay, <- Z.mul_assoc, <- Z.pow_add_r by (unfold ez; lia).
      do 2 f_equal. lia. }
    destruct (binary_round_pos (ax + ay) ez Hez)
      as [-> | (mR & eR & -> & Hb & Habove)].
    + repeat split; reflexivity.
    + split; [exact Hb |]. split; [reflexivity |]. split.
      * destruct (SFltb (S754_finite false mR eR) (S754_finite false mx ex)) eqn:E;
          [| reflexivity].
        apply SFltb_pos_value in E; [| exact Hb | exact Hx].
        specialize (Habove mx ex Hx). rewrite Pos2Z.inj_add in Habove. nia.
      * destruct (SFltb (S754_finite false mR eR) (S754_finite false my ey)) eqn:E;
          [| reflexivity].
        apply SFltb_pos_value in E; [| exact Hb | exact Hy].
        specialize (Habove my ey Hy). rewrite Pos2Z.inj_add in Habove. nia.
Qed.


(** The double of a positive integer of at most [prec] bits, or of
    [2 ^ prec]: its value is the integer. *)
Lemma binary_round_int (a : positive) :
  Zpos a <= 2 ^ prec ->
  exists mR,
    binary_round prec emax false a 0
    = S754_finite false mR (fexp (Zpos (digits2_pos a))) /\
    fexp (Zpos (digits2_pos a)) <= 1 /\
    Zpos mR * 2 ^ (fexp (Zpos (digits2_pos a)) - emin) = Zpos a * 2 ^ (0 - emin).
Proof.
  intros Ha.
  pose proof (digits2_pos_bounds a) as [Hlo Hhi].
  set (d := Zpos (digits2_pos a)) in *.
  assert (Hd : 0 < d) by (unfold d; lia).
  assert (Hd54 : d <= prec + 1).
  { destruct (Z.le_gt_cases d (prec + 1)) as [H | H]; [exact H |].
    assert (2 ^ (prec + 1) <= 2 ^ (d - 1)) by (apply Z.pow_le_mono_r; lia).
    assert (2 ^ prec < 2 ^ (prec + 1)) by (apply Z.pow_lt_mono_r; lia). lia. }
  assert (Hemin : emin <= 0) by (unfold SpecFloat.emin; lia).
  assert (HE : fexp d = d - prec) by (unfold SpecFloat.fexp, SpecFloat.emin; lia).
  assert (Hex : exists mR : positive,
             Zpos mR * 2 ^ (fexp d - emin) = Zpos a * 2 ^ (0 - emin)).
  { rewrite HE. destruct (Z.eq_dec d (prec + 1)) as [Htop | Hlow].
    - (* the integer is [2 ^ prec] *)
      assert (Hap : Zpos a = 2 ^ prec).
      { rewrite Htop in Hlo. replace (prec + 1 - 1) with prec in Hlo by lia. lia. }
      assert (Hp : 0 < 2 ^ (prec - 1)) by (apply Z.pow_pos_nonneg; lia).
      exists (Z.to_pos (2 ^ (prec - 1))). rewrite Z2Pos.id by exact Hp.
      rewrite Hap, <- !Z.pow_add_r by (unfold SpecFloat.emin; lia).
      f_equal. lia.
    - exists (Z.to_pos (Zpos a * 2 ^ (prec - d))).
      assert (Hp : 0 < 2 ^ (prec - d)) by (apply Z.pow_pos_nonneg; lia).
      rewrite Z2Pos.id by lia.
      rewrite <- Z.mul_assoc, <- Z.pow_add_r by (unfold SpecFloat.emin; lia).
      do 2 f_equal. lia. }
  destruct Hex as (mR & Hval). exists mR.
  split; [| split; [lia | exact Hval]].
  pose proof (binary_round_exact a 0 mR Hemin) as Hx. cbv zeta in Hx.
  rewrite Z.add_0_r in Hx. fold d in Hx.
  apply Hx; [lia | symmetry; exact Hval].
Qed.

(** The sum of two integers is exact as long as it has at most [prec]
    bits, or is [2 ^ prec]. *)
Lemma SFadd_int (a b : Z) :
  0 <= a -> 0 <= b -> a + b <= 2 ^ prec ->
  SFadd prec emax (binary_normalize prec emax a 0 false)
                  (binary_normalize prec emax b 0 false)
  = binary_normalize prec emax (a + b) 0 false.
Proof.
  intros Ha Hb Hab.
  destruct a as [| a | a]; [| | lia].
  { destruct b as [| b | b]; [reflexivity | | lia].
    change (0 + Zpos b) with (Zpos b). cbn [binary_normalize].
    destruct (binary_round_int b ltac:(lia)) as (mR & -> & _). reflexivity. }
  destruct b as [| b | b]; [| | lia].
  { rewrite Z.add_0_r. cbn [binary_normalize].
    destruct (binary_round_int a ltac:(lia)) as (mR & -> & _). reflexivity. }
  change (Zpos a + Zpos b) with (Zpos (a + b)) in *.
  cbn [binary_normalize].
  assert (Hemin : emin <= 0) by (unfold SpecFloat.emin; lia).
  destruct (binary_round_int a ltac:(lia)) as (ma & -> & _ & Hva).
  destruct (binary_round_int b ltac:(lia)) as (mb & -> & _ & Hvb).
  destruct (binary_round_int (a + b) ltac:(lia)) as (mc & -> & Hec & Hvc).
  set (ea := fexp (Zpos (digits2_pos a))) in *.
  set (eb := fexp (Zpos (digits2_pos b))) in *.
  set (ec := fexp (Zpos (digits2_pos (a + b)))) in *.
  assert (Hea : emin <= ea) by (unfold ea, SpecFloat.fexp; lia).
  assert (Heb : emin <= eb) by (unfold eb, SpecFloat.fexp; lia).
  cbn [SFadd cond_Zopp]. cbv zeta.
  set (ez := Z.min ea eb).
  pose proof (shl_align_spec ma ea ez ltac:(unfold ez; lia)) as [Hax _].
  pose proof (shl_align_spec mb eb ez ltac:(unfold ez; lia)) as [Hay _].
  set (ax := fst (shl_align ma ea ez)) in *.
  set (ay := fst (shl_align mb eb ez)) in *.
  change (Zpos ax + Zpos ay) with (Zpos (ax + ay)).
  cbn [binary_normalize].
  assert (Hez : emin <= ez) by (unfold ez; lia).
  assert (H2z : 0 < 2 ^ (ez - emin)) by (apply Z.pow_pos_nonneg; lia).
  assert (H2m : 0 < 2 ^ (0 - emin)) by (apply Z.pow_pos_nonneg; lia).
  assert (Hsum : Zpos (ax + ay) * 2 ^ (ez - emin) = Zpos (a + b) * 2 ^ (0 - emin)).
  { rewrite !Pos2Z.inj_add, !Z.mul_add_distr_r, Hax, Hay, <- Hva, <- Hvb.
    rewrite <- !Z.mul_assoc, <- !Z.pow_add_r by (unfold ez; lia).
    f_equal; do 2 f_equal; lia. }
  assert (Hmag : Zpos (digits2_pos (ax + ay)) + ez = Zpos (digits2_pos (a + b)) + 0).
  { destruct (Z.lt_trichotomy (Zpos (digits2_pos (ax + ay)) + ez)
                              (Zpos (digits2_pos (a + b)) + 0)) as [H | [H | H]];
      [| exact H |].
    - apply value_lt_magnitude in H; lia.
    - apply value_lt_magnitude in H; lia. }
  pose proof (binary_round_exact (ax + ay) ez mc Hez) as Hx. cbv zeta in Hx.
  rewrite Hmag, Z.add_0_r in Hx. fold ec in Hx.
  apply Hx; [unfold SpecFloat.emin in *; lia |].
  rewrite Hsum. symmetry. exact Hvc.
Qed.

End double_facts.

Lemma ofZ_not_below z : 0 <= z -> JsNumber.ltb (JsNumber.ofZ z) 0 = false.
Proof.
  intros Hz. destruct z as [| p | p]; [reflexivity | | lia].
  unfold JsNumber.ofZ. cbn [binary_normalize].
  destruct (binary_round_pos JsNumber.prec JsNumber.emax eq_refl p 0)
    as [-> | (mR & eR & -> & _)]; [discriminate | reflexivity | reflexivity].
Qed.

Lemma ofZ_isDouble z : 0 <= z -> JsNumber.isDouble (JsNumber.ofZ z) = true.
Proof.
  intros Hz. destruct z as [| p | p]; [reflexivity | | lia].
  unfold JsNumber.ofZ, JsNumber.isDouble. cbn [binary_normalize].
  destruct (binary_round_pos JsNumber.prec JsNumber.emax eq_refl p 0)
    as [-> | (mR & eR & -> & Hb & _)]; [discriminate | reflexivity | exact Hb].
Qed.

(** Integers add exactly up to [2 ^ 53]. *)
Lemma add_ofZ (a b : Z) :
  0 <= a -> 0 <= b -> a + b <= 2 ^ 53 ->
  JsNumber.add (JsNumber.ofZ a) (JsNumber.ofZ b) = JsNumber.ofZ (a + b).
Proof.
  intros Ha Hb Hab.
  exact (SFadd_int JsNumber.prec JsNumber.emax eq_refl eq_refl a b Ha Hb Hab).
Qed.

(** What an accepted addition does to a score that is not below 0. *)
Lemma add_not_below (score points : JsNumber.t) :
  JsNumber.isDouble score = true -> JsNumber.isDouble points = true ->
  JsNumber.ltb score 0 = false -> JsNumber.ltb points 0 = false ->
  JsNumber.isDouble (JsNumber.add score points) = true /\
  JsNumber.ltb (JsNumber.add score points) 0 = false /\
  JsNumber.ltb (JsNumber.add score points) score = false.
Proof.
  intros Hs Hp Hs0 Hp0.
  destruct (SFadd_not_below JsNumber.prec JsNumber.emax eq_refl score points
              Hs Hp Hs0 Hp0) as (Hv & H0 & Hlt & _).
  split; [exact Hv |]. split; [exact H0 | exact Hlt].
Qed.

Lemma ltb_irrefl (x : JsNumber.t) : JsNumber.ltb x x = false.
Proof.
  destruct x as [[] | [] | | [] m e]; try reflexivity;
    unfold JsNumber.ltb, SFltb, SFcompare; rewrite Z.compare_refl;
    change (Pos.compare_cont Eq m m) with (Pos.compare m m);
    now rewrite Pos.compare_refl.
Qed.

(** *** The score of a team *)

Lemma Team_addPlayer_score now l h tm :
  Team.score (snd (final (Team.addPlayer now l h tm))) = Team.score tm.
Proof.
  unfold Team.addPlayer.
  destruct (h !! l) as [p |]; [| reflexivity].
  destruct (negb _); [reflexivity |].
  destruct (JsMap.has _ _); [reflexivity |].
  destruct (Player.joinTeam _ _ _); reflexivity.
Qed.

Lemma Team_removePlayer_score now k h tm :
  Team.score (snd (final (Team.removePlayer now k h tm))) = Team.score tm.
Proof.
  unfold Team.removePlayer. destruct (JsMap.get k _); reflexivity.
Qed.

(** What one call does to the score: [resetScore] sets it to 0, an
    accepted [addScore] adds its argument, everything else keeps it. *)
Lemma Team_run_score now o h tm :
  Team.score (snd (final (Team.run now o h tm))) =
  match o with
  | Team.ResetScore => 0
  | Team.AddScore points => if JsNumber.ltb points 0 then Team.score tm
                            else JsNumber.add (Team.score tm) points
  | _ => Team.score tm
  end.
Proof.
  destruct o as [l | k | points | | b | n]; simpl.
  - apply Team_addPlayer_score.
  - apply Team_removePlayer_score.
  - unfold Team.addScore. change (JsNumber.ofZ 0) with (S754_zero false).
    destruct (JsNumber.ltb points (S754_zero false)); reflexivity.
  - reflexivity.
  - reflexivity.
  - unfold Team.updateName. destruct (Entity._validateName n); reflexivity.
Qed.

(** One call keeps a score a double that is not below 0, and lowers it
    only when it is [resetScore]. *)
Lemma Team_run_score_kept now o h tm :
  Team.numeric o ->
  JsNumber.isDouble (Team.score tm) = true ->
  JsNumber.ltb (Team.score tm) 0 = false ->
  let score' := Team.score (snd (final (Team.run now o h tm))) in
  JsNumber.isDouble score' = true /\
  JsNumber.ltb score' 0 = false /\
  (o <> Team.ResetScore -> JsNumber.ltb score' (Team.score tm) = false).
Proof.
  intros Ho Hd H0. cbv zeta. rewrite Team_run_score.
  destruct o as [l | k | points | | b | n];
    try (split; [exact Hd |]; split; [exact H0 | intros _; apply ltb_irrefl]).
  - cbn [Team.numeric] in Ho.
    destruct (JsNumber.ltb points 0) eqn:Hp;
      [split; [exact Hd |]; split; [exact H0 | intros _; apply ltb_irrefl] |].
    destruct (add_not_below _ _ Hd Ho H0 Hp) as (Hv & Hn & Hlt).
    split; [exact Hv |]. split; [exact Hn | intros _; exact Hlt].
  - split; [reflexivity |]. split; [reflexivity | congruence].
Qed.

Lemma Team_runAll_score_kept calls : forall h tm,
  Forall (fun c => Team.numeric (snd c)) calls ->
  JsNumber.isDouble (Team.score tm) = true ->
  JsNumber.ltb (Team.score tm) 0 = false ->
  JsNumber.isDouble (Team.score (snd (Team.runAll calls h tm))) = true /\
  JsNumber.ltb (Team.score (snd (Team.runAll calls h tm))) 0 = false.
Proof.
  induction calls as [| [now o] calls IH]; intros h tm Hc Hd H0; simpl;
    [split; assumption |].
  apply Forall_cons in Hc as [Ho Hc]. simpl in Ho.
  pose proof (Team_run_score_kept now o h tm Ho Hd H0) as (Hd' & H0' & _).
  destruct (final (Team.run now o h tm)) as [h' tm']. simpl in Hd', H0'.
  now apply IH.
Qed.

(** C7, as the code has it. [addScore(points)] throws when [points < 0]
    and otherwise makes the score the sum of the score and [points], as
    doubles add: [NaN] is not below 0, so it is accepted and the score
    becomes [NaN]; integers add exactly as long as the sum is at most
    [2 ^ 53]. [resetScore()] sets the score to 0. A call other than
    [resetScore()] does not lower a score that is not below 0, and the
    score of a team never gets below 0, whatever the sequence of calls
    since its construction. The numbers given are doubles, as every
    JavaScript number is. *)
Theorem Team_score_law :
  (forall now points tm, JsNumber.ltb points 0 = true ->
     Team.addScore now points tm = inl (Error "Score cannot be negative")) /\
  (forall now points tm, JsNumber.ltb points 0 = false ->
     exists tm', Team.addScore now points tm = inr tm' /\
                 Team.score tm' = JsNumber.add (Team.score tm) points) /\
  (forall now tm,
     exists tm', Team.addScore now JsNumber.NaN tm = inr tm' /\
                 Team.score tm' = JsNumber.NaN) /\
  (forall now (a b : Z) tm,
     0 <= a -> 0 <= b -> a + b <= 2 ^ 53 ->
     Team.score tm = JsNumber.ofZ a ->
     exists tm', Team.addScore now (JsNumber.ofZ b) tm = inr tm' /\
                 Team.score tm' = JsNumber.ofZ (a + b)) /\
  (forall now h tm, Team.score (snd (final (Team.run now Team.ResetScore h tm))) = 0) /\
  (forall now o h tm,
     o <> Team.ResetScore -> Team.numeric o ->
     JsNumber.isDouble (Team.score tm) = true ->
     JsNumber.ltb (Team.score tm) 0 = false ->
     JsNumber.ltb (Team.score (snd (final (Team.run now o h tm))))
                  (Team.score tm) = false) /\
  (forall now rnd id name color tm calls h,
     Team.new now rnd id name color = inr tm ->
     Forall (fun c => Team.numeric (snd c)) calls ->
     JsNumber.ltb (Team.score (snd (Team.runAll calls h tm))) 0 = false).
Proof.
  split; [| split; [| split; [| split; [| split; [| split]]]]].
  - intros now points tm Hneg. unfold Team.addScore. now rewrite Hneg.
  - intros now points tm Hpos. unfold Team.addScore. rewrite Hpos.
    eexists; split; reflexivity.
  - intros now tm. unfold Team.addScore.
    eexists; split; [reflexivity |]. cbn [Team.score].
    now destruct (Team.score tm) as [[] | [] | | [] m e].
  - intros now a b tm Ha Hb Hab Hs. unfold Team.addScore.
    rewrite (ofZ_not_below b Hb).
    eexists; split; [reflexivity |]. cbn [Team.score].
    rewrite Hs. now apply add_ofZ.
  - reflexivity.
  - intros now o h tm Hne Ho Hd H0.
    now apply (Team_run_score_kept now o h tm Ho Hd H0).
  - intros now rnd id name color tm calls h Hnew Hc.
    apply Team_runAll_score_kept; [exact Hc | |];
      unfold Team.new in Hnew; (destruct (negb _); [discriminate |]);
      injection Hnew as <-; reflexivity.
Qed.

(** C7 as stated fails: [resetScore()] is a call of [Team] that lowers a
    positive score. *)
Lemma Team_resetScore_lowers_score :
  Team.new 1 0 "red" "Red" None = inr Scenario.team0 /\
  let '(h, tm) := Team.runAll [(2, Team.AddScore 5)] [] Scenario.team0 in
  Team.score tm = 5 /\
  Team.score (snd (final (Team.run 3 Team.ResetScore h tm))) = 0 /\
  JsNumber.ltb (Team.score (snd (final (Team.run 3 Team.ResetScore h tm))))
               (Team.score tm) = true.
Proof. vm_compute. repeat split; congruence. Qed.

(** ** Game: the choice of the drawer *)

Lemma findIndex_position {A} (f : A -> bool) (l : list A) :
  Game.findIndex f l =
  match Spec.position f l with Some i => Z.of_nat i | None => -1 end.
Proof.
  induction l as [| x l IH]; simpl; [reflexivity |].
  destruct (f x); [reflexivity |].
  rewrite IH. destruct (Spec.position f l) as [i |]; simpl; [| reflexivity].
  destruct (Z.eqb_spec (Z.of_nat i) (-1)); lia.
Qed.

Lemma position_lt {A} (f : A -> bool) (l : list A) i :
  Spec.position f l = Some i -> (i < List.length l)%nat.
Proof.
  revert i. induction l as [| x l IH]; simpl; intros i; [discriminate |].
  destruct (f x).
  - intros [= <-]. lia.
  - destruct (Spec.position f l) as [j |]; simpl; [| discriminate].
    intros [= <-]. specialize (IH j eq_refl). lia.
Qed.

(** The index arithmetic of [_selectNextDrawer] is the round-robin rule. *)
Lemma nextIndex_roundRobin (first : loc) (rest : list loc) (previous : option nat) :
  let active := first :: rest in
  let currentIndex := match previous with Some i => Z.of_nat i | None => -1 end in
  Some (nth (Z.to_nat (Z.rem (currentIndex + 1) (Z.of_nat (List.length active))))
            active first)
  = Spec.roundRobin active previous.
Proof.
  intros active currentIndex.
  assert (Hlen : (0 < List.length active)%nat) by (simpl; lia).
  assert (Hnth : forall n, (n < List.length active)%nat ->
                           Some (nth n active first) = active !! n).
  { intros n Hn. rewrite nth_lookup.
    destruct (lookup_lt_is_Some_2 active n Hn) as [d ->]. reflexivity. }
  unfold Spec.roundRobin, currentIndex. destruct previous as [i |].
  - rewrite Z.rem_mod_nonneg by lia.
    replace (Z.of_nat i + 1) with (Z.of_nat (i + 1)) by lia.
    rewrite <- Nat2Z.inj_mod, Nat2Z.id.
    apply Hnth, Nat.mod_upper_bound. lia.
  - replace (-1 + 1) with 0 by lia. rewrite Z.rem_0_l by lia.
    apply (Hnth 0%nat Hlen).
Qed.

(** [_selectNextDrawer] sets the drawer [selected] names, and marks that
    player as drawing. *)
Lemma selectNextDrawer_spec now h g :
  Game._selectNextDrawer now h g =
  (match selected h g with
   | Some d => Game.markDrawing now h d
   | None => h
   end,
   Game.with_currentDrawer (selected h g) g).
Proof.
  unfold Game._selectNextDrawer, selected.
  destruct (Game.activePlayers h g) as [| first rest] eqn:E.
  - destruct (Spec.position _ _); reflexivity.
  - rewrite findIndex_position.
    pose proof (nextIndex_roundRobin first rest
                  (Spec.position (Game.isDrawer h g) (first :: rest))) as H.
    cbv zeta in H. rewrite <- H. reflexivity.
Qed.

(** The players [_selectNextDrawer] runs over: those of the game whose team
    reference is a non-empty id that is the key of a team of the game. *)
Lemma activePlayers_spec h g l :
  In l (Game.activePlayers h g) <->
  In l (Game.players g) /\
  exists p tid, h !! l = Some p /\ Player.teamId p = Some tid /\
                tid <> "" /\ JsMap.has tid (Game._teams g) = true.
Proof.
  unfold Game.activePlayers, Game.onExistingTeam. rewrite filter_In.
  split; intros [HIn H]; (split; [exact HIn |]).
  - destruct (h !! l) as [p |]; [| discriminate].
    destruct (Player.teamId p) as [tid |] eqn:E; [| discriminate].
    apply andb_prop in H as [Ht Hhas]. simpl in Ht.
    exists p, tid.
    split; [reflexivity |]. split; [exact E |].
    split; [now apply truthy_nonempty | exact Hhas].
  - destruct H as (p & tid & -> & -> & Hne & Hhas). simpl.
    apply truthy_nonempty in Hne. now rewrite Hne, Hhas.
Qed.

Lemma allTeamsReady_spec h g :
  Game._allTeamsReady h g = true <->
  forall tid team, In (tid, team) (Game._teams g) -> Spec.teamReady h team.
Proof.
  unfold Game._allTeamsReady, JsMap.values. rewrite forallb_forall. split.
  - intros H tid team HIn. apply isReady_teamReady, H.
    apply in_map_iff. exists (tid, team). auto.
  - intros H team [[tid team'] [<- HIn]]%in_map_iff.
    apply isReady_teamReady. eauto.
Qed.

(** ** Game: rounds *)

Lemma isPlaying_spec s : Game.isPlaying s = true <-> s = playing.
Proof. destruct s; simpl; split; congruence. Qed.

(** One call of [nextRound()] in a game that is playing. *)
Lemma nextRound_playing now h g :
  Game.gameState g = playing ->
  Game.nextRound now h g =
  if Game.maxRounds g <? Game.currentRound g + 1 then
    Return (h, Game.endGame now
                 (Game.with_currentRound (Game.currentRound g + 1) g)) tt
  else
    let g1 := Game.with_currentRound (Game.currentRound g + 1) g in
    Return (match selected h g with
            | Some d => Game.markDrawing now h d
            | None => h
            end,
            Game._updateActivity now
              (Game.with_currentDrawer (selected h g) g1)) tt.
Proof.
  intros Hp. unfold Game.nextRound. rewrite Hp. simpl.
  destruct (_ <? _); [reflexivity |].
  rewrite selectNextDrawer_spec. reflexivity.
Qed.

(** As long as the limit is not crossed, [n] calls of [nextRound()]
    return, the game keeps playing and the round has moved up by [n]. *)
Lemma nextRounds_playing nows : forall h g,
  Game.gameState g = playing ->
  Game.currentRound g + Z.of_nat (List.length nows) <= Game.maxRounds g ->
  exists h' g',
    Game.nextRounds nows h g = Return (h', g') tt /\
    Game.gameState g' = playing /\
    Game.currentRound g' = Game.currentRound g + Z.of_nat (List.length nows) /\
    Game.maxRounds g' = Game.maxRounds g.
Proof.
  induction nows as [| now nows IH]; intros h g Hp Hle.
  - exists h, g. simpl. repeat split; try assumption; lia.
  - simpl List.length in *. simpl Game.nextRounds.
    rewrite (nextRound_playing now h g Hp).
    destruct (Z.ltb_spec (Game.maxRounds g) (Game.currentRound g + 1)); [lia |].
    cbv zeta.
    match goal with
    | |- context [Return (?h1, ?g1) tt] =>
        destruct (IH h1 g1) as (h' & g' & Hrun & Hp' & Hr' & Hm');
        [exact Hp | simpl; lia |]
    end.
    exists h', g'. simpl in Hr', Hm'. repeat split; [exact Hrun | exact Hp' | lia | exact Hm'].
Qed.

(** ** Game: teams and players *)

Lemma get_filter_keys {V} (keep : string -> bool) (m : list (string * V)) k :
  JsMap.get k (List.filter (fun kv => keep (fst kv)) m) =
  if keep k then JsMap.get k m else None.
Proof.
  induction m as [| [k' v] m IH]; simpl; [now destruct (keep k) |].
  destruct (keep k') eqn:Hk'; simpl.
  - destruct (String.eqb_spec k k') as [-> | Hne]; [now rewrite Hk' | exact IH].
  - rewrite IH. destruct (String.eqb_spec k k') as [-> | Hne]; [now rewrite Hk' | reflexivity].
Qed.

(** C9. [removeTeam(id)] of a team of the game returns; the players left
    in the game's collection are, in their order, those whose id is not
    the id of a player of the removed team; the team is gone from the
    team collection and every other team is as before. Player objects are
    not written to. [removeTeam] of an id that is not a team throws and
    leaves the game as it was. Players are identified by their id, the key
    of both collections. *)
Theorem Game_removeTeam_spec (now : Z) (teamId : string) (h : heap) (g : Game.t) :
  (JsMap.get teamId (Game._teams g) = None ->
   Game.removeTeam now teamId h g = Throw g (Error "Team not found")) /\
  (forall team,
     JsMap.get teamId (Game._teams g) = Some team ->
     exists g',
       Game.removeTeam now teamId h g = Return g' tt /\
       Game._players g' =
         List.filter (fun kv => negb (existsb (String.eqb (fst kv)) (Game.memberIds h team)))
                     (Game._players g) /\
       (forall k, JsMap.get k (Game._players g') =
                  if existsb (String.eqb k) (Game.memberIds h team) then None
                  else JsMap.get k (Game._players g)) /\
       Game._teams g' = JsMap.delete teamId (Game._teams g) /\
       JsMap.get teamId (Game._teams g') = None /\
       (forall k, k <> teamId ->
                  JsMap.get k (Game._teams g') = JsMap.get k (Game._teams g))).
Proof.
  unfold Game.removeTeam. split.
  - intros ->. reflexivity.
  - intros team ->. eexists. split; [reflexivity |]. simpl.
    rewrite delete_all. repeat split.
    + intros k.
      rewrite (get_filter_keys
                 (fun k => negb (existsb (String.eqb k) (Game.memberIds h team)))).
      now destruct (existsb _ _).
    + apply get_delete_eq.
    + intros k Hne. apply get_delete_ne. congruence.
Qed.

(** C10. [addPlayer(id, name, t)] with an id that is not taken and a
    team id [t] that is not a team of the game: when the id or the name
    is empty it throws, as the constructor of every entity does, and the
    game is as it was; otherwise it returns: the new player object is in
    the game's collection under its id, its team reference is [t], the
    teams and their collections are as before and, where the references
    of the game lead to objects of the store, no team holds the new
    object. *)
Theorem Game_addPlayer_dangling_team
        (now : Z) (playerId playerName t : string) (h : heap) (g : Game.t) :
  JsMap.has t (Game._teams g) = false ->
  JsMap.has playerId (Game._players g) = false ->
  (playerId = "" \/ playerName = "" ->
   Game.addPlayer now playerId playerName (Some t) h g
   = Throw (h, g) (Error "Entity requires both id and name")) /\
  (playerId <> "" -> playerName <> "" ->
   exists p g',
     Game.addPlayer now playerId playerName (Some t) h g
       = Return ((h ++ [p])%list, g') (List.length h) /\
     (h ++ [p])%list !! List.length h = Some p /\
     Player.id p = playerId /\
     Player.name p = playerName /\
     Player.teamId p = Some t /\
     JsMap.get playerId (Game._players g') = Some (List.length h) /\
     Game._teams g' = Game._teams g /\
     (Game.refsValid h g ->
      forall tid team k l,
        In (tid, team) (Game._teams g') -> In (k, l) (Team._players team) ->
        l <> List.length h)).
Proof.
  intros Hteam Hfresh. split.
  - intros Hempty. unfold Game.addPlayer, Player.new, Entity.accepts.
    rewrite Hfresh.
    destruct Hempty as [-> | ->]; [reflexivity |].
    now destruct (JsString.truthy playerId).
  - intros Hid Hname.
    unfold Game.addPlayer, Player.new, Entity.accepts.
    rewrite Hfresh.
    apply truthy_nonempty in Hid. apply truthy_nonempty in Hname.
    rewrite Hid, Hname. simpl negb. cbv iota.
    exists (Player.mk playerId playerName now (Some t) 0 false false now),
           (Game._updateActivity now
              (Game.with_players
                 (JsMap.set playerId (List.length h) (Game._players g)) g)).
    apply has_false_get in Hteam.
    split.
    { destruct (truthyId (Some t)); [simpl Game._teams; rewrite Hteam |]; reflexivity. }
    simpl.
    split; [rewrite lookup_app_r by reflexivity; now rewrite Nat.sub_diag |].
    split; [reflexivity |]. split; [reflexivity |]. split; [reflexivity |].
    split; [apply get_set_eq |]. split; [reflexivity |].
    intros (_ & Hrefs & _) tid team k l HIn HIn' ->.
    specialize (Hrefs tid team HIn k _ HIn'). lia.
Qed.

(** C10 as stated fails: with an empty name the call throws, although the
    id is free and the team id is not a team of the game. *)
Lemma Game_addPlayer_empty_name :
  JsMap.has "green" (Game._teams (snd Scenario.lobby)) = false /\
  JsMap.has "d" (Game._players (snd Scenario.lobby)) = false /\
  Game.addPlayer 9 "d" "" (Some "green") (fst Scenario.lobby) (snd Scenario.lobby)
  = Throw (fst Scenario.lobby, snd Scenario.lobby)
          (Error "Entity requires both id and name").
Proof. vm_compute. repeat split. Qed.

(** ** Game: the limit on rounds *)

Lemma Game_reachable_runAll calls : forall h g,
  Game.reachable h g ->
  Game.reachable (fst (Game.runAll calls h g)) (snd (Game.runAll calls h g)).
Proof.
  induction calls as [| [now o] calls IH]; intros h g Hr; simpl; [exact Hr |].
  destruct (final (Game.run now o h g)) as [h' g'] eqn:E.
  apply IH. exact (Game.reach_run now o h g h' g' Hr E).
Qed.

(** The calls that do not touch the state, the round or the maximum. *)
Lemma Game_addPlayer_roundView now k n tid h g :
  Game.roundView (snd (final (Game.addPlayer now k n tid h g))) = Game.roundView g.
Proof.
  unfold Game.addPlayer.
  destruct (JsMap.has k _); [reflexivity |].
  destruct (Player.new _ _ _ _); [reflexivity |].
  destruct (if truthyId tid then tid else None); [| reflexivity].
  destruct (JsMap.get _ _); [| reflexivity].
  destruct (Team.addPlayer _ _ _ _) as [[h2 tm'] [] | [h2 tm'] e]; reflexivity.
Qed.

Lemma Game_removePlayer_roundView now k h g :
  Game.roundView (snd (final (Game.removePlayer now k h g))) = Game.roundView g.
Proof.
  unfold Game.removePlayer.
  destruct (JsMap.get k _) as [l |]; [| reflexivity].
  destruct (match h !! l with Some _ => _ | None => _ end); [| reflexivity].
  destruct (JsMap.get _ _); [| reflexivity].
  destruct (Team.removePlayer _ _ _ _) as [[h2 tm'] [] | [h2 tm'] e]; reflexivity.
Qed.

Lemma Game_run_roundView now o h g :
  match o with
  | Game.StartGame | Game.PauseGame | Game.ResumeGame
  | Game.EndGame | Game.NextRound => True
  | _ => Game.roundView (snd (final (Game.run now o h g))) = Game.roundView g
  end.
Proof.
  destruct o as [| | | | | w | n | rnd tid tn c | tid | k n tid | k | k n tid
                 | l po | tid teamOp]; simpl; trivial.
  - destruct w as [| | b | z | w |]; simpl; try reflexivity.
    destruct (negb _); reflexivity.
  - unfold Game.updateName. destruct (Entity._validateName n); reflexivity.
  - unfold Game.createTeam.
    destruct (JsMap.has tid _); [reflexivity |].
    destruct (_ <=? _); [reflexivity |].
    destruct (Team.new _ _ _ _ _); reflexivity.
  - unfold Game.removeTeam. destruct (JsMap.get tid _); reflexivity.
  - rewrite <- (Game_addPlayer_roundView now k n tid h g).
    destruct (Game.addPlayer now k n tid h g); reflexivity.
  - apply Game_removePlayer_roundView.
  - destruct (Player.new _ _ _ _); reflexivity.
  - destruct (h !! l); [| reflexivity].
    destruct (Player.run _ _ _); reflexivity.
  - destruct (JsMap.get tid _); [| reflexivity].
    destruct (Team.run _ _ _ _) as [[h' tm'] [] | [h' tm'] e]; reflexivity.
Qed.

Lemma roundBounded_view g g' :
  Game.roundView g' = Game.roundView g -> Game.roundBounded g -> Game.roundBounded g'.
Proof.
  unfold Game.roundView, Game.roundBounded. intros [= -> -> ->]. trivial.
Qed.

Lemma Game_run_roundBounded now o h g :
  Game.roundBounded g -> Game.roundBounded (snd (final (Game.run now o h g))).
Proof.
  intros Hb.
  pose proof (Game_run_roundView now o h g) as Hview.
  destruct o; try (eapply roundBounded_view; [exact Hview | exact Hb]); clear Hview;
    destruct Hb as (Hr & Hm & Hf); unfold Game.roundBounded; simpl.
  - (* startGame *)
    unfold Game.startGame.
    destruct (_ <? 2); [simpl; auto |].
    destruct (negb _); [simpl; auto |].
    rewrite selectNextDrawer_spec. simpl. repeat split; try lia.
  - (* pauseGame *)
    unfold Game.pauseGame.
    destruct (Game.gameState g) eqn:E; simpl; rewrite ?E; repeat split; try lia; auto.
    intros Hover. specialize (Hf Hover). discriminate.
  - (* resumeGame *)
    unfold Game.resumeGame.
    destruct (Game.gameState g) eqn:E; simpl; rewrite ?E; repeat split; try lia; auto.
    intros Hover. specialize (Hf Hover). discriminate.
  - (* endGame *)
    repeat split; try lia.
  - (* nextRound *)
    destruct (Game.gameState g) eqn:E;
      try (unfold Game.nextRound; rewrite E; simpl; rewrite ?E; repeat split; try lia; auto; fail).
    rewrite (nextRound_playing now h g E).
    assert (Game.currentRound g <= Game.maxRounds g).
    { destruct (Z.le_gt_cases (Game.currentRound g) (Game.maxRounds g)) as [H | H]; [exact H |].
      specialize (Hf H). discriminate. }
    destruct (Z.ltb_spec (Game.maxRounds g) (Game.currentRound g + 1)); simpl;
      repeat split; try lia; auto.
Qed.

Lemma Game_reachable_roundBounded h g : Game.reachable h g -> Game.roundBounded g.
Proof.
  induction 1 as [now id name mt mp g Hnew | now o h g h' g' _ IH Hrun].
  - unfold Game.new in Hnew. destruct (negb _); [discriminate |].
    injection Hnew as <-. unfold Game.roundBounded. simpl. repeat split; try lia.
  - pose proof (Game_run_roundBounded now o h g IH) as Hb.
    rewrite Hrun in Hb. exact Hb.
Qed.

(** C4, as the code has it. In every state a game reaches from its
    construction by public calls, the round is at most one more than the
    maximum, and whenever it is more than the maximum the game is
    finished: in a game that is not finished the round does not exceed
    the maximum. *)
Theorem Game_round_limit (h : heap) (g : Game.t) :
  Game.reachable h g ->
  Game.currentRound g <= Game.maxRounds g + 1 /\
  (Game.maxRounds g < Game.currentRound g -> Game.gameState g = finished) /\
  (Game.gameState g <> finished -> Game.currentRound g <= Game.maxRounds g).
Proof.
  intros Hr. destruct (Game_reachable_roundBounded h g Hr) as (Hb & _ & Hf).
  repeat split; [lia | exact Hf |].
  intros Hnf. destruct (Z.le_gt_cases (Game.currentRound g) (Game.maxRounds g)) as [H | H];
    [exact H | exfalso; apply Hnf, Hf; lia].
Qed.

Lemma Scenario_game0_reachable : Game.reachable [] Scenario.game0.
Proof. exact (Game.reach_new 0 "game-1" "Pictionary Night" 4 6 _ eq_refl). Qed.

Lemma Scenario_ended_reachable :
  Game.reachable (fst Scenario.ended) (snd Scenario.ended).
Proof.
  unfold Scenario.ended, Scenario.started, Scenario.lobby.
  do 3 apply Game_reachable_runAll. exact Scenario_game0_reachable.
Qed.

(** C4 as stated fails: after the start and ten calls of [nextRound()]
    the round is 11 in a game of 10 rounds. *)
Lemma Game_round_exceeds_maxRounds :
  Game.reachable (fst Scenario.ended) (snd Scenario.ended) /\
  Game.currentRound (snd Scenario.ended) = 11 /\
  Game.maxRounds (snd Scenario.ended) = 10 /\
  ~ (Game.currentRound (snd Scenario.ended) <= Game.maxRounds (snd Scenario.ended)).
Proof.
  split; [exact Scenario_ended_reachable |].
  vm_compute. repeat split; congruence.
Qed.

Lemma Game_round_limit_witness :
  Game.currentRound (snd Scenario.ended) <= Game.maxRounds (snd Scenario.ended) + 1 /\
  (Game.maxRounds (snd Scenario.ended) < Game.currentRound (snd Scenario.ended) ->
   Game.gameState (snd Scenario.ended) = finished) /\
  (Game.gameState (snd Scenario.ended) <> finished ->
   Game.currentRound (snd Scenario.ended) <= Game.maxRounds (snd Scenario.ended)).
Proof.
  apply (Game_round_limit (fst Scenario.ended)).
  unfold Scenario.ended, Scenario.started, Scenario.lobby.
  do 3 apply Game_reachable_runAll.
  exact (Game.reach_new 0 "game-1" "Pictionary Night" 4 6 _ eq_refl).
Defined.

(** ** GameService: creating a game *)

Lemma Game_new_ok now id name mt mp :
  id <> "" -> name <> "" ->
  Game.new now id name mt mp =
  inr (Game.mk id name now [] [] mt mp waiting 0 10 60 None None
               (Game.mkSettings true true true) None).
Proof.
  intros Hid Hname. unfold Game.new, Entity.accepts.
  apply truthy_nonempty in Hid. apply truthy_nonempty in Hname.
  now rewrite Hid, Hname.
Qed.

(** C1, as the code has it. In an initialized service, [createGame]
    throws the already-in-progress error whenever a game is active,
    whatever the name; with no game active it throws the name-required
    error when the name is empty or not a string, and the must-be-unique
    error when the trimmed, lower-cased name is in the set; otherwise,
    with [null] options it throws a [TypeError], with a name of white
    space only the [Entity] constructor throws, both leaving the service
    as it was, and in every other case the normalized name is added to the
    set and the new game, named by the trimmed name, is stored as the
    active game and returned. *)
Theorem GameService_createGame_spec
        (now : Z) (uuid : string) (gameName : JsValue) (options : optionsArg)
        (s : GameService.t) :
  GameService._isInitialized s = true ->
  uuid <> "" ->
  (forall g0, GameService._currentGame s = Some g0 ->
     GameService.createGame now uuid gameName options s =
     Throw s (Error "A game is already in progress. Only one game instance allowed.")) /\
  (GameService._currentGame s = None ->
   (notNonEmptyString gameName = true ->
      GameService.createGame now uuid gameName options s =
      Throw s (Error "Valid game name is required")) /\
   (forall n, gameName = JsStr n -> n <> "" ->
      (GameService.normalize n ∈ GameService._uniqueNames s ->
         GameService.createGame now uuid gameName options s =
         Throw s (Error "Game name must be unique")) /\
      (GameService.normalize n ∉ GameService._uniqueNames s ->
         options = OptNull ->
         exists e, GameService.createGame now uuid gameName options s =
                   Throw s (TypeError e)) /\
      (GameService.normalize n ∉ GameService._uniqueNames s ->
         options <> OptNull -> JsString.trim n = "" ->
         GameService.createGame now uuid gameName options s =
         Throw s (Error "Entity requires both id and name")) /\
      (GameService.normalize n ∉ GameService._uniqueNames s ->
         options <> OptNull -> JsString.trim n <> "" ->
         exists g,
           GameService.createGame now uuid gameName options s =
           Return (GameService.mk (Some g) (GameService._gameHistory s)
                     ({[GameService.normalize n]} ∪ GameService._uniqueNames s)
                     true) g /\
           Game.id g = uuid /\ Game.name g = JsString.trim n /\
           Game.gameState g = waiting /\ Game.currentRound g = 0 /\
           Game._teams g = [] /\ Game._players g = []))).
Proof.
  intros Hinit Huuid. unfold GameService.createGame. rewrite Hinit. simpl negb. cbv iota.
  split.
  { intros g0 ->. reflexivity. }
  intros ->. split.
  { destruct gameName as [| | b | z | n |]; simpl; try reflexivity.
    intros ->. reflexivity. }
  intros n -> Hn. apply truthy_nonempty in Hn. rewrite Hn. simpl negb. cbv iota.
  split; [| split; [| split]].
  - intros HIn. now rewrite bool_decide_eq_true_2.
  - intros Hnot ->. rewrite bool_decide_eq_false_2 by assumption. eauto.
  - intros Hnot Hopt Htrim. rewrite bool_decide_eq_false_2 by assumption.
    unfold Game.new, Entity.accepts. rewrite Htrim. simpl.
    rewrite andb_false_r. simpl.
    destruct options as [| | mt mp]; [reflexivity | contradiction | reflexivity].
  - intros Hnot Hopt Htrim. rewrite bool_decide_eq_false_2 by assumption.
    destruct options as [| | mt mp]; [| contradiction |];
      rewrite (Game_new_ok _ _ _ _ _ Huuid Htrim);
      (eexists; split; [reflexivity | repeat split]).
Qed.

(** C1 as stated fails: a name of white space only is a non-empty
    string that is not in the set, and [createGame] throws instead of
    returning a game. *)
Lemma GameService_createGame_blank_name :
  GameService._isInitialized Scenario.service0 = true /\
  GameService._currentGame Scenario.service0 = None /\
  notNonEmptyString (JsStr "   ") = false /\
  (GameService.normalize "   " ∉ GameService._uniqueNames Scenario.service0) /\
  GameService.createGame 1 "game-1" (JsStr "   ") OptUndefined Scenario.service0
  = Throw Scenario.service0 (Error "Entity requires both id and name").
Proof.
  split; [reflexivity |]. split; [reflexivity |]. split; [reflexivity |].
  split.
  - unfold Scenario.service0. simpl. set_solver.
  - unfold GameService.createGame, Scenario.service0. simpl.
    rewrite bool_decide_eq_false_2 by set_solver. reflexivity.
Qed.

Lemma GameService_createGame_witness :
  GameService._isInitialized Scenario.service0 = true /\
  "game-1" <> "" /\
  exists g,
    GameService.createGame 1 "game-1" (JsStr "Pictionary Night") OptUndefined
                           Scenario.service0
    = Return (GameService.mk (Some g) []
                ({[GameService.normalize "Pictionary Night"]} ∪ ∅) true) g /\
    Game.name g = "Pictionary Night".
Proof.
  assert (Hi : GameService._isInitialized Scenario.service0 = true) by reflexivity.
  assert (Hu : "game-1" <> "") by discriminate.
  split; [exact Hi |]. split; [exact Hu |].
  destruct (GameService_createGame_spec 1 "game-1" (JsStr "Pictionary Night")
              OptUndefined Scenario.service0 Hi Hu) as [_ H].
  destruct (H eq_refl) as [_ H2].
  destruct (H2 _ eq_refl ltac:(discriminate)) as (_ & _ & _ & H3).
  destruct H3 as (g & Hg & _ & Hname & _);
    [unfold Scenario.service0; simpl; set_solver | discriminate
    | vm_compute; discriminate |].
  exists g. split; [exact Hg | exact Hname].
Defined.

(** ** GameService: ending a game *)

Lemma Game_addPlayer_name now k n tid h g :
  Game.name (snd (final (Game.addPlayer now k n tid h g))) = Game.name g.
Proof.
  unfold Game.addPlayer.
  destruct (JsMap.has k _); [reflexivity |].
  destruct (Player.new _ _ _ _); [reflexivity |].
  destruct (if truthyId tid then tid else None); [| reflexivity].
  destruct (JsMap.get _ _); [| reflexivity].
  destruct (Team.addPlayer _ _ _ _) as [[h2 tm'] [] | [h2 tm'] e]; reflexivity.
Qed.

Lemma Game_removePlayer_name now k h g :
  Game.name (snd (final (Game.removePlayer now k h g))) = Game.name g.
Proof.
  unfold Game.removePlayer.
  destruct (JsMap.get k _) as [l |]; [| reflexivity].
  destruct (match h !! l with Some _ => _ | None => _ end); [| reflexivity].
  destruct (JsMap.get _ _); [| reflexivity].
  destruct (Team.removePlayer _ _ _ _) as [[h2 tm'] [] | [h2 tm'] e]; reflexivity.
Qed.

(** A call leaves the name of the game alone, or sets it to a trimmed
    string. *)
Lemma Game_run_name now o h g :
  let g' := snd (final (Game.run now o h g)) in
  Game.name g' = Game.name g \/ exists n, Game.name g' = JsString.trim n.
Proof.
  destruct o as [| | | | | w | n | rnd tid tn c | tid | k n tid | k | k n tid
                 | l po | tid teamOp]; simpl.
  - unfold Game.startGame.
    destruct (_ <? 2); [now left |]. destruct (negb _); [now left |].
    rewrite selectNextDrawer_spec. now left.
  - unfold Game.pauseGame. destruct (Game.isPlaying _); now left.
  - unfold Game.resumeGame. destruct (Game.isPaused _); now left.
  - now left.
  - unfold Game.nextRound. destruct (negb _); [now left |].
    destruct (_ <? _); [now left |]. rewrite selectNextDrawer_spec. now left.
  - destruct w as [| | b | z | w |]; simpl; try (now left).
    destruct (negb _); now left.
  - unfold Game.updateName, Entity._validateName.
    destruct (negb _); [now left |]. destruct (_ || _); [now left |].
    right. now exists n.
  - unfold Game.createTeam.
    destruct (JsMap.has tid _); [now left |].
    destruct (_ <=? _); [now left |].
    destruct (Team.new _ _ _ _ _); now left.
  - unfold Game.removeTeam. destruct (JsMap.get tid _); now left.
  - left. rewrite <- (Game_addPlayer_name now k n tid h g).
    destruct (Game.addPlayer now k n tid h g); reflexivity.
  - left. apply Game_removePlayer_name.
  - destruct (Player.new _ _ _ _); now left.
  - destruct (h !! l); [| now left]. destruct (Player.run _ _ _); now left.
  - destruct (JsMap.get tid _); [| now left].
    destruct (Team.run _ _ _ _) as [[h' tm'] [] | [h' tm'] e]; now left.
Qed.

Lemma createGame_nameTrimmed now uuid gameName options s :
  GameService.nameTrimmed s ->
  GameService.nameTrimmed (final (GameService.createGame now uuid gameName options s)).
Proof.
  intros Hs. unfold GameService.createGame.
  destruct (negb _); [exact Hs |].
  destruct (GameService._currentGame s); [exact Hs |].
  destruct gameName as [| | b | z | n |]; try exact Hs.
  destruct (negb _); [exact Hs |].
  destruct (bool_decide _); [exact Hs |].
  destruct options as [| | mt mp]; try exact Hs;
    unfold Game.new; (destruct (negb _); [exact Hs |]);
    intros g [= <-]; apply trim_idempotent.
Qed.

Lemma GameService_run_nameTrimmed now c h s :
  GameService.nameTrimmed s ->
  GameService.nameTrimmed (snd (GameService.run now c h s)).
Proof.
  intros Hs. destruct c as [| | uuid n opts | | n | n | o]; simpl.
  - unfold GameService.initialize. destruct (GameService._isInitialized s); exact Hs.
  - intros g [=].
  - now apply createGame_nameTrimmed.
  - unfold GameService.endCurrentGame.
    destruct (GameService._currentGame s); [intros g [=] | exact Hs].
  - destruct n as [| | b | z | n |]; try exact Hs. simpl.
    destruct (negb _); [exact Hs |]. destruct (bool_decide _); exact Hs.
  - destruct n as [| | b | z | n |]; try exact Hs. simpl.
    destruct (negb _); exact Hs.
  - destruct (GameService._currentGame s) as [g |] eqn:E; [| exact Hs].
    pose proof (Game_run_name now o h g) as Hname. cbv zeta in Hname.
    destruct (final (Game.run now o h g)) as [h' g']. simpl in *.
    intros g'' [= <-].
    destruct Hname as [-> | [n ->]]; [now apply Hs | apply trim_idempotent].
Qed.

Lemma GameService_reachable_nameTrimmed h s :
  GameService.reachable h s -> GameService.nameTrimmed s.
Proof.
  induction 1 as [| now c h s h' s' _ IH Hrun].
  - intros g [=].
  - pose proof (GameService_run_nameTrimmed now c h s IH) as H.
    now rewrite Hrun in H.
Qed.

Lemma GameService_reachable_runAll calls : forall h s,
  GameService.reachable h s ->
  GameService.reachable (fst (GameService.runAll calls h s))
                        (snd (GameService.runAll calls h s)).
Proof.
  induction calls as [| [now c] calls IH]; intros h s Hr; simpl; [exact Hr |].
  destruct (GameService.run now c h s) as [h' s'] eqn:E.
  apply IH. exact (GameService.reach_run now c h s h' s' Hr E).
Qed.

(** C2. With no active game, [endCurrentGame()] returns nothing and
    leaves the service as it is: history, names and active slot. With an
    active game it returns that game, now finished; the history has grown
    by exactly one record, the snapshot of the ended game with the time
    of ending; the normalized name of the game is out of the set and the
    active slot is empty. *)
Theorem GameService_endCurrentGame_spec (now : Z) (h : heap) (s : GameService.t) :
  GameService.reachable h s ->
  (GameService._currentGame s = None ->
   GameService.endCurrentGame now h s = (s, None)) /\
  (forall g, GameService._currentGame s = Some g ->
     exists s' g',
       GameService.endCurrentGame now h s = (s', Some g') /\
       g' = Game.endGame now g /\
       Game.gameState g' = finished /\
       GameService._gameHistory s' =
         (GameService._gameHistory s
          ++ [GameService.mkArchived (Game.toJSON h g') now])%list /\
       List.length (GameService._gameHistory s') =
         S (List.length (GameService._gameHistory s)) /\
       GameService._uniqueNames s' =
         GameService._uniqueNames s ∖ {[GameService.normalize (Game.name g)]} /\
       GameService._currentGame s' = None /\
       GameService._isInitialized s' = GameService._isInitialized s).
Proof.
  intros Hr. unfold GameService.endCurrentGame. split.
  - intros ->. reflexivity.
  - intros g Hg. rewrite Hg. eexists _, _. split; [reflexivity |]. simpl.
    repeat split.
    + rewrite length_app. simpl. lia.
    + unfold GameService.normalize.
      now rewrite (GameService_reachable_nameTrimmed h s Hr g Hg).
Qed.

Lemma Scenario_night_reachable :
  GameService.reachable (fst Scenario.night) (snd Scenario.night).
Proof.
  unfold Scenario.night. apply GameService_reachable_runAll.
  exact GameService.reach_new.
Defined.

Lemma GameService_endCurrentGame_witness :
  GameService.reachable (fst Scenario.night) (snd Scenario.night) /\
  exists s' g',
    GameService.endCurrentGame 2 (fst Scenario.night) (snd Scenario.night)
      = (s', Some g') /\
    Game.gameState g' = finished /\
    List.length (GameService._gameHistory s') = 1%nat /\
    GameService._currentGame s' = None.
Proof.
  split; [exact Scenario_night_reachable |].
  destruct (GameService_endCurrentGame_spec 2 (fst Scenario.night)
              (snd Scenario.night) Scenario_night_reachable) as [_ H].
  destruct (H (Game.mk "game-1" "Pictionary Night" 1 [] [] 4 6 waiting 0 10 60
                       None None (Game.mkSettings true true true) None))
    as (s' & g' & Hend & _ & Hfin & _ & Hlen & _ & Hcur & _).
  - vm_compute. reflexivity.
  - exists s', g'. repeat split; assumption.
Defined.

(** ** GameService: unique names *)

(** A name the validator accepts has something left after trimming. *)
Lemma validName_trim n : Spec.validName n -> JsString.trim n <> "".
Proof.
  unfold Spec.validName, NameValidator.validateName, NameValidator.minLength.
  destruct (negb (JsString.truthy n)); [discriminate |].
  destruct (Z.ltb_spec (Z.of_nat (String.length (JsString.trim n))) 2) as [| Hlen];
    [discriminate |].
  intros _ E. rewrite E in Hlen. simpl in Hlen. lia.
Qed.

Lemma normalize_truthy n :
  JsString.truthy (GameService.normalize n) = true -> JsString.truthy n = true.
Proof.
  unfold GameService.normalize. rewrite toLowerCase_truthy. apply trim_truthy.
Qed.

Lemma isNameUnique_spec n s :
  JsString.truthy n = true ->
  GameService.isNameUnique (JsStr n) s =
  negb (bool_decide (GameService.normalize n ∈ GameService._uniqueNames s)).
Proof. intros Hn. simpl. now rewrite Hn. Qed.

(** Registering a name, whether it was free or taken, leaves its
    normalized form in the set. *)
Lemma registerUniqueName_names n s :
  JsString.truthy n = true ->
  GameService.normalize n
    ∈ GameService._uniqueNames (final (GameService.registerUniqueName (JsStr n) s)).
Proof.
  intros Hn. simpl. rewrite Hn. simpl.
  destruct (bool_decide _) eqn:E; simpl;
    [now apply bool_decide_eq_true in E | set_solver].
Qed.

Lemma unregisterUniqueName_names n s :
  JsString.truthy n = true ->
  GameService.normalize n
    ∉ GameService._uniqueNames (GameService.unregisterUniqueName (JsStr n) s).
Proof.
  intros Hn. simpl. rewrite Hn. simpl.
  rewrite elem_of_difference, elem_of_singleton. tauto.
Qed.

(** C6. Once a valid name [n] is registered, [isNameUnique] is false on
    every variant of [n] that differs only in the case of letters or in
    white space around it; once [n] is unregistered it is true on them
    again. And when [createGame] returns for a name, [isNameUnique] was
    true on that name before the call, is false on it while the game is
    active and is true again after [endCurrentGame()]. *)
Theorem GameService_name_uniqueness (s : GameService.t) (n v : string) :
  Spec.validName n ->
  JsString.variant n v ->
  let registered := final (GameService.registerUniqueName (JsStr n) s) in
  GameService.isNameUnique (JsStr v) registered = false /\
  GameService.isNameUnique (JsStr v)
    (GameService.unregisterUniqueName (JsStr n) registered) = true /\
  (forall now uuid options active g now' h,
     GameService.createGame now uuid (JsStr n) options s = Return active g ->
     GameService.isNameUnique (JsStr n) s = true /\
     GameService.isNameUnique (JsStr n) active = false /\
     GameService.isNameUnique (JsStr n)
       (fst (GameService.endCurrentGame now' h active)) = true).
Proof.
  intros Hvalid Hvar registered.
  pose proof (validName_trim n Hvalid) as Htrim.
  assert (Hn : JsString.truthy n = true)
    by (apply trim_truthy, truthy_nonempty, Htrim).
  pose proof (variant_normalize n v Hvar) as Hnorm.
  assert (Hv : JsString.truthy v = true).
  { apply normalize_truthy. rewrite Hnorm. unfold GameService.normalize.
    rewrite toLowerCase_truthy. now apply truthy_nonempty. }
  split; [| split].
  - rewrite (isNameUnique_spec v _ Hv), Hnorm.
    rewrite bool_decide_eq_true_2; [reflexivity |].
    now apply registerUniqueName_names.
  - rewrite (isNameUnique_spec v _ Hv), Hnorm.
    rewrite bool_decide_eq_false_2; [reflexivity |].
    now apply unregisterUniqueName_names.
  - intros now uuid options active g now' h Hcreate.
    rewrite !(isNameUnique_spec n _ Hn).
    unfold GameService.createGame in Hcreate.
    destruct (negb (GameService._isInitialized s)); [discriminate |].
    destruct (GameService._currentGame s); [discriminate |].
    rewrite Hn in Hcreate. simpl negb in Hcreate. cbv iota in Hcreate.
    destruct (decide (GameService.normalize n ∈ GameService._uniqueNames s))
      as [Hin | Hfree];
      [rewrite bool_decide_eq_true_2 in Hcreate by assumption; discriminate |].
    rewrite bool_decide_eq_false_2 in Hcreate by assumption.
    assert (Hg : exists mt mp,
               Game.new now uuid (JsString.trim n) mt mp = inr g /\
               active = GameService.mk (Some g) (GameService._gameHistory s)
                          ({[GameService.normalize n]} ∪ GameService._uniqueNames s)
                          (GameService._isInitialized s)).
    { destruct options as [| | mt mp]; [| discriminate |];
        simpl in Hcreate;
        match type of Hcreate with
        | context [Game.new ?a ?b ?c ?d ?e] =>
            destruct (Game.new a b c d e) as [e0 | g0] eqn:Enew; [discriminate |];
            injection Hcreate as <- <-; eauto
        end. }
    destruct Hg as (mt & mp & Hnew & ->).
    assert (Hname : Game.name g = JsString.trim n).
    { unfold Game.new in Hnew. destruct (negb _); [discriminate |].
      now injection Hnew as <-. }
    split; [now rewrite bool_decide_eq_false_2 |].
    split.
    + rewrite bool_decide_eq_true_2; [reflexivity |]. simpl. set_solver.
    + rewrite bool_decide_eq_false_2; [reflexivity |].
      unfold GameService.endCurrentGame. simpl. rewrite Hname.
      fold (GameService.normalize n).
      rewrite elem_of_difference, elem_of_singleton. tauto.
Qed.

Lemma Scenario_name_valid : Spec.validName "Pictionary Night".
Proof. reflexivity. Defined.

Lemma Scenario_name_variant :
  JsString.variant "Pictionary Night" "  PICTIONARY night ".
Proof.
  exists "", "", "Pictionary Night", "  ", " ", "PICTIONARY night".
  repeat split.
  repeat (constructor; [unfold JsString.same_letter; vm_compute; tauto |]).
  constructor.
Defined.

Lemma GameService_name_uniqueness_witness :
  Spec.validName "Pictionary Night" /\
  JsString.variant "Pictionary Night" "  PICTIONARY night " /\
  GameService.isNameUnique (JsStr "  PICTIONARY night ")
    (final (GameService.registerUniqueName (JsStr "Pictionary Night")
              Scenario.service0)) = false.
Proof.
  split; [exact Scenario_name_valid |]. split; [exact Scenario_name_variant |].
  exact (proj1 (GameService_name_uniqueness Scenario.service0 _ _
                  Scenario_name_valid Scenario_name_variant)).
Defined.

(** ** References stay valid *)

Lemma markDrawing_length now h d :
  List.length (Game.markDrawing now h d) = List.length h.
Proof.
  unfold Game.markDrawing. destruct (h !! d); [apply length_insert | reflexivity].
Qed.

Lemma Team_refsValid_grow h h' tm :
  (List.length h <= List.length h')%nat ->
  Team.refsValid h tm -> Team.refsValid h' tm.
Proof. intros Hle Hv k l HIn. specialize (Hv k l HIn). lia. Qed.

Lemma Team_addPlayer_refs now l h tm :
  Team.refsValid h tm ->
  List.length (fst (final (Team.addPlayer now l h tm))) = List.length h /\
  Team.refsValid h (snd (final (Team.addPlayer now l h tm))).
Proof.
  intros Hrefs. unfold Team.addPlayer.
  destruct (h !! l) as [p |] eqn:E; [| now split].
  destruct (negb _); [now split |].
  destruct (JsMap.has _ _); [now split |].
  assert (Hl : (l < List.length h)%nat) by (eapply lookup_lt_Some; exact E).
  assert (Hset : Team.refsValid h
            (Team.with_players (JsMap.set (Player.id p) l (Team._players tm)) tm)).
  { intros k' l' [[= -> ->] | HIn]%In_set; [exact Hl | eapply Hrefs; exact HIn]. }
  destruct (Player.joinTeam _ _ _); simpl; [now split |].
  split; [apply length_insert | exact Hset].
Qed.

Lemma Team_removePlayer_refs now k h tm :
  Team.refsValid h tm ->
  List.length (fst (final (Team.removePlayer now k h tm))) = List.length h /\
  Team.refsValid h (snd (final (Team.removePlayer now k h tm))).
Proof.
  intros Hrefs. unfold Team.removePlayer.
  destruct (JsMap.get k _) as [l |]; [| now split]. simpl. split.
  - destruct (h !! l); [apply length_insert | reflexivity].
  - intros k' l' HIn%In_delete. eapply Hrefs. exact HIn.
Qed.

(** A call on a team writes to player objects in place and keeps the
    references of the team valid. *)
Lemma Team_run_refs now o h tm :
  Team.refsValid h tm ->
  List.length (fst (final (Team.run now o h tm))) = List.length h /\
  Team.refsValid h (snd (final (Team.run now o h tm))).
Proof.
  intros Hrefs. destruct o as [l | k | points | | b | n]; simpl.
  - now apply Team_addPlayer_refs.
  - now apply Team_removePlayer_refs.
  - unfold Team.addScore. destruct (JsNumber.ltb points _); now split.
  - now split.
  - now split.
  - unfold Team.updateName. destruct (Entity._validateName n); now split.
Qed.

Lemma refsValid_grow h h' g :
  (List.length h <= List.length h')%nat -> Game.refsValid h g -> Game.refsValid h' g.
Proof.
  intros Hle (Hp & Ht & Hd). repeat split.
  - intros k l HIn. specialize (Hp k l HIn). lia.
  - intros tid team HIn. eapply Team_refsValid_grow; [exact Hle | eapply Ht; exact HIn].
  - intros d Hd'. specialize (Hd d Hd'). lia.
Qed.

(** A team of the game replaced by one whose references are valid. *)
Lemma refsValid_set_team h g tid tm :
  Game.refsValid h g -> Team.refsValid h tm ->
  Game.refsValid h (Game.with_teams (JsMap.set tid tm (Game._teams g)) g).
Proof.
  intros (Hp & Ht & Hd) Htm. repeat split; simpl; [exact Hp | | exact Hd].
  intros tid' team [[= -> ->] | HIn]%In_set; [exact Htm | eapply Ht; exact HIn].
Qed.

Lemma refsValid_team h g tid tm :
  Game.refsValid h g -> JsMap.get tid (Game._teams g) = Some tm -> Team.refsValid h tm.
Proof. intros (_ & Ht & _) Hget. eapply Ht. apply get_In. exact Hget. Qed.

Lemma nextDrawer_valid h g d :
  Game.refsValid h g -> selected h g = Some d -> (d < List.length h)%nat.
Proof.
  intros (Hp & _ & _) Hd.
  assert (HIn : In d (Game.activePlayers h g)).
  { unfold selected, Spec.roundRobin in Hd.
    apply list_elem_of_In.
    destruct (Spec.position _ _); eapply list_elem_of_lookup_2; exact Hd. }
  unfold Game.activePlayers, Game.players, JsMap.values in HIn.
  apply filter_In in HIn as [HIn _].
  apply in_map_iff in HIn as ([k l] & <- & HIn). eapply Hp. exact HIn.
Qed.

(** The drawer field does not matter to the other references. *)
Lemma refsValid_drawer h g d :
  Game.refsValid h g ->
  (forall l, d = Some l -> (l < List.length h)%nat) ->
  Game.refsValid h (Game.with_currentDrawer d g).
Proof. intros (Hp & Ht & _) Hd. repeat split; [exact Hp | exact Ht | exact Hd]. Qed.

Lemma selectNextDrawer_refs now h g :
  Game.refsValid h g ->
  List.length (fst (Game._selectNextDrawer now h g)) = List.length h /\
  Game.refsValid h (snd (Game._selectNextDrawer now h g)).
Proof.
  intros Hv. rewrite selectNextDrawer_spec. simpl. split.
  - destruct (selected h g); [apply markDrawing_length | reflexivity].
  - apply refsValid_drawer; [exact Hv |].
    intros l E. eapply nextDrawer_valid; [exact Hv | exact E].
Qed.

Lemma refsValid_players h g ps :
  Game.refsValid h g ->
  (forall k l, In (k, l) ps -> (l < List.length h)%nat) ->
  Game.refsValid h (Game.with_players ps g).
Proof. intros (_ & Ht & Hd) Hp. repeat split; [exact Hp | exact Ht | exact Hd]. Qed.

Lemma Game_startGame_refs now h g :
  Game.refsValid h g ->
  (List.length h <= List.length (fst (final (Game.startGame now h g))))%nat /\
  Game.refsValid (fst (final (Game.startGame now h g)))
                 (snd (final (Game.startGame now h g))).
Proof.
  intros Hv. unfold Game.startGame.
  destruct (_ <? 2); [now split |]. destruct (negb _); [now split |].
  pose proof (selectNextDrawer_refs now h
                (Game.with_currentRound 1 (Game.with_gameState playing g)) Hv)
    as [Hlen Hv'].
  destruct (Game._selectNextDrawer _ _ _) as [h2 g2]. simpl in *.
  split; [lia |]. eapply refsValid_grow; [| exact Hv']. lia.
Qed.

Lemma Game_nextRound_refs now h g :
  Game.refsValid h g ->
  (List.length h <= List.length (fst (final (Game.nextRound now h g))))%nat /\
  Game.refsValid (fst (final (Game.nextRound now h g)))
                 (snd (final (Game.nextRound now h g))).
Proof.
  intros Hv. unfold Game.nextRound.
  destruct (negb _); [now split |].
  destruct (_ <? _).
  - simpl. split; [lia |]. destruct Hv as (Hp & Ht & _).
    repeat split; [exact Hp | exact Ht | discriminate].
  - pose proof (selectNextDrawer_refs now h
                  (Game.with_currentRound (Game.currentRound g + 1) g) Hv)
      as [Hlen Hv'].
    destruct (Game._selectNextDrawer _ _ _) as [h2 g2]. simpl in *.
    split; [lia |]. eapply refsValid_grow; [| exact Hv']. lia.
Qed.

Lemma Game_removeTeam_refs now tid h g :
  Game.refsValid h g ->
  Game.refsValid h (final (Game.removeTeam now tid h g)).
Proof.
  intros Hv. unfold Game.removeTeam.
  destruct (JsMap.get tid _) as [team |]; [| exact Hv]. simpl.
  destruct Hv as (Hp & Ht & Hd). repeat split; simpl; [| | exact Hd].
  - intros k l HIn. rewrite delete_all in HIn.
    apply filter_In in HIn as [HIn _]. eapply Hp. exact HIn.
  - intros tid' team' HIn%In_delete. eapply Ht. exact HIn.
Qed.

Lemma Game_addPlayer_refs now k n tid h g :
  Game.refsValid h g ->
  (List.length h <= List.length (fst (final (Game.addPlayer now k n tid h g))))%nat /\
  Game.refsValid (fst (final (Game.addPlayer now k n tid h g)))
                 (snd (final (Game.addPlayer now k n tid h g))).
Proof.
  intros Hv. unfold Game.addPlayer.
  destruct (JsMap.has k _); [now split |].
  destruct (Player.new _ _ _ _) as [e | p]; [now split |].
  assert (Hlen1 : List.length (h ++ [p])%list = S (List.length h))
    by (rewrite length_app; simpl; lia).
  assert (Hv1 : Game.refsValid (h ++ [p])%list
            (Game.with_players (JsMap.set k (List.length h) (Game._players g)) g)).
  { apply refsValid_players; [eapply refsValid_grow; [| exact Hv]; lia |].
    intros k' l' [[= -> ->] | HIn]%In_set; [lia |].
    destruct Hv as (Hp & _). specialize (Hp k' l' HIn). lia. }
  destruct (if truthyId tid then tid else None) as [t |];
    [| cbn [fst snd final]; split; [lia | exact Hv1]].
  destruct (JsMap.get t _) as [team |] eqn:Eteam;
    [| cbn [fst snd final]; split; [lia | exact Hv1]].
  pose proof (refsValid_team _ _ _ _ Hv1 Eteam) as Hteam.
  pose proof (Team_addPlayer_refs now (List.length h) (h ++ [p])%list team Hteam)
    as [Hlen2 Hteam2].
  destruct (Team.addPlayer _ _ _ _) as [[h2 team'] [] | [h2 team'] e]; cbn [fst snd final] in *.
  - split; [lia |]. eapply refsValid_grow; [| apply refsValid_set_team; eassumption]. lia.
  - split; [lia |]. eapply refsValid_grow; [| apply refsValid_set_team; eassumption]. lia.
Qed.

Lemma Game_removePlayer_refs now k h g :
  Game.refsValid h g ->
  (List.length h <= List.length (fst (final (Game.removePlayer now k h g))))%nat /\
  Game.refsValid (fst (final (Game.removePlayer now k h g)))
                 (snd (final (Game.removePlayer now k h g))).
Proof.
  intros Hv. unfold Game.removePlayer.
  destruct (JsMap.get k _) as [l |]; [| now split].
  assert (Hfinish : forall h' g',
            (List.length h <= List.length h')%nat -> Game.refsValid h' g' ->
            (List.length h <= List.length h')%nat /\
            Game.refsValid h'
              (Game._updateActivity now
                 (Game.with_players (JsMap.delete k (Game._players g')) g'))).
  { intros h' g' Hle Hv'. split; [exact Hle |].
    apply (refsValid_players h' g'); [exact Hv' |].
    intros k' l' HIn%In_delete. destruct Hv' as (Hp & _). eapply Hp. exact HIn. }
  destruct (match h !! l with Some _ => _ | None => _ end) as [t |];
    [| now apply Hfinish].
  destruct (JsMap.get t _) as [team |] eqn:Eteam; [| now apply Hfinish].
  pose proof (refsValid_team _ _ _ _ Hv Eteam) as Hteam.
  pose proof (Team_removePlayer_refs now k h team Hteam) as [Hlen2 Hteam2].
  destruct (Team.removePlayer _ _ _ _) as [[h2 team'] [] | [h2 team'] e]; cbn [fst snd final] in *.
  - apply Hfinish; [lia |].
    eapply refsValid_grow; [| apply refsValid_set_team; eassumption]. lia.
  - split; [lia |].
    eapply refsValid_grow; [| apply refsValid_set_team; eassumption]. lia.
Qed.

(** Every public call keeps the references of the game valid and the
    objects of the store in place. *)
Lemma Game_run_refs now o h g :
  Game.refsValid h g ->
  (List.length h <= List.length (fst (final (Game.run now o h g))))%nat /\
  Game.refsValid (fst (final (Game.run now o h g)))
                 (snd (final (Game.run now o h g))).
Proof.
  intros Hv.
  destruct o as [| | | | | w | n | rnd tid tn c | tid | k n tid | k | k n tid
                 | l po | tid teamOp]; simpl.
  - now apply Game_startGame_refs.
  - split; [lia |]. unfold Game.pauseGame. destruct (Game.isPlaying _); exact Hv.
  - split; [lia |]. unfold Game.resumeGame. destruct (Game.isPaused _); exact Hv.
  - split; [lia |]. destruct Hv as (Hp & Ht & _).
    repeat split; [exact Hp | exact Ht | discriminate].
  - now apply Game_nextRound_refs.
  - split; [destruct (Game.setCurrentWord now w g); simpl; lia |].
    destruct w as [| | b | z | w |]; simpl; try exact Hv.
    destruct (negb _); exact Hv.
  - unfold Game.updateName. destruct (Entity._validateName n); simpl; now split.
  - unfold Game.createTeam.
    destruct (JsMap.has tid _); [now split |].
    destruct (_ <=? _); [now split |].
    destruct (Team.new _ _ _ _ _) as [e | team] eqn:Enew; [now split |].
    simpl. split; [lia |].
    apply (refsValid_set_team h g tid team Hv).
    unfold Team.new in Enew. destruct (negb _); [discriminate |].
    injection Enew as <-. intros k l [].
  - pose proof (Game_removeTeam_refs now tid h g Hv) as Hv'.
    destruct (Game.removeTeam now tid h g); cbn [fst snd final] in *; now split.
  - pose proof (Game_addPlayer_refs now k n tid h g Hv) as Hv'.
    destruct (Game.addPlayer now k n tid h g); exact Hv'.
  - now apply Game_removePlayer_refs.
  - destruct (Player.new _ _ _ _); simpl; [now split |].
    rewrite length_app. simpl. split; [lia |].
    eapply refsValid_grow; [| exact Hv]. rewrite length_app. lia.
  - destruct (h !! l); [| now split].
    destruct (Player.run _ _ _) as [p' [] | p' e]; cbn [fst snd final];
      assert (Hlen : List.length (<[l := p']> h) = List.length h)
        by apply length_insert;
      (split; [lia |]); (eapply refsValid_grow; [| exact Hv]); lia.
  - destruct (JsMap.get tid _) as [team |] eqn:Eteam; [| now split].
    pose proof (refsValid_team _ _ _ _ Hv Eteam) as Hteam.
    pose proof (Team_run_refs now teamOp h team Hteam) as [Hlen Hteam'].
    destruct (Team.run _ _ _ _) as [[h' team'] [] | [h' team'] e]; cbn [fst snd final] in *;
      (split; [lia |]);
      (eapply refsValid_grow; [| apply refsValid_set_team; eassumption]); lia.
Qed.

(** In every state a game reaches, its references are valid. *)
Lemma Game_reachable_refsValid h g : Game.reachable h g -> Game.refsValid h g.
Proof.
  induction 1 as [now id name mt mp g Hnew | now o h g h' g' _ IH Hrun].
  - unfold Game.new in Hnew. destruct (negb _); [discriminate |].
    injection Hnew as <-. repeat split; simpl; [intros ? ? [] | intros ? ? [] | discriminate].
  - pose proof (Game_run_refs now o h g IH) as [_ Hv].
    now rewrite Hrun in Hv.
Qed.

(** ** The game night *)

Lemma Scenario_lobby_reachable :
  Game.reachable (fst Scenario.lobby) (snd Scenario.lobby).
Proof.
  unfold Scenario.lobby. apply Game_reachable_runAll.
  exact (Game.reach_new 0 "game-1" "Pictionary Night" 4 6 _ eq_refl).
Defined.

Lemma Scenario_lobby_ready tid team :
  In (tid, team) (Game._teams (snd Scenario.lobby)) ->
  Spec.teamReady (fst Scenario.lobby) team.
Proof. revert tid team. apply allTeamsReady_spec. vm_compute. reflexivity. Defined.



Lemma Game_removeTeam_witness :
  exists g',
    Game.removeTeam 9 "red" (fst Scenario.lobby) (snd Scenario.lobby) = Return g' tt /\
    Game._players g' = [("c", 2%nat)] /\
    JsMap.keys (Game._teams g') = ["blue"].
Proof.
  destruct (Game_removeTeam_spec 9 "red" (fst Scenario.lobby) (snd Scenario.lobby))
    as [_ H].
  edestruct H as (g' & Hrun & Hplayers & _ & Hteams & _);
    [vm_compute; reflexivity |].
  exists g'. split; [exact Hrun |]. split.
  - rewrite Hplayers. vm_compute. reflexivity.
  - rewrite Hteams. vm_compute. reflexivity.
Defined.

Lemma Game_addPlayer_dangling_team_witness :
  JsMap.has "green" (Game._teams (snd Scenario.lobby)) = false /\
  JsMap.has "d" (Game._players (snd Scenario.lobby)) = false /\
  Game.refsValid (fst Scenario.lobby) (snd Scenario.lobby) /\
  exists p g',
    Game.addPlayer 9 "d" "D" (Some "green") (fst Scenario.lobby) (snd Scenario.lobby)
      = Return ((fst Scenario.lobby ++ [p])%list, g') 3%nat /\
    Player.teamId p = Some "green" /\
    JsMap.get "d" (Game._players g') = Some 3%nat /\
    JsMap.get "green" (Game._teams g') = None /\
    forall tid team k l,
      In (tid, team) (Game._teams g') -> In (k, l) (Team._players team) ->
      l <> 3%nat.
Proof.
  assert (Ht : JsMap.has "green" (Game._teams (snd Scenario.lobby)) = false)
    by (vm_compute; reflexivity).
  assert (Hp : JsMap.has "d" (Game._players (snd Scenario.lobby)) = false)
    by (vm_compute; reflexivity).
  pose proof (Game_reachable_refsValid _ _ Scenario_lobby_reachable) as Hv.
  split; [exact Ht |]. split; [exact Hp |]. split; [exact Hv |].
  destruct (Game_addPlayer_dangling_team 9 "d" "D" "green"
              (fst Scenario.lobby) (snd Scenario.lobby) Ht Hp) as (_ & H).
  destruct (H ltac:(discriminate) ltac:(discriminate))
    as (p & g' & Hrun & _ & _ & _ & Htid & Hget & Hteams & Hnone).
  exists p, g'. split; [exact Hrun |]. split; [exact Htid |].
  split; [exact Hget |]. split; [rewrite Hteams; vm_compute; reflexivity |].
  exact (Hnone Hv).
Defined.

Lemma Team_isReady_witness :
  JsMap.get "red" (Game._teams (snd Scenario.lobby)) = Some Scenario.red /\
  Team._players Scenario.red <> [] /\
  Team.isReady (fst Scenario.lobby) Scenario.red = true.
Proof.
  split; [vm_compute; reflexivity |].
  assert (Hne : Team._players Scenario.red <> []) by discriminate.
  split; [exact Hne |].
  destruct (Team_isReady_spec (fst Scenario.lobby) Scenario.red) as [_ H].
  apply (H Hne).
  intros l [<- | [<- | []]]; eexists; (split; [vm_compute; reflexivity | reflexivity]).
Defined.

Lemma Team_score_law_witness :
  Team.addScore 2 (-1) Scenario.team0 = inl (Error "Score cannot be negative") /\
  (exists tm', Team.addScore 2 5 Scenario.team0 = inr tm' /\ Team.score tm' = 5) /\
  JsNumber.ltb
    (Team.score
       (snd (Team.runAll [(2, Team.AddScore 5); (3, Team.ResetScore);
                          (4, Team.AddScore 7)] [] Scenario.team0))) 0 = false /\
  Team.score
    (snd (Team.runAll [(2, Team.AddScore (2 ^ 53)); (3, Team.AddScore 1)]
                      [] Scenario.team0)) = (2 ^ 53)%Z /\
  Team.score
    (snd (Team.runAll [(2, Team.AddScore 5); (3, Team.AddScore JsNumber.NaN);
                       (4, Team.AddScore 7)] [] Scenario.team0)) = JsNumber.NaN.
Proof.
  destruct Team_score_law as (Hneg & _ & _ & Hint & _ & _ & Hnonneg).
  split; [apply Hneg; reflexivity |]. split; [| split; [| split]].
  - destruct (Hint 2 0 5 Scenario.team0) as (tm' & Hrun & Hscore);
      [lia | lia | apply Z.leb_le; reflexivity | reflexivity |].
    exists tm'. split; [exact Hrun | exact Hscore].
  - apply (Hnonneg 1 0%nat "red" "Red" None); [reflexivity |].
    repeat constructor.
  - vm_compute. reflexivity.
  - vm_compute. reflexivity.
Defined.

(** * Further properties of the code *)

(** ** More on insertion-ordered maps *)

Lemma has_In_keys {V} k (m : list (string * V)) :
  JsMap.has k m = true <-> In k (JsMap.keys m).
Proof.
  unfold JsMap.has.
  destruct (JsMap.get k m) as [v |] eqn:E.
  - split; [intros _ | reflexivity].
    apply get_In in E. apply in_map_iff. now exists (k, v).
  - apply get_None_keys in E. split; [discriminate | contradiction].
Qed.

Lemma delete_fresh {V} k (m : list (string * V)) :
  JsMap.has k m = false -> JsMap.delete k m = m.
Proof.
  intros H. apply has_false_get in H. unfold JsMap.delete.
  induction m as [| [k' v] m IH]; simpl in *; [reflexivity |].
  destruct (String.eqb_spec k k'); [discriminate |]. simpl. now rewrite IH.
Qed.

Lemma delete_snoc {V} k v (m : list (string * V)) :
  JsMap.has k m = false -> JsMap.delete k (m ++ [(k, v)])%list = m.
Proof.
  intros H. unfold JsMap.delete. rewrite List.filter_app. simpl.
  rewrite String.eqb_refl. simpl. rewrite app_nil_r. now apply delete_fresh.
Qed.

Lemma get_snoc {V} k v (m : list (string * V)) :
  JsMap.has k m = false -> JsMap.get k (m ++ [(k, v)])%list = Some v.
Proof.
  intros H. rewrite <- set_fresh by now apply has_false_get. apply get_set_eq.
Qed.

Lemma set_same {V} k v (m : list (string * V)) :
  JsMap.get k m = Some v -> JsMap.set k v m = m.
Proof.
  induction m as [| [k' v'] m IH]; simpl; [discriminate |].
  destruct (String.eqb_spec k k') as [-> | Hne].
  - now intros [= ->].
  - intros H. now rewrite IH.
Qed.

Lemma set_set {V} k v v' (m : list (string * V)) :
  JsMap.set k v' (JsMap.set k v m) = JsMap.set k v' m.
Proof.
  induction m as [| [k0 v0] m IH]; simpl.
  - now rewrite String.eqb_refl.
  - destruct (String.eqb_spec k k0) as [-> | Hne]; simpl.
    + now rewrite String.eqb_refl.
    + destruct (String.eqb_spec k k0); [contradiction | now rewrite IH].
Qed.



(** ** Game: the state machine *)

Lemma Game_startGame_state now h g :
  Game.gameState (snd (final (Game.startGame now h g))) = Game.gameState g \/
  Game.gameState (snd (final (Game.startGame now h g))) = playing.
Proof.
  unfold Game.startGame.
  destruct (_ <? 2); [now left |]. destruct (negb _); [now left |].
  rewrite selectNextDrawer_spec. now right.
Qed.

Lemma Game_nextRound_state now h g :
  Game.gameState (snd (final (Game.nextRound now h g))) = Game.gameState g \/
  (Game.gameState g = playing /\
   Game.gameState (snd (final (Game.nextRound now h g))) = finished).
Proof.
  destruct (Game.gameState g) eqn:E;
    try (left; unfold Game.nextRound; rewrite E; exact E).
  rewrite (nextRound_playing now h g E).
  destruct (_ <? _); simpl; [now right | now left].
Qed.

(** X1. A public call changes the state of a game only along these
    moves: [startGame()] to playing, from any state; [pauseGame()] from
    playing to paused; [resumeGame()] from paused to playing; [endGame()]
    to finished; [nextRound()] from playing to finished. So a finished
    game stays finished under every call but [startGame()], which starts
    it again. *)
Theorem Game_state_transitions (now : Z) (o : Game.op) (h : heap) (g : Game.t) :
  let s := Game.gameState g in
  let s' := Game.gameState (snd (final (Game.run now o h g))) in
  (s' = s \/
   (o = Game.StartGame /\ s' = playing) \/
   (o = Game.PauseGame /\ s = playing /\ s' = paused) \/
   (o = Game.ResumeGame /\ s = paused /\ s' = playing) \/
   (o = Game.EndGame /\ s' = finished) \/
   (o = Game.NextRound /\ s = playing /\ s' = finished)) /\
  (s = finished -> o <> Game.StartGame -> s' = finished).
Proof.
  intros s s'.
  assert (Hmoves :
    s' = s \/
    (o = Game.StartGame /\ s' = playing) \/
    (o = Game.PauseGame /\ s = playing /\ s' = paused) \/
    (o = Game.ResumeGame /\ s = paused /\ s' = playing) \/
    (o = Game.EndGame /\ s' = finished) \/
    (o = Game.NextRound /\ s = playing /\ s' = finished)).
  { subst s s'.
    pose proof (Game_run_roundView now o h g) as Hview.
    destruct o; try (left; now injection Hview); clear Hview; simpl.
    - destruct (Game_startGame_state now h g) as [H | H]; [now left | right; left; auto].
    - unfold Game.pauseGame.
      destruct (Game.gameState g) eqn:E; simpl; rewrite ?E; auto.
      right; right; left. auto.
    - unfold Game.resumeGame.
      destruct (Game.gameState g) eqn:E; simpl; rewrite ?E; auto.
      right; right; right; left. auto.
    - right; right; right; right; left. auto.
    - destruct (Game_nextRound_state now h g) as [H | [H1 H2]]; [now left |].
      right; right; right; right; right. auto. }
  split; [exact Hmoves |].
  intros Hfin Hne.
  destruct Hmoves as [H | [[H _] | [(_ & H & _) | [(_ & H & _) | [[_ H] | (_ & H & _)]]]]];
    congruence.
Qed.

Lemma Game_state_transitions_witness :
  Game.gameState
    (snd (final (Game.run 20 Game.PauseGame
                   (fst Scenario.ended) (snd Scenario.ended)))) = finished.
Proof.
  apply (proj2 (Game_state_transitions 20 Game.PauseGame
                  (fst Scenario.ended) (snd Scenario.ended)));
    [reflexivity | discriminate].
Defined.

(** X2. Pausing a game that is playing and resuming it gives the game
    back as it was, round, drawer and word included, with only the time of
    last activity moved; [pauseGame()] does nothing to a game that is not
    playing and [resumeGame()] nothing to one that is not paused. *)
Theorem Game_pause_resume (now now' : Z) (g : Game.t) :
  (Game.gameState g = playing ->
   Game.resumeGame now' (Game.pauseGame now g) = Game._updateActivity now' g) /\
  (Game.gameState g <> playing -> Game.pauseGame now g = g) /\
  (Game.gameState g <> paused -> Game.resumeGame now g = g).
Proof.
  unfold Game.resumeGame, Game.pauseGame. repeat split.
  - intros Hp. rewrite Hp. simpl. destruct g; simpl in *. now subst.
  - intros Hnp. destruct (Game.gameState g); simpl; congruence.
  - intros Hnp. destruct (Game.gameState g); simpl; congruence.
Qed.

Lemma Game_pause_resume_witness :
  Game.resumeGame 11 (Game.pauseGame 10 (snd Scenario.started))
  = Game._updateActivity 11 (snd Scenario.started).
Proof.
  apply (proj1 (Game_pause_resume 10 11 (snd Scenario.started))).
  reflexivity.
Defined.

(** ** Game: teams *)

Lemma Team_new_ok now rnd id name color :
  id <> "" -> name <> "" ->
  exists c,
    Team.new now rnd id name color = inr (Team.mk id name now [] 0 c true None) /\
    (forall c', color = Some c' -> c' <> "" -> c = c') /\
    ((color = None \/ color = Some "") -> c = Team._generateColor rnd).
Proof.
  intros Hid Hname. unfold Team.new, Entity.accepts.
  apply truthy_nonempty in Hid. apply truthy_nonempty in Hname.
  rewrite Hid, Hname. simpl.
  eexists. split; [reflexivity |]. split.
  - intros c' -> Hc'. apply truthy_nonempty in Hc'. now rewrite Hc'.
  - intros [-> | ->]; reflexivity.
Qed.

Lemma generateColor_in_palette rnd : In (Team._generateColor rnd) Team.colors.
Proof.
  unfold Team._generateColor. apply nth_In.
  apply Nat.mod_upper_bound. discriminate.
Qed.

(** X3. [createTeam(id, name, color)] throws when the id is taken, and
    when the game has as many teams as [maxTeams] allows; an empty id or
    name is refused by the constructor; each time the game is left as it
    was. Otherwise the new team is entered last, under its id, with the
    name as given, no players, score 0 and the colour given (one of the
    palette when none is given). The new team has no player, so it is not
    ready: [startGame()] throws right after a team was created. *)
Theorem Game_createTeam_spec
        (now : Z) (rnd : nat) (teamId teamName : string) (color : option string)
        (g : Game.t) :
  (JsMap.has teamId (Game._teams g) = true ->
   Game.createTeam now rnd teamId teamName color g =
   Throw g (Error "Team with this ID already exists")) /\
  (JsMap.has teamId (Game._teams g) = false ->
   Game._maxTeams g <= JsMap.size (Game._teams g) ->
   Game.createTeam now rnd teamId teamName color g =
   Throw g (Error "Maximum number of teams reached")) /\
  (JsMap.has teamId (Game._teams g) = false ->
   JsMap.size (Game._teams g) < Game._maxTeams g ->
   teamId = "" \/ teamName = "" ->
   Game.createTeam now rnd teamId teamName color g =
   Throw g (Error "Entity requires both id and name")) /\
  (JsMap.has teamId (Game._teams g) = false ->
   JsMap.size (Game._teams g) < Game._maxTeams g ->
   teamId <> "" -> teamName <> "" ->
   exists team g',
     Game.createTeam now rnd teamId teamName color g = Return g' team /\
     Game._teams g' = (Game._teams g ++ [(teamId, team)])%list /\
     Game.getTeam teamId g' = Some team /\
     Team.id team = teamId /\ Team.name team = teamName /\
     Team._players team = [] /\ Team.score team = 0 /\
     (forall c, color = Some c -> c <> "" -> Team.color team = c) /\
     ((color = None \/ color = Some "") -> In (Team.color team) Team.colors) /\
     Game._players g' = Game._players g /\
     Game.roundView g' = Game.roundView g /\
     (forall now' h, exists e, Game.startGame now' h g' = Throw (h, g') e)).
Proof.
  unfold Game.createTeam. split; [| split; [| split]].
  - intros ->. reflexivity.
  - intros -> Hfull.
    destruct (Z.leb_spec (Game._maxTeams g) (JsMap.size (Game._teams g))) as [Hle | Hlt]; [reflexivity | lia].
  - intros -> Hroom Hempty.
    destruct (Z.leb_spec (Game._maxTeams g) (JsMap.size (Game._teams g))) as [Hle | Hlt]; [lia |].
    unfold Team.new, Entity.accepts.
    destruct Hempty as [-> | ->]; simpl; [reflexivity |].
    now rewrite andb_false_r.
  - intros Hfresh Hroom Hid Hname. rewrite Hfresh.
    destruct (Z.leb_spec (Game._maxTeams g) (JsMap.size (Game._teams g))) as [Hle | Hlt]; [lia |].
    destruct (Team_new_ok now rnd teamId teamName color Hid Hname)
      as (c & -> & Hgiven & Hpalette).
    apply has_false_get in Hfresh.
    eexists _, _. split; [reflexivity |]. simpl.
    rewrite (set_fresh _ _ _ Hfresh).
    split; [reflexivity |].
    split; [unfold Game.getTeam; simpl; now apply get_snoc, has_false_get |].
    do 4 (split; [reflexivity |]).
    split; [exact Hgiven |].
    split; [intros H; rewrite (Hpalette H); apply generateColor_in_palette |].
    do 2 (split; [reflexivity |]).
    intros now' h. unfold Game.startGame. simpl.
    destruct (_ <? 2); [eauto |].
    unfold Game._allTeamsReady, JsMap.values. simpl.
    rewrite List.map_app, forallb_app. simpl.
    rewrite andb_false_r. simpl. eauto.
Qed.

Lemma Game_createTeam_witness :
  exists team g',
    Game.createTeam 9 2 "green" "Green" None (snd Scenario.lobby) = Return g' team /\
    JsMap.keys (Game._teams g') = ["red"; "blue"; "green"] /\
    Team.color team = "#45B7D1" /\
    exists e, Game.startGame 10 (fst Scenario.lobby) g' = Throw (fst Scenario.lobby, g') e.
Proof.
  destruct (Game_createTeam_spec 9 2 "green" "Green" None (snd Scenario.lobby))
    as (_ & _ & _ & H).
  destruct H as (team & g' & Hrun & Hteams & _ & _ & _ & _ & _ & _ & _ & _ & _ & Hstart);
    [vm_compute; reflexivity | vm_compute; reflexivity | discriminate | discriminate |].
  exists team, g'. split; [exact Hrun |].
  assert (Hteam : team = Team.mk "green" "Green" 9 [] 0 "#45B7D1" true None).
  { vm_compute in Hrun. now injection Hrun as _ <-. }
  split; [rewrite Hteams; unfold JsMap.keys; rewrite List.map_app; vm_compute; reflexivity |].
  split; [now rewrite Hteam |].
  apply Hstart.
Defined.

(** ** Game: players *)

(** What [Team.addPlayer] does when it goes through. *)
Lemma Team_addPlayer_ok now l (h : heap) tm p :
  h !! l = Some p -> Player.id p <> "" ->
  JsMap.has (Player.id p) (Team._players tm) = false ->
  Team.id tm <> "" ->
  Team.addPlayer now l h tm =
  Return (<[l := Player.mk (Player.id p) (Player.name p) (Player.createdAt p)
                          (Some (Team.id tm)) (Player.score p)
                          (Player.isDrawing p) (Player.isReady p) now]> h,
          Team._updateActivity now
            (Team.with_players (Team._players tm ++ [(Player.id p, l)])%list tm)) tt.
Proof.
  intros Hl Hid Hfresh Hteam. unfold Team.addPlayer. rewrite Hl.
  apply truthy_nonempty in Hid. rewrite Hid. simpl negb. cbv iota.
  rewrite Hfresh. unfold Player.joinTeam. simpl truthyId.
  apply truthy_nonempty in Hteam. rewrite Hteam. simpl negb. cbv iota.
  rewrite (set_fresh _ _ _ (proj1 (has_false_get _ _) Hfresh)). reflexivity.
Qed.

Lemma heap_snoc_lookup (h : heap) p : (h ++ [p])%list !! List.length h = Some p.
Proof. now apply list_lookup_middle. Qed.

Lemma heap_snoc_insert (h : heap) p p' :
  <[List.length h := p']> (h ++ [p])%list = (h ++ [p'])%list.
Proof. rewrite insert_app_r_alt by reflexivity. now rewrite Nat.sub_diag. Qed.

(** X4. [addPlayer(id, name, teamId)] with a free id and the id of a team
    that does not hold that id returns: the new player object is entered
    last in the game's collection and last in the team's collection, its
    team reference is the team's id, and every other team is as before.
    Nothing limits the number of players of the team. The new player is
    not ready, so the team is not ready after the call. *)
Theorem Game_addPlayer_existing_team
        (now : Z) (playerId playerName tid : string) (h : heap) (g : Game.t)
        (team : Team.t) :
  JsMap.has playerId (Game._players g) = false ->
  playerId <> "" -> playerName <> "" -> tid <> "" ->
  JsMap.get tid (Game._teams g) = Some team ->
  Team.id team <> "" ->
  JsMap.has playerId (Team._players team) = false ->
  exists p team' g',
    Game.addPlayer now playerId playerName (Some tid) h g
      = Return ((h ++ [p])%list, g') (List.length h) /\
    Player.id p = playerId /\ Player.name p = playerName /\
    Player.teamId p = Some (Team.id team) /\
    Player.isReady p = false /\
    Game._players g' = (Game._players g ++ [(playerId, List.length h)])%list /\
    Game._teams g' = JsMap.set tid team' (Game._teams g) /\
    JsMap.get tid (Game._teams g') = Some team' /\
    Team._players team' = (Team._players team ++ [(playerId, List.length h)])%list /\
    (forall k, k <> tid -> JsMap.get k (Game._teams g') = JsMap.get k (Game._teams g)) /\
    Team.isReady (h ++ [p])%list team' = false.
Proof.
  intros Hfresh Hid Hname Htid Hteam Hteamid Hnotin.
  unfold Game.addPlayer, Player.new, Entity.accepts. rewrite Hfresh.
  pose proof (proj2 (truthy_nonempty _) Hid) as Hid'.
  pose proof (proj2 (truthy_nonempty _) Hname) as Hname'.
  pose proof (proj2 (truthy_nonempty _) Htid) as Htid'.
  rewrite Hid', Hname'. simpl negb. cbv iota. simpl truthyId. rewrite Htid'.
  simpl Game._teams. rewrite Hteam.
  set (p0 := Player.mk playerId playerName now (Some tid) 0 false false now).
  rewrite (Team_addPlayer_ok now (List.length h) (h ++ [p0])%list team p0
             (heap_snoc_lookup h p0) Hid Hnotin Hteamid).
  rewrite heap_snoc_insert. simpl Player.id.
  eexists _, _, _. split; [reflexivity |]. simpl.
  rewrite (set_fresh _ _ _ (proj1 (has_false_get _ _) Hfresh)).
  do 6 (split; [reflexivity |]).
  split; [apply get_set_eq |].
  split; [reflexivity |].
  split; [intros k Hk; apply get_set_ne; congruence |].
  unfold Team.isReady, JsMap.size, JsMap.values. simpl.
  rewrite length_app. simpl.
  destruct (Z.eqb_spec (Z.of_nat (List.length (Team._players team) + 1)) 0); [reflexivity |].
  rewrite List.map_app, forallb_app. simpl.
  unfold Team.readyAt at 2. rewrite heap_snoc_lookup. simpl.
  now rewrite andb_false_r.
Qed.

Lemma Game_addPlayer_existing_team_witness :
  exists p team' g',
    Game.addPlayer 9 "d" "D" (Some "blue") (fst Scenario.lobby) (snd Scenario.lobby)
      = Return ((fst Scenario.lobby ++ [p])%list, g') 3%nat /\
    Player.teamId p = Some "blue" /\
    JsMap.keys (Game._players g') = ["a"; "b"; "c"; "d"] /\
    JsMap.keys (Team._players team') = ["c"; "d"] /\
    Team.isReady (fst Scenario.lobby ++ [p])%list team' = false.
Proof.
  edestruct (Game_addPlayer_existing_team 9 "d" "D" "blue"
               (fst Scenario.lobby) (snd Scenario.lobby))
    as (p & team' & g' & Hrun & _ & _ & Hteam & _ & Hplayers & _ & _ & Hmembers & _ & Hready);
    [vm_compute; reflexivity | discriminate | discriminate | discriminate
    | vm_compute; reflexivity | discriminate | vm_compute; reflexivity |].
  exists p, team', g'. split; [exact Hrun |]. split; [exact Hteam |].
  split; [rewrite Hplayers; vm_compute; reflexivity |].
  split; [rewrite Hmembers; vm_compute; reflexivity | exact Hready].
Defined.

(** X5. When the id is free in the game but the team named already
    holds a player under that id, [addPlayer] throws after it has entered
    the new player in the game's collection: the call fails and the game
    has one player more, whose team reference names a team that does not
    hold it. The team is as before. *)
Theorem Game_addPlayer_half_done
        (now : Z) (playerId playerName tid : string) (h : heap) (g : Game.t)
        (team : Team.t) :
  JsMap.has playerId (Game._players g) = false ->
  playerId <> "" -> playerName <> "" -> tid <> "" ->
  JsMap.get tid (Game._teams g) = Some team ->
  JsMap.has playerId (Team._players team) = true ->
  exists p g',
    Game.addPlayer now playerId playerName (Some tid) h g
      = Throw ((h ++ [p])%list, g') (Error "Player is already in this team") /\
    Player.id p = playerId /\ Player.teamId p = Some tid /\
    Game._players g' = (Game._players g ++ [(playerId, List.length h)])%list /\
    Game.getPlayer playerId g' = Some (List.length h) /\
    Game._teams g' = Game._teams g.
Proof.
  intros Hfresh Hid Hname Htid Hteam Hin.
  unfold Game.addPlayer, Player.new, Entity.accepts. rewrite Hfresh.
  pose proof (proj2 (truthy_nonempty _) Hid) as Hid'.
  pose proof (proj2 (truthy_nonempty _) Hname) as Hname'.
  pose proof (proj2 (truthy_nonempty _) Htid) as Htid'.
  rewrite Hid', Hname'. simpl negb. cbv iota. simpl truthyId. rewrite Htid'.
  simpl Game._teams. rewrite Hteam.
  unfold Team.addPlayer. rewrite heap_snoc_lookup. simpl Player.id.
  rewrite Hid'. simpl negb. cbv iota. rewrite Hin.
  eexists _, _. split; [reflexivity |]. simpl.
  rewrite (set_fresh _ _ _ (proj1 (has_false_get _ _) Hfresh)).
  do 3 (split; [reflexivity |]).
  split; [unfold Game.getPlayer; simpl; now apply get_snoc |].
  now apply set_same.
Qed.

Lemma Scenario_strayed_reachable :
  Game.reachable (fst Scenario.strayed) (snd Scenario.strayed).
Proof.
  unfold Scenario.strayed, Scenario.lobby.
  do 2 apply Game_reachable_runAll.
  exact (Game.reach_new 0 "game-1" "Pictionary Night" 4 6 _ eq_refl).
Defined.

Lemma Game_addPlayer_half_done_witness :
  Game.reachable (fst Scenario.strayed) (snd Scenario.strayed) /\
  JsMap.has "a" (Game._players (snd Scenario.strayed)) = false /\
  exists p g',
    Game.addPlayer 11 "a" "Ann" (Some "red")
                   (fst Scenario.strayed) (snd Scenario.strayed)
      = Throw ((fst Scenario.strayed ++ [p])%list, g')
              (Error "Player is already in this team") /\
    Game.getPlayer "a" g' = Some 3%nat.
Proof.
  split; [exact Scenario_strayed_reachable |].
  assert (Hfresh : JsMap.has "a" (Game._players (snd Scenario.strayed)) = false)
    by (vm_compute; reflexivity).
  split; [exact Hfresh |].
  edestruct (Game_addPlayer_half_done 11 "a" "Ann" "red"
               (fst Scenario.strayed) (snd Scenario.strayed))
    as (p & g' & Hrun & _ & _ & _ & Hget & _);
    [exact Hfresh | discriminate | discriminate | discriminate
    | vm_compute; reflexivity | vm_compute; reflexivity |].
  exists p, g'. split; [exact Hrun | exact Hget].
Defined.

Lemma with_teams_same g : Game.with_teams (Game._teams g) g = g.
Proof. now destruct g. Qed.

(** X6. [removePlayer(id)] throws when the game has no player under the
    id. When the player's team reference names a team of the game that
    does not hold the id, it throws too, and the player stays in the game.
    When that team holds the id, the entry leaves the game's collection
    and the team's, and the object the team held has its team reference
    and drawing flag cleared. When the team reference is empty or names no
    team, only the game's collection changes. The current drawer is never
    touched, also when it is the player removed. *)
Theorem Game_removePlayer_spec (now : Z) (playerId : string) (h : heap) (g : Game.t) :
  (JsMap.get playerId (Game._players g) = None ->
   Game.removePlayer now playerId h g = Throw (h, g) (Error "Player not found")) /\
  (forall l p tid team,
     JsMap.get playerId (Game._players g) = Some l ->
     h !! l = Some p -> Player.teamId p = Some tid -> tid <> "" ->
     JsMap.get tid (Game._teams g) = Some team ->
     (JsMap.get playerId (Team._players team) = None ->
      Game.removePlayer now playerId h g =
      Throw (h, g) (Error "Player not found in team")) /\
     (forall l' p',
        JsMap.get playerId (Team._players team) = Some l' ->
        h !! l' = Some p' ->
        exists team' g',
          Game.removePlayer now playerId h g
            = Return (<[l' := Player.leaveTeam now p']> h, g') tt /\
          Game._players g' = JsMap.delete playerId (Game._players g) /\
          Game.getPlayer playerId g' = None /\
          JsMap.get tid (Game._teams g') = Some team' /\
          Team._players team' = JsMap.delete playerId (Team._players team) /\
          Game.currentDrawer g' = Game.currentDrawer g)) /\
  (forall l p,
     JsMap.get playerId (Game._players g) = Some l ->
     h !! l = Some p ->
     (truthyId (Player.teamId p) = false \/
      exists tid, Player.teamId p = Some tid /\ JsMap.get tid (Game._teams g) = None) ->
     exists g',
       Game.removePlayer now playerId h g = Return (h, g') tt /\
       Game._players g' = JsMap.delete playerId (Game._players g) /\
       Game.getPlayer playerId g' = None /\
       Game._teams g' = Game._teams g /\
       Game.currentDrawer g' = Game.currentDrawer g).
Proof.
  unfold Game.removePlayer. split; [| split].
  - intros ->. reflexivity.
  - intros l p tid team -> Hp Htid Hne Hteam. rewrite Hp, Htid. simpl truthyId.
    apply truthy_nonempty in Hne. rewrite Hne, Hteam.
    unfold Team.removePlayer. split.
    + intros ->. rewrite (set_same _ _ _ Hteam), with_teams_same. reflexivity.
    + intros l' p' -> Hp'. rewrite Hp'.
      eexists _, _. split; [reflexivity |]. simpl.
      split; [reflexivity |].
      split; [unfold Game.getPlayer; simpl; apply get_delete_eq |].
      split; [apply get_set_eq |]. split; reflexivity.
  - intros l p -> Hp Hnone. rewrite Hp.
    assert (Hgoal : forall r : outcome (heap * Game.t) unit,
              r = Return (h, Game._updateActivity now
                               (Game.with_players
                                  (JsMap.delete playerId (Game._players g)) g)) tt ->
              exists g',
                r = Return (h, g') tt /\
                Game._players g' = JsMap.delete playerId (Game._players g) /\
                Game.getPlayer playerId g' = None /\
                Game._teams g' = Game._teams g /\
                Game.currentDrawer g' = Game.currentDrawer g).
    { intros r ->. eexists. split; [reflexivity |]. simpl.
      split; [reflexivity |].
      split; [unfold Game.getPlayer; simpl; apply get_delete_eq |].
      split; reflexivity. }
    apply Hgoal.
    destruct Hnone as [Hfalsy | (tid & Htid & Hteam)].
    + now rewrite Hfalsy.
    + rewrite Htid. destruct (truthyId (Some tid)); [now rewrite Hteam | reflexivity].
Qed.

Lemma Scenario_early_reachable :
  Game.reachable (fst Scenario.early) (snd Scenario.early).
Proof.
  unfold Scenario.early. apply Game_reachable_runAll.
  exact (Game.reach_new 0 "game-1" "Pictionary Night" 4 6 _ eq_refl).
Defined.

Lemma Game_removePlayer_witness :
  Game.reachable (fst Scenario.early) (snd Scenario.early) /\
  Game.getPlayer "x" (snd Scenario.early) = Some 0%nat /\
  Game.removePlayer 3 "x" (fst Scenario.early) (snd Scenario.early)
  = Throw Scenario.early (Error "Player not found in team").
Proof.
  split; [exact Scenario_early_reachable |].
  split; [vm_compute; reflexivity |].
  destruct (Game_removePlayer_spec 3 "x" (fst Scenario.early) (snd Scenario.early))
    as (_ & H & _).
  edestruct H as [Hstuck _];
    [vm_compute; reflexivity | vm_compute; reflexivity | vm_compute; reflexivity
    | discriminate | vm_compute; reflexivity |].
  rewrite Hstuck; [reflexivity | vm_compute; reflexivity].
Defined.

(** The result of [addPlayer] into a team of the game, written out. *)
Lemma Game_addPlayer_joined now playerId playerName tid h g team :
  JsMap.has playerId (Game._players g) = false ->
  playerId <> "" -> playerName <> "" -> tid <> "" ->
  JsMap.get tid (Game._teams g) = Some team ->
  Team.id team <> "" ->
  JsMap.has playerId (Team._players team) = false ->
  Game.addPlayer now playerId playerName (Some tid) h g =
  Return ((h ++ [Player.mk playerId playerName now (Some (Team.id team))
                           0 false false now])%list,
          Game._updateActivity now
            (Game.with_teams
               (JsMap.set tid
                  (Team._updateActivity now
                     (Team.with_players
                        (Team._players team ++ [(playerId, List.length h)])%list team))
                  (Game._teams g))
               (Game.with_players
                  (Game._players g ++ [(playerId, List.length h)])%list g)))
         (List.length h).
Proof.
  intros Hfresh Hid Hname Htid Hteam Hteamid Hnotin.
  unfold Game.addPlayer, Player.new, Entity.accepts. rewrite Hfresh.
  pose proof (proj2 (truthy_nonempty _) Hid) as Hid'.
  pose proof (proj2 (truthy_nonempty _) Hname) as Hname'.
  pose proof (proj2 (truthy_nonempty _) Htid) as Htid'.
  rewrite Hid', Hname'. simpl negb. cbv iota. simpl truthyId. rewrite Htid'.
  simpl Game._teams. rewrite Hteam.
  set (p0 := Player.mk playerId playerName now (Some tid) 0 false false now).
  rewrite (Team_addPlayer_ok now (List.length h) (h ++ [p0])%list team p0
             (heap_snoc_lookup h p0) Hid Hnotin Hteamid).
  rewrite heap_snoc_insert. simpl Player.id.
  rewrite (set_fresh _ _ _ (proj1 (has_false_get _ _) Hfresh)). reflexivity.
Qed.

(** X7. Adding a player to a team of the game and removing it again
    gives back the game's collection of players and the team's, entry for
    entry; the other teams are untouched. What stays is the player object
    in the store, with its team reference cleared. *)
Theorem Game_addPlayer_removePlayer
        (now now' : Z) (playerId playerName tid : string) (h : heap) (g : Game.t)
        (team : Team.t) :
  JsMap.has playerId (Game._players g) = false ->
  playerId <> "" -> playerName <> "" -> tid <> "" ->
  JsMap.get tid (Game._teams g) = Some team ->
  Team.id team = tid ->
  JsMap.has playerId (Team._players team) = false ->
  exists h1 g1 p team2 g2,
    Game.addPlayer now playerId playerName (Some tid) h g
      = Return (h1, g1) (List.length h) /\
    Game.removePlayer now' playerId h1 g1 = Return ((h ++ [p])%list, g2) tt /\
    Player.id p = playerId /\ Player.teamId p = None /\
    Game._players g2 = Game._players g /\
    Game._teams g2 = JsMap.set tid team2 (Game._teams g) /\
    Team._players team2 = Team._players team /\
    Team.id team2 = Team.id team /\ Team.name team2 = Team.name team /\
    Team.score team2 = Team.score team /\
    (forall k, k <> tid -> JsMap.get k (Game._teams g2) = JsMap.get k (Game._teams g)).
Proof.
  intros Hfresh Hid Hname Htid Hteam Hteamid Hnotin.
  assert (Hteamid' : Team.id team <> "") by congruence.
  rewrite (Game_addPlayer_joined now playerId playerName tid h g team
             Hfresh Hid Hname Htid Hteam Hteamid' Hnotin).
  eexists _, _, _, _, _. split; [reflexivity |].
  split.
  { unfold Game.removePlayer. simpl Game._players.
    rewrite (get_snoc _ _ _ Hfresh), heap_snoc_lookup.
    simpl Player.teamId. rewrite Hteamid. simpl truthyId.
    rewrite (proj2 (truthy_nonempty _) Htid).
    simpl Game._teams. rewrite get_set_eq.
    unfold Team.removePlayer. simpl Team._players.
    rewrite (get_snoc _ _ _ Hnotin), heap_snoc_lookup, heap_snoc_insert.
    simpl. rewrite (delete_snoc _ _ _ Hfresh), (delete_snoc _ _ _ Hnotin), set_set.
    reflexivity. }
  simpl. do 8 (split; [reflexivity |]).
  intros k Hk. apply get_set_ne. congruence.
Qed.

Lemma Game_addPlayer_removePlayer_witness :
  exists h1 g1 p g2,
    Game.addPlayer 9 "d" "D" (Some "blue") (fst Scenario.lobby) (snd Scenario.lobby)
      = Return (h1, g1) 3%nat /\
    Game.removePlayer 10 "d" h1 g1 = Return ((fst Scenario.lobby ++ [p])%list, g2) tt /\
    Player.teamId p = None /\
    Game._players g2 = Game._players (snd Scenario.lobby).
Proof.
  edestruct (Game_addPlayer_removePlayer 9 10 "d" "D" "blue"
               (fst Scenario.lobby) (snd Scenario.lobby))
    as (h1 & g1 & p & team2 & g2 & Hadd & Hrem & _ & Hnone & Hplayers & _);
    [vm_compute; reflexivity | discriminate | discriminate | discriminate
    | vm_compute; reflexivity | reflexivity | vm_compute; reflexivity |].
  exists h1, g1, p, g2. repeat split; assumption.
Defined.

(** ** Game: the word *)

Lemma toLowerCase_idempotent s :
  JsString.toLowerCase (JsString.toLowerCase s) = JsString.toLowerCase s.
Proof.
  induction s as [| c s IH]; simpl; [reflexivity |].
  now rewrite lowerChar_idempotent, IH.
Qed.

Lemma normalize_idempotent s :
  GameService.normalize (GameService.normalize s) = GameService.normalize s.
Proof.
  unfold GameService.normalize.
  now rewrite <- (toLowerCase_trim (JsString.trim s)), trim_idempotent,
              toLowerCase_idempotent.
Qed.

Lemma trim_blank s : JsString.blank s = true -> JsString.trim s = "".
Proof. intros H. unfold JsString.trim. now rewrite (trimStart_blank s H). Qed.

(** X8. [setCurrentWord(word)] throws on an empty word and on anything
    that is not a string, leaving the game as it was. Otherwise the word
    kept is the trimmed, lower-cased word, the same form the name registry
    uses; a word of white space only is accepted and kept as the empty
    string; setting the kept word again keeps it unchanged. State, round
    and drawer are not touched. *)
Theorem Game_setCurrentWord_spec (now : Z) (word : JsValue) (g : Game.t) :
  (notNonEmptyString word = true ->
   Game.setCurrentWord now word g = Throw g (Error "Valid word is required")) /\
  (forall w, word = JsStr w -> w <> "" ->
     exists g',
       Game.setCurrentWord now word g = Return g' tt /\
       Game.currentWord g' = Some (GameService.normalize w) /\
       (JsString.blank w = true -> Game.currentWord g' = Some "") /\
       Game.roundView g' = Game.roundView g /\
       Game.currentDrawer g' = Game.currentDrawer g /\
       (forall now',
          GameService.normalize w <> "" ->
          exists g'',
            Game.setCurrentWord now' (JsStr (GameService.normalize w)) g'
              = Return g'' tt /\
            Game.currentWord g'' = Some (GameService.normalize w))).
Proof.
  split.
  - destruct word as [| | b | z | w |]; simpl; try reflexivity.
    intros ->. reflexivity.
  - intros w -> Hw. simpl. apply truthy_nonempty in Hw. rewrite Hw. simpl.
    eexists. split; [reflexivity |]. simpl.
    rewrite <- toLowerCase_trim. fold (GameService.normalize w).
    split; [reflexivity |].
    split; [intros Hb; unfold GameService.normalize; now rewrite (trim_blank w Hb) |].
    do 2 (split; [reflexivity |]).
    intros now' Hne. apply truthy_nonempty in Hne. rewrite Hne. simpl.
    eexists. split; [reflexivity |]. simpl.
    rewrite <- toLowerCase_trim. fold (GameService.normalize (GameService.normalize w)).
    now rewrite normalize_idempotent.
Qed.

Lemma Game_setCurrentWord_witness :
  exists g',
    Game.setCurrentWord 9 (JsStr "  Sun Flower ") (snd Scenario.lobby) = Return g' tt /\
    Game.currentWord g' = Some "sun flower".
Proof.
  destruct (Game_setCurrentWord_spec 9 (JsStr "  Sun Flower ") (snd Scenario.lobby))
    as [_ H].
  destruct (H _ eq_refl ltac:(discriminate)) as (g' & Hrun & Hword & _).
  exists g'. split; [exact Hrun | exact Hword].
Defined.

(** ** Game: the drawing flag *)

Lemma markDrawing_keeps now (h : heap) d l p :
  h !! l = Some p -> Player.isDrawing p = true ->
  exists p', Game.markDrawing now h d !! l = Some p' /\ Player.isDrawing p' = true.
Proof.
  intros Hl Hp. unfold Game.markDrawing.
  destruct (h !! d) as [q |] eqn:Hd; [| eauto].
  destruct (decide (d = l)) as [-> | Hne].
  - exists (Player.setDrawing now true q). split; [| reflexivity].
    apply list_lookup_insert_eq. eapply lookup_lt_Some. exact Hl.
  - exists p. split; [| exact Hp].
    rewrite <- Hl. now apply list_lookup_insert_ne.
Qed.

Lemma markDrawing_marks now (h : heap) (d : loc) :
  (d < List.length h)%nat ->
  exists p, Game.markDrawing now h d !! d = Some p /\ Player.isDrawing p = true.
Proof.
  intros Hd. unfold Game.markDrawing.
  destruct (h !! d) as [q |] eqn:Hq.
  - exists (Player.setDrawing now true q). split; [| reflexivity].
    now apply list_lookup_insert_eq.
  - apply lookup_ge_None in Hq. lia.
Qed.

Lemma selectNextDrawer_keeps now h g l p :
  h !! l = Some p -> Player.isDrawing p = true ->
  exists p', fst (Game._selectNextDrawer now h g) !! l = Some p' /\
             Player.isDrawing p' = true.
Proof.
  intros Hl Hp. rewrite selectNextDrawer_spec. simpl.
  destruct (selected h g); [eapply markDrawing_keeps; eassumption | eauto].
Qed.

(** X9. Choosing a drawer sets the drawing flag of the player chosen and
    never clears a flag: a player that was marked as drawing is still
    marked after [startGame()] and after [nextRound()], whether or not it
    is still the drawer, and also after the round that finishes the
    game. *)
Theorem Game_drawing_flag_kept (now : Z) (h : heap) (g : Game.t) :
  (forall l p, h !! l = Some p -> Player.isDrawing p = true ->
     (exists p', fst (final (Game.startGame now h g)) !! l = Some p' /\
                 Player.isDrawing p' = true) /\
     (exists p', fst (final (Game.nextRound now h g)) !! l = Some p' /\
                 Player.isDrawing p' = true)) /\
  (Game.refsValid h g ->
   forall h' g' d,
     (Game.startGame now h g = Return (h', g') tt \/
      Game.nextRound now h g = Return (h', g') tt) ->
     Game.currentDrawer g' = Some d ->
     exists p, h' !! d = Some p /\ Player.isDrawing p = true).
Proof.
  split.
  - intros l p Hl Hp. split.
    + unfold Game.startGame.
      destruct (_ <? 2); [eauto |]. destruct (negb _); [eauto |].
      pose proof (selectNextDrawer_keeps now h
                    (Game.with_currentRound 1 (Game.with_gameState playing g))
                    l p Hl Hp) as H.
      destruct (Game._selectNextDrawer _ _ _) as [h2 g2]. exact H.
    + unfold Game.nextRound.
      destruct (negb _); [eauto |]. destruct (_ <? _); [eauto |].
      pose proof (selectNextDrawer_keeps now h
                    (Game.with_currentRound (Game.currentRound g + 1) g)
                    l p Hl Hp) as H.
      destruct (Game._selectNextDrawer _ _ _) as [h2 g2]. exact H.
  - intros Hv h' g' d Hrun Hd.
    assert (Hsel : forall g1, Game.refsValid h g1 ->
              forall h2 g2, Game._selectNextDrawer now h g1 = (h2, g2) ->
              Game.currentDrawer (Game._updateActivity now g2) = Some d ->
              exists p, h2 !! d = Some p /\ Player.isDrawing p = true).
    { intros g1 Hv1 h2 g2 Hsel Hd2. rewrite selectNextDrawer_spec in Hsel.
      injection Hsel as <- <-. simpl in Hd2. rewrite Hd2.
      apply markDrawing_marks. eapply nextDrawer_valid; eassumption. }
    destruct Hrun as [Hrun | Hrun].
    + unfold Game.startGame in Hrun.
      destruct (_ <? 2); [discriminate |]. destruct (negb _); [discriminate |].
      destruct (Game._selectNextDrawer _ _ _) as [h2 g2] eqn:Hsel2.
      injection Hrun as <- <-.
        refine (Hsel _ _ _ _ Hsel2 Hd). exact Hv.
    + unfold Game.nextRound in Hrun.
      destruct (negb _); [discriminate |].
      destruct (_ <? _).
      * injection Hrun as <- <-. discriminate.
      * destruct (Game._selectNextDrawer _ _ _) as [h2 g2] eqn:Hsel2.
        injection Hrun as <- <-.
        refine (Hsel _ _ _ _ Hsel2 Hd). exact Hv.
Qed.

Lemma Game_drawing_flag_witness :
  Game.gameState (snd Scenario.ended) = finished /\
  Game.currentDrawer (snd Scenario.ended) = None /\
  List.map Player.isDrawing (fst Scenario.ended) = [true; true; true] /\
  exists p', fst (final (Game.nextRound 10 (fst Scenario.started)
                                        (snd Scenario.started))) !! 0%nat = Some p' /\
             Player.isDrawing p' = true.
Proof.
  split; [vm_compute; reflexivity |]. split; [vm_compute; reflexivity |].
  split; [vm_compute; reflexivity |].
  destruct (Game_drawing_flag_kept 10 (fst Scenario.started) (snd Scenario.started))
    as [H _].
  edestruct (H 0%nat) as [_ Hnext];
    [vm_compute; reflexivity | vm_compute; reflexivity | exact Hnext].
Defined.

(** ** Entity: renaming *)

Lemma trimStart_length s : (String.length (JsString.trimStart s) <= String.length s)%nat.
Proof.
  induction s as [| c s IH]; simpl; [lia |].
  destruct (JsString.isWhiteSpace c); simpl; lia.
Qed.

Lemma trimEnd_length s : (String.length (JsString.trimEnd s) <= String.length s)%nat.
Proof.
  induction s as [| c s IH]; simpl; [lia |].
  destruct (JsString.trimEnd s); [destruct (JsString.isWhiteSpace c) |]; simpl in *; lia.
Qed.

Lemma trim_length s : (String.length (JsString.trim s) <= String.length s)%nat.
Proof.
  unfold JsString.trim.
  pose proof (trimEnd_length (JsString.trimStart s)). pose proof (trimStart_length s). lia.
Qed.

(** X10. [updateName(newName)] measures the name as given and keeps it
    trimmed. It throws on the empty string and on a name shorter than 2 or
    longer than 50 code units, leaving the entity as it was; otherwise the
    name becomes the trimmed name, which is at most 50 long but may be
    shorter than 2: a name of white space only, 2 to 50 long, makes the
    name empty, which the constructor refuses. The id is not changed. *)
Theorem Entity_updateName_spec (newName : string) (g : Game.t) :
  (newName = "" ->
   Game.updateName newName g = Throw g (Error "Name must be a non-empty string")) /\
  (newName <> "" ->
   (String.length newName < 2)%nat \/ (50 < String.length newName)%nat ->
   Game.updateName newName g =
   Throw g (Error "Name must be between 2 and 50 characters")) /\
  ((2 <= String.length newName <= 50)%nat ->
   exists g',
     Game.updateName newName g = Return g' tt /\
     Game.name g' = JsString.trim newName /\
     (String.length (Game.name g') <= 50)%nat /\
     Game.id g' = Game.id g /\
     (JsString.blank newName = true -> Game.name g' = "")).
Proof.
  unfold Game.updateName, Entity._validateName. split; [| split].
  - intros ->. reflexivity.
  - intros Hne Hlen. apply truthy_nonempty in Hne. rewrite Hne. simpl.
    destruct Hlen as [Hlen | Hlen].
    + destruct (Z.ltb_spec (Z.of_nat (String.length newName)) 2) as [_ | Hge];
        [reflexivity | lia].
    + destruct (Z.ltb_spec 50 (Z.of_nat (String.length newName))) as [_ | Hge];
        [now rewrite orb_true_r | lia].
  - intros [Hlo Hhi].
    assert (Hne : JsString.truthy newName = true) by (destruct newName; [simpl in Hlo; lia | reflexivity]).
    rewrite Hne. simpl.
    destruct (Z.ltb_spec (Z.of_nat (String.length newName)) 2) as [Hlt | _]; [lia |].
    destruct (Z.ltb_spec 50 (Z.of_nat (String.length newName))) as [Hlt | _]; [lia |].
    simpl. eexists. split; [reflexivity |]. simpl.
    split; [reflexivity |].
    split; [pose proof (trim_length newName); lia |].
    split; [reflexivity | apply trim_blank].
Qed.

Lemma Entity_updateName_witness :
  exists g',
    Game.updateName "   " Scenario.game0 = Return g' tt /\ Game.name g' = "".
Proof.
  destruct (Entity_updateName_spec "   " Scenario.game0) as (_ & _ & H).
  destruct H as (g' & Hrun & _ & _ & _ & Hblank); [simpl; lia |].
  exists g'. split; [exact Hrun | now apply Hblank].
Defined.

(** ** Player: the score *)

Lemma Player_run_score now o p :
  Player.score (final (Player.run now o p)) =
  match o with
  | Player.ResetScore => 0
  | Player.AddScore points => if JsNumber.ltb points 0 then Player.score p
                              else JsNumber.add (Player.score p) points
  | _ => Player.score p
  end.
Proof.
  destruct o as [tid | | b | b | points | | n]; simpl; try reflexivity.
  - unfold Player.joinTeam. destruct (negb _); reflexivity.
  - unfold Player.addScore. change (JsNumber.ofZ 0) with (S754_zero false).
    destruct (JsNumber.ltb points (S754_zero false)); reflexivity.
  - unfold Player.updateName. destruct (Entity._validateName n); reflexivity.
Qed.

(** One call keeps a score a double that is not below 0, and lowers it
    only when it is [resetScore]. *)
Lemma Player_run_score_kept now o p :
  Player.numeric o ->
  JsNumber.isDouble (Player.score p) = true ->
  JsNumber.ltb (Player.score p) 0 = false ->
  let score' := Player.score (final (Player.run now o p)) in
  JsNumber.isDouble score' = true /\
  JsNumber.ltb score' 0 = false /\
  (o <> Player.ResetScore -> JsNumber.ltb score' (Player.score p) = false).
Proof.
  intros Ho Hd H0. cbv zeta. rewrite Player_run_score.
  destruct o as [tid | | b | b | points | | n];
    try (split; [exact Hd |]; split; [exact H0 | intros _; apply ltb_irrefl]).
  - cbn [Player.numeric] in Ho.
    destruct (JsNumber.ltb points 0) eqn:Hp;
      [split; [exact Hd |]; split; [exact H0 | intros _; apply ltb_irrefl] |].
    destruct (add_not_below _ _ Hd Ho H0 Hp) as (Hv & Hn & Hlt).
    split; [exact Hv |]. split; [exact Hn | intros _; exact Hlt].
  - split; [reflexivity |]. split; [reflexivity | congruence].
Qed.

(** X11. The score of a player: [addScore(points)] throws when
    [points < 0], leaving the player as it was, and otherwise makes the
    score the sum of the score and [points], as doubles add; integers add
    exactly as long as the sum is at most [2 ^ 53]; the team reference
    and the ready flag are not touched. A call other than [resetScore()]
    does not lower a score that is not below 0. So the score of a player
    never gets below 0, whatever the calls since its construction. The
    numbers given are doubles, as every JavaScript number is. *)
Theorem Player_score_law :
  (forall now points p, JsNumber.ltb points 0 = true ->
     Player.addScore now points p = inl (Error "Score cannot be negative")) /\
  (forall now points p, JsNumber.ltb points 0 = false ->
     exists p', Player.addScore now points p = inr p' /\
                Player.score p' = JsNumber.add (Player.score p) points /\
                Player.teamId p' = Player.teamId p /\
                Player.isReady p' = Player.isReady p) /\
  (forall now (a b : Z) p,
     0 <= a -> 0 <= b -> a + b <= 2 ^ 53 ->
     Player.score p = JsNumber.ofZ a ->
     exists p', Player.addScore now (JsNumber.ofZ b) p = inr p' /\
                Player.score p' = JsNumber.ofZ (a + b)) /\
  (forall now o p,
     o <> Player.ResetScore -> Player.numeric o ->
     JsNumber.isDouble (Player.score p) = true ->
     JsNumber.ltb (Player.score p) 0 = false ->
     JsNumber.ltb (Player.score (final (Player.run now o p)))
                  (Player.score p) = false) /\
  (forall now id name teamId p calls,
     Player.new now id name teamId = inr p ->
     Forall (fun c => Player.numeric (snd c)) calls ->
     JsNumber.ltb (Player.score (Player.runAll calls p)) 0 = false).
Proof.
  split; [| split; [| split; [| split]]].
  - intros now points p Hneg. unfold Player.addScore. now rewrite Hneg.
  - intros now points p Hpos. unfold Player.addScore. rewrite Hpos.
    eexists; repeat split; reflexivity.
  - intros now a b p Ha Hb Hab Hs. unfold Player.addScore.
    rewrite (ofZ_not_below b Hb).
    eexists; split; [reflexivity |]. cbn [Player.score].
    rewrite Hs. now apply add_ofZ.
  - intros now o p Hne Ho Hd H0.
    now apply (Player_run_score_kept now o p Ho Hd H0).
  - intros now id name teamId p calls Hnew Hc.
    assert (Hp : JsNumber.isDouble (Player.score p) = true /\
                 JsNumber.ltb (Player.score p) 0 = false).
    { unfold Player.new in Hnew. destruct (negb _); [discriminate |].
      injection Hnew as <-. split; reflexivity. }
    clear Hnew. revert p Hp.
    induction calls as [| [now' o] calls IH]; intros p [Hd H0]; simpl;
      [exact H0 |].
    apply Forall_cons in Hc as [Ho Hc]. simpl in Ho.
    apply IH; [exact Hc |].
    pose proof (Player_run_score_kept now' o p Ho Hd H0) as (Hd' & H0' & _).
    split; assumption.
Qed.

Lemma Player_score_law_witness :
  JsNumber.ltb
    (Player.score
       (Player.runAll [ (1, Player.AddScore 5); (2, Player.AddScore (-3));
                        (3, Player.ResetScore); (4, Player.AddScore 2) ]
                      (Player.mk "a" "A" 0 None 0 false false 0))) 0 = false /\
  Player.score
    (Player.runAll [ (1, Player.AddScore 5); (2, Player.AddScore (-3));
                     (4, Player.AddScore 2) ]
                   (Player.mk "a" "A" 0 None 0 false false 0)) = 7.
Proof.
  split; [| vm_compute; reflexivity].
  apply (proj2 (proj2 (proj2 (proj2 Player_score_law))) 0 "a" "A" None);
    [reflexivity |].
  repeat constructor.
Defined.

(** ** Every entity under its own id *)

Lemma keys_filter {V} (keep : string -> bool) (m : list (string * V)) :
  JsMap.keys (List.filter (fun kv => keep (fst kv)) m)
  = List.filter keep (JsMap.keys m).
Proof.
  unfold JsMap.keys. induction m as [| [k v] m IH]; simpl; [reflexivity |].
  destruct (keep k); simpl; now rewrite IH.
Qed.

Lemma NoDup_keys_filter {V} (keep : string -> bool) (m : list (string * V)) :
  List.NoDup (JsMap.keys m) ->
  List.NoDup (JsMap.keys (List.filter (fun kv => keep (fst kv)) m)).
Proof. intros H. rewrite keys_filter. now apply List.NoDup_filter. Qed.

Lemma NoDup_keys_delete {V} k (m : list (string * V)) :
  List.NoDup (JsMap.keys m) -> List.NoDup (JsMap.keys (JsMap.delete k m)).
Proof.
  intros H. unfold JsMap.delete.
  apply (NoDup_keys_filter (fun k' => negb (String.eqb k k'))). exact H.
Qed.

Lemma keys_set_present {V} k v v' (m : list (string * V)) :
  JsMap.get k m = Some v' -> JsMap.keys (JsMap.set k v m) = JsMap.keys m.
Proof.
  unfold JsMap.keys. induction m as [| [k0 v0] m IH]; simpl; [discriminate |].
  destruct (String.eqb_spec k k0) as [-> | Hne]; simpl; [reflexivity |].
  intros H. now rewrite IH.
Qed.

Lemma NoDup_keys_set {V} k v (m : list (string * V)) :
  List.NoDup (JsMap.keys m) -> List.NoDup (JsMap.keys (JsMap.set k v m)).
Proof.
  intros H. destruct (JsMap.get k m) as [v' |] eqn:E.
  - now rewrite (keys_set_present k v v' m E).
  - rewrite (set_fresh k v m E). unfold JsMap.keys. rewrite List.map_app. simpl.
    apply List.NoDup_app; [exact H | constructor; [intros [] | constructor] |].
    intros x Hx [<- | []]. now apply get_None_keys in E.
Qed.

Lemma sameIds_refl h : sameIds h h.
Proof. intros l p Hl. eauto. Qed.

Lemma sameIds_trans h1 h2 h3 : sameIds h1 h2 -> sameIds h2 h3 -> sameIds h1 h3.
Proof.
  intros H12 H23 l p Hl.
  destruct (H12 l p Hl) as (p2 & Hl2 & Hid2).
  destruct (H23 l p2 Hl2) as (p3 & Hl3 & Hid3).
  exists p3. split; [exact Hl3 | congruence].
Qed.

Lemma sameIds_insert (h : heap) (l : loc) p p' :
  h !! l = Some p -> Player.id p' = Player.id p -> sameIds h (<[l := p']> h).
Proof.
  intros Hl Hid l0 p0 Hl0.
  destruct (decide (l = l0)) as [<- | Hne].
  - exists p'. split; [| congruence].
    apply list_lookup_insert_eq. eapply lookup_lt_Some. exact Hl.
  - exists p0. split; [| reflexivity].
    rewrite <- Hl0. now apply list_lookup_insert_ne.
Qed.

Lemma sameIds_snoc (h : heap) p : sameIds h (h ++ [p])%list.
Proof.
  intros l p0 Hl. exists p0. split; [| reflexivity].
  rewrite <- Hl. apply lookup_app_l. eapply lookup_lt_Some. exact Hl.
Qed.

Lemma Team_keyed_sameIds h h' tm :
  sameIds h h' -> Team.keyed h tm -> Team.keyed h' tm.
Proof.
  intros Hs [Hnd Hk]. split; [exact Hnd |].
  intros k l HIn. destruct (Hk k l HIn) as (p & Hl & Hid).
  destruct (Hs l p Hl) as (p' & Hl' & Hid'). exists p'. split; [exact Hl' | congruence].
Qed.

Lemma Game_keyed_sameIds h h' g :
  sameIds h h' -> Game.keyed h g -> Game.keyed h' g.
Proof.
  intros Hs (Hnd & Hk & Hndt & Ht). repeat split; try assumption.
  - intros k l HIn. destruct (Hk k l HIn) as (p & Hl & Hid).
    destruct (Hs l p Hl) as (p' & Hl' & Hid'). exists p'. split; [exact Hl' | congruence].
  - now apply (Ht tid team).
  - now apply (Ht tid team).
  - destruct (Ht tid team) as (_ & _ & [Hnd' _]); assumption.
  - intros k l HIn. destruct (Ht tid team) as (_ & _ & Hteam); [assumption |].
    now apply (Team_keyed_sameIds h h' team Hs Hteam).
Qed.

Lemma Team_addPlayer_keyed now l h tm :
  Team.keyed h tm ->
  sameIds h (fst (final (Team.addPlayer now l h tm))) /\
  Team.keyed (fst (final (Team.addPlayer now l h tm)))
             (snd (final (Team.addPlayer now l h tm))) /\
  Team.id (snd (final (Team.addPlayer now l h tm))) = Team.id tm.
Proof.
  intros Hk. unfold Team.addPlayer.
  destruct (h !! l) as [p |] eqn:E;
    [| simpl; split; [apply sameIds_refl | now split]].
  destruct (negb _); [simpl; split; [apply sameIds_refl | now split] |].
  destruct (JsMap.has _ _); [simpl; split; [apply sameIds_refl | now split] |].
  assert (Hset : Team.keyed h
            (Team.with_players (JsMap.set (Player.id p) l (Team._players tm)) tm)).
  { destruct Hk as [Hnd Hk]. split; simpl; [now apply NoDup_keys_set |].
    intros k' l' [[= -> ->] | HIn]%In_set; [eauto | now apply Hk]. }
  unfold Player.joinTeam. destruct (negb _); simpl.
  - split; [apply sameIds_refl | now split].
  - assert (Hs : sameIds h (<[l := Player.mk (Player.id p) (Player.name p)
                                   (Player.createdAt p) (Some (Team.id tm))
                                   (Player.score p) (Player.isDrawing p)
                                   (Player.isReady p) now]> h))
      by (eapply sameIds_insert; [exact E | reflexivity]).
    split; [exact Hs |]. split; [| reflexivity].
    exact (Team_keyed_sameIds _ _ _ Hs Hset).
Qed.

Lemma Team_removePlayer_keyed now k h tm :
  Team.keyed h tm ->
  sameIds h (fst (final (Team.removePlayer now k h tm))) /\
  Team.keyed (fst (final (Team.removePlayer now k h tm)))
             (snd (final (Team.removePlayer now k h tm))) /\
  Team.id (snd (final (Team.removePlayer now k h tm))) = Team.id tm.
Proof.
  intros Hk. unfold Team.removePlayer.
  destruct (JsMap.get k _) as [l |];
    [| simpl; split; [apply sameIds_refl | now split]].
  simpl.
  assert (Hs : sameIds h (match h !! l with
                          | Some p => <[l := Player.leaveTeam now p]> h
                          | None => h
                          end)).
  { destruct (h !! l) as [p |] eqn:E; [| apply sameIds_refl].
    eapply sameIds_insert; [exact E | reflexivity]. }
  split; [exact Hs |]. split; [| reflexivity].
  apply (Team_keyed_sameIds _ _ _ Hs).
  destruct Hk as [Hnd Hk]. split; simpl; [now apply NoDup_keys_delete |].
  intros k' l' HIn%In_delete. now apply Hk.
Qed.

Lemma Team_run_keyed now o h tm :
  Team.keyed h tm ->
  sameIds h (fst (final (Team.run now o h tm))) /\
  Team.keyed (fst (final (Team.run now o h tm))) (snd (final (Team.run now o h tm))) /\
  Team.id (snd (final (Team.run now o h tm))) = Team.id tm.
Proof.
  intros Hk. destruct o as [l | k | points | | b | n]; simpl.
  - now apply Team_addPlayer_keyed.
  - now apply Team_removePlayer_keyed.
  - unfold Team.addScore. destruct (JsNumber.ltb points _); simpl;
      (split; [apply sameIds_refl | now split]).
  - split; [apply sameIds_refl | now split].
  - split; [apply sameIds_refl | now split].
  - unfold Team.updateName. destruct (Entity._validateName n); simpl;
      (split; [apply sameIds_refl | now split]).
Qed.

Lemma Player_run_id now o p : Player.id (final (Player.run now o p)) = Player.id p.
Proof.
  destruct o as [tid | | b | b | points | | n]; simpl; try reflexivity.
  - unfold Player.joinTeam. destruct (negb _); reflexivity.
  - unfold Player.addScore. destruct (JsNumber.ltb points _); reflexivity.
  - unfold Player.updateName. destruct (Entity._validateName n); reflexivity.
Qed.

(** A team of the game replaced by one with the same id. *)
Lemma Game_keyed_set_team h g tid team team' :
  Game.keyed h g -> JsMap.get tid (Game._teams g) = Some team ->
  Team.id team' = Team.id team -> Team.keyed h team' ->
  Game.keyed h (Game.with_teams (JsMap.set tid team' (Game._teams g)) g).
Proof.
  intros (Hnd & Hk & Hndt & Ht) Hget Hid Hteam'.
  destruct (Ht tid team (get_In _ _ _ Hget)) as (Hid0 & Hne & _).
  split; [exact Hnd |]. split; [exact Hk |]. simpl. split.
  - now rewrite (keys_set_present tid team' team _ Hget).
  - intros tid' t' [[= -> ->] | HIn]%In_set; [| now apply Ht].
    split; [congruence |]. split; assumption.
Qed.

Lemma Game_keyed_team h g tid team :
  Game.keyed h g -> JsMap.get tid (Game._teams g) = Some team -> Team.keyed h team.
Proof.
  intros (_ & _ & _ & Ht) Hget. now apply (Ht tid team (get_In _ _ _ Hget)).
Qed.

Lemma markDrawing_sameIds now h d : sameIds h (Game.markDrawing now h d).
Proof.
  unfold Game.markDrawing. destruct (h !! d) as [p |] eqn:E; [| apply sameIds_refl].
  eapply sameIds_insert; [exact E | reflexivity].
Qed.

Lemma selectNextDrawer_keyed now h g :
  Game.keyed h g ->
  sameIds h (fst (Game._selectNextDrawer now h g)) /\
  Game.keyed (fst (Game._selectNextDrawer now h g))
             (snd (Game._selectNextDrawer now h g)).
Proof.
  intros Hk. rewrite selectNextDrawer_spec. simpl.
  assert (Hs : sameIds h (match selected h g with
                          | Some d => Game.markDrawing now h d
                          | None => h
                          end))
    by (destruct (selected h g); [apply markDrawing_sameIds | apply sameIds_refl]).
  split; [exact Hs |]. exact (Game_keyed_sameIds _ _ _ Hs Hk).
Qed.

Lemma Game_keyed_players h g ps :
  Game.keyed h g ->
  List.NoDup (JsMap.keys ps) ->
  (forall k l, In (k, l) ps -> exists p, h !! l = Some p /\ Player.id p = k) ->
  Game.keyed h (Game.with_players ps g).
Proof.
  intros (_ & _ & Hndt & Ht) Hnd Hk.
  split; [exact Hnd |]. split; [exact Hk |]. split; [exact Hndt | exact Ht].
Qed.

Lemma Game_startGame_keyed now h g :
  Game.keyed h g ->
  sameIds h (fst (final (Game.startGame now h g))) /\
  Game.keyed (fst (final (Game.startGame now h g)))
             (snd (final (Game.startGame now h g))).
Proof.
  intros Hk. unfold Game.startGame.
  destruct (_ <? 2); [split; [apply sameIds_refl | exact Hk] |].
  destruct (negb _); [split; [apply sameIds_refl | exact Hk] |].
  pose proof (selectNextDrawer_keyed now h
                (Game.with_currentRound 1 (Game.with_gameState playing g)) Hk) as H.
  destruct (Game._selectNextDrawer _ _ _) as [h2 g2]. exact H.
Qed.

Lemma Game_nextRound_keyed now h g :
  Game.keyed h g ->
  sameIds h (fst (final (Game.nextRound now h g))) /\
  Game.keyed (fst (final (Game.nextRound now h g)))
             (snd (final (Game.nextRound now h g))).
Proof.
  intros Hk. unfold Game.nextRound.
  destruct (negb _); [split; [apply sameIds_refl | exact Hk] |].
  destruct (_ <? _); [split; [apply sameIds_refl | exact Hk] |].
  pose proof (selectNextDrawer_keyed now h
                (Game.with_currentRound (Game.currentRound g + 1) g) Hk) as H.
  destruct (Game._selectNextDrawer _ _ _) as [h2 g2]. exact H.
Qed.

Lemma Game_createTeam_keyed now rnd tid tn c h g :
  Game.keyed h g -> Game.keyed h (final (Game.createTeam now rnd tid tn c g)).
Proof.
  intros Hk. unfold Game.createTeam.
  destruct (JsMap.has tid _); [exact Hk |].
  destruct (_ <=? _); [exact Hk |].
  unfold Team.new, Entity.accepts.
  destruct (JsString.truthy tid) eqn:Etid; [| exact Hk].
  destruct (JsString.truthy tn); [| exact Hk]. simpl.
  destruct Hk as (Hnd & Hk & Hndt & Ht).
  split; [exact Hnd |]. split; [exact Hk |]. simpl.
  split; [now apply NoDup_keys_set |].
  intros tid' t' [[= -> ->] | HIn]%In_set; [| now apply Ht].
  simpl. split; [reflexivity |]. split; [now apply truthy_nonempty |].
  split; simpl; [constructor | intros k l []].
Qed.

Lemma Game_removeTeam_keyed now tid h g :
  Game.keyed h g -> Game.keyed h (final (Game.removeTeam now tid h g)).
Proof.
  intros Hk. unfold Game.removeTeam.
  destruct (JsMap.get tid _) as [team |]; [| exact Hk]. simpl.
  destruct Hk as (Hnd & Hk & Hndt & Ht). rewrite delete_all.
  split; [| split; [| split]]; simpl.
  - apply (NoDup_keys_filter
             (fun k => negb (existsb (String.eqb k) (Game.memberIds h team)))).
    exact Hnd.
  - intros k l [HIn _]%filter_In. now apply Hk.
  - now apply NoDup_keys_delete.
  - intros tid' t' HIn%In_delete. now apply Ht.
Qed.

Lemma Game_addPlayer_keyed now k n tid h g :
  Game.keyed h g ->
  sameIds h (fst (final (Game.addPlayer now k n tid h g))) /\
  Game.keyed (fst (final (Game.addPlayer now k n tid h g)))
             (snd (final (Game.addPlayer now k n tid h g))).
Proof.
  intros Hk. unfold Game.addPlayer.
  destruct (JsMap.has k _) eqn:Efresh; [split; [apply sameIds_refl | exact Hk] |].
  unfold Player.new. destruct (negb _); [split; [apply sameIds_refl | exact Hk] |].
  set (p := Player.mk k n now tid 0 false false now).
  set (g1 := Game.with_players (JsMap.set k (List.length h) (Game._players g)) g).
  pose proof (sameIds_snoc h p) as Hs1.
  assert (Hk1 : Game.keyed (h ++ [p])%list g1).
  { apply Game_keyed_players; [exact (Game_keyed_sameIds _ _ _ Hs1 Hk) | |].
    - apply NoDup_keys_set. now destruct Hk.
    - intros k' l' [[= -> ->] | HIn]%In_set.
      + exists p. split; [apply heap_snoc_lookup | reflexivity].
      + destruct Hk as (_ & Hk & _). destruct (Hk k' l' HIn) as (q & Hq & Hid).
        destruct (Hs1 l' q Hq) as (q' & Hq' & Hid'). exists q'. split; [exact Hq' | congruence]. }
  destruct (if truthyId tid then tid else None) as [t |];
    [| cbn [fst snd final]; split; [exact Hs1 | exact Hk1]].
  destruct (JsMap.get t (Game._teams g1)) as [team |] eqn:Eteam;
    [| cbn [fst snd final]; split; [exact Hs1 | exact Hk1]].
  pose proof (Game_keyed_team _ _ _ _ Hk1 Eteam) as Hteam.
  pose proof (Team_addPlayer_keyed now (List.length h) (h ++ [p])%list team Hteam)
    as (Hs2 & Hteam2 & Hid2).
  destruct (Team.addPlayer _ _ _ _) as [[h2 team'] [] | [h2 team'] e];
    cbn [fst snd final] in *;
    (split; [exact (sameIds_trans _ _ _ Hs1 Hs2) |]);
    exact (Game_keyed_set_team h2 g1 t team team'
             (Game_keyed_sameIds _ _ _ Hs2 Hk1) Eteam Hid2 Hteam2).
Qed.

Lemma Game_removePlayer_keyed now k h g :
  Game.keyed h g ->
  sameIds h (fst (final (Game.removePlayer now k h g))) /\
  Game.keyed (fst (final (Game.removePlayer now k h g)))
             (snd (final (Game.removePlayer now k h g))).
Proof.
  intros Hk. unfold Game.removePlayer.
  destruct (JsMap.get k _) as [l |]; [| split; [apply sameIds_refl | exact Hk]].
  assert (Hfinish : forall h' g',
            sameIds h h' -> Game.keyed h' g' ->
            sameIds h h' /\
            Game.keyed h'
              (Game._updateActivity now
                 (Game.with_players (JsMap.delete k (Game._players g')) g'))).
  { intros h' g' Hs Hk'. split; [exact Hs |].
    apply (Game_keyed_players h' g'); [exact Hk' | |].
    - apply NoDup_keys_delete. now destruct Hk'.
    - intros k' l' HIn%In_delete. destruct Hk' as (_ & Hk' & _). now apply Hk'. }
  destruct (match h !! l with Some _ => _ | None => _ end) as [t |];
    [| apply Hfinish; [apply sameIds_refl | exact Hk]].
  destruct (JsMap.get t _) as [team |] eqn:Eteam;
    [| apply Hfinish; [apply sameIds_refl | exact Hk]].
  pose proof (Game_keyed_team _ _ _ _ Hk Eteam) as Hteam.
  pose proof (Team_removePlayer_keyed now k h team Hteam) as (Hs2 & Hteam2 & Hid2).
  destruct (Team.removePlayer _ _ _ _) as [[h2 team'] [] | [h2 team'] e];
    cbn [fst snd final] in *.
  - apply Hfinish; [exact Hs2 |].
    exact (Game_keyed_set_team h2 g t team team'
             (Game_keyed_sameIds _ _ _ Hs2 Hk) Eteam Hid2 Hteam2).
  - split; [exact Hs2 |].
    exact (Game_keyed_set_team h2 g t team team'
             (Game_keyed_sameIds _ _ _ Hs2 Hk) Eteam Hid2 Hteam2).
Qed.

(** Every public call keeps the player objects under their ids and the
    entities under their keys. *)
Lemma Game_run_keyed now o h g :
  Game.keyed h g ->
  sameIds h (fst (final (Game.run now o h g))) /\
  Game.keyed (fst (final (Game.run now o h g))) (snd (final (Game.run now o h g))).
Proof.
  intros Hk.
  destruct o as [| | | | | w | n | rnd tid tn c | tid | k n tid | k | k n tid
                 | l po | tid teamOp]; simpl.
  - now apply Game_startGame_keyed.
  - split; [apply sameIds_refl |].
    unfold Game.pauseGame. destruct (Game.isPlaying _); exact Hk.
  - split; [apply sameIds_refl |].
    unfold Game.resumeGame. destruct (Game.isPaused _); exact Hk.
  - split; [apply sameIds_refl | exact Hk].
  - now apply Game_nextRound_keyed.
  - destruct w as [| | b | z | w |]; simpl;
      try (split; [apply sameIds_refl | exact Hk]).
    destruct (negb _); simpl; (split; [apply sameIds_refl | exact Hk]).
  - unfold Game.updateName. destruct (Entity._validateName n); simpl;
      (split; [apply sameIds_refl | exact Hk]).
  - pose proof (Game_createTeam_keyed now rnd tid tn c h g Hk) as Hk'.
    destruct (Game.createTeam now rnd tid tn c g); simpl in *;
      (split; [apply sameIds_refl | exact Hk']).
  - pose proof (Game_removeTeam_keyed now tid h g Hk) as Hk'.
    destruct (Game.removeTeam now tid h g); simpl in *;
      (split; [apply sameIds_refl | exact Hk']).
  - pose proof (Game_addPlayer_keyed now k n tid h g Hk) as Hk'.
    destruct (Game.addPlayer now k n tid h g); exact Hk'.
  - now apply Game_removePlayer_keyed.
  - destruct (Player.new _ _ _ _) as [e | p]; simpl;
      [split; [apply sameIds_refl | exact Hk] |].
    split; [apply sameIds_snoc | exact (Game_keyed_sameIds _ _ _ (sameIds_snoc h p) Hk)].
  - destruct (h !! l) as [p |] eqn:E; [| split; [apply sameIds_refl | exact Hk]].
    pose proof (Player_run_id now po p) as Hid.
    assert (Hs : sameIds h (<[l := final (Player.run now po p)]> h))
      by (eapply sameIds_insert; [exact E | exact Hid]).
    destruct (Player.run now po p) as [p' [] | p' e]; cbn [fst snd final] in *;
      (split; [exact Hs | exact (Game_keyed_sameIds _ _ _ Hs Hk)]).
  - destruct (JsMap.get tid _) as [team |] eqn:Eteam;
      [| split; [apply sameIds_refl | exact Hk]].
    pose proof (Game_keyed_team _ _ _ _ Hk Eteam) as Hteam.
    pose proof (Team_run_keyed now teamOp h team Hteam) as (Hs & Hteam' & Hid).
    destruct (Team.run _ _ _ _) as [[h' team'] [] | [h' team'] e];
      cbn [fst snd final] in *;
      (split; [exact Hs |]);
      exact (Game_keyed_set_team h' g tid team team'
               (Game_keyed_sameIds _ _ _ Hs Hk) Eteam Hid Hteam').
Qed.

Lemma playersJSON_ids h (ps : list (string * loc)) :
  (forall k l, In (k, l) ps -> exists p, h !! l = Some p /\ Player.id p = k) ->
  List.map Player.j_id (Team.playersJSON h (JsMap.values ps)) = JsMap.keys ps.
Proof.
  unfold Team.playersJSON, JsMap.values, JsMap.keys.
  induction ps as [| [k l] ps IH]; intros Hk; [reflexivity |].
  destruct (Hk k l (or_introl eq_refl)) as (p & Hl & Hid).
  simpl. rewrite Hl. simpl. rewrite Hid. f_equal.
  apply IH. intros k' l' HIn. apply Hk. now right.
Qed.

(** X12. In every state a game reaches, every player is entered under
    its own id, in the game's collection and in each team's, every team
    under its own id, and the ids of a collection are distinct: what
    [getTeam(id)] returns has the id asked for, and so has the object
    [getPlayer(id)] leads to. The snapshot [toJSON()] then lists the teams
    and the players of the game, none left out, in the order they were
    entered. *)
Theorem Game_reachable_keyed (h : heap) (g : Game.t) :
  Game.reachable h g ->
  Game.keyed h g /\
  (forall tid team, Game.getTeam tid g = Some team -> Team.id team = tid) /\
  (forall k l, Game.getPlayer k g = Some l ->
               exists p, h !! l = Some p /\ Player.id p = k) /\
  List.map Team.j_id (Game.j_teams (Game.toJSON h g)) = JsMap.keys (Game._teams g) /\
  List.map Player.j_id (Game.j_players (Game.toJSON h g)) = JsMap.keys (Game._players g).
Proof.
  intros Hr.
  assert (Hk : Game.keyed h g).
  { induction Hr as [now id name mt mp g Hnew | now o h g h' g' _ IH Hrun].
    - unfold Game.new in Hnew. destruct (negb _); [discriminate |].
      injection Hnew as <-.
      split; [apply List.NoDup_nil |]. split; [intros ? ? [] |].
      split; [apply List.NoDup_nil | intros ? ? []].
    - pose proof (Game_run_keyed now o h g IH) as [_ H]. now rewrite Hrun in H. }
  split; [exact Hk |].
  destruct Hk as (Hnd & Hp & Hndt & Ht).
  split; [intros tid team Hget; now apply (Ht tid team (get_In _ _ _ Hget)) |].
  split; [intros k l Hget; now apply Hp, get_In |].
  split.
  - simpl. unfold Game.teams, JsMap.values, JsMap.keys.
    rewrite List.map_map, List.map_map. apply List.map_ext_in.
    intros [tid team] HIn. simpl. now apply (Ht tid team HIn).
  - simpl. unfold Game.players. now apply playersJSON_ids.
Qed.

Lemma Game_reachable_keyed_witness :
  Game.reachable (fst Scenario.started) (snd Scenario.started) /\
  List.map Player.j_id
    (Game.j_players (Game.toJSON (fst Scenario.started) (snd Scenario.started)))
  = ["a"; "b"; "c"].
Proof.
  assert (Hr : Game.reachable (fst Scenario.started) (snd Scenario.started)).
  { unfold Scenario.started, Scenario.lobby. do 2 apply Game_reachable_runAll.
    exact (Game.reach_new 0 "game-1" "Pictionary Night" 4 6 _ eq_refl). }
  split; [exact Hr |].
  destruct (Game_reachable_keyed _ _ Hr) as (_ & _ & _ & _ & H).
  rewrite H. vm_compute. reflexivity.
Defined.

(** ** Game: the number of teams *)






(** ** GameService: the registry of names *)

Lemma names_add_remove (x : string) (X : gset string) :
  x ∉ X -> ({[x]} ∪ X) ∖ {[x]} = X.
Proof.
  intros Hx. apply set_eq. intros y.
  rewrite elem_of_difference, elem_of_union, elem_of_singleton.
  split; [tauto |]. intros Hy. split; [tauto | congruence].
Qed.

Lemma names_remove_absent (x : string) (X : gset string) :
  x ∉ X -> X ∖ {[x]} = X.
Proof.
  intros Hx. apply set_eq. intros y.
  rewrite elem_of_difference, elem_of_singleton.
  split; [tauto |]. intros Hy. split; [exact Hy | congruence].
Qed.

(** X14. Registering a free name and unregistering it gives the service
    back exactly as it was. While the name is registered, registering it
    again, in any letter case and with any white space around it, throws
    and changes nothing. Unregistering a name that is not registered
    changes nothing. *)
Theorem GameService_register_unregister (s : GameService.t) (n : string) :
  n <> "" ->
  GameService.normalize n ∉ GameService._uniqueNames s ->
  GameService.unregisterUniqueName (JsStr n) s = s /\
  exists s1,
    GameService.registerUniqueName (JsStr n) s = Return s1 true /\
    GameService.unregisterUniqueName (JsStr n) s1 = s /\
    (forall v, JsString.variant n v -> v <> "" ->
       GameService.registerUniqueName (JsStr v) s1 =
       Throw s1 (Error "Name must be unique")).
Proof.
  intros Hn Hfree. apply truthy_nonempty in Hn. simpl. rewrite Hn. simpl.
  split.
  - rewrite (names_remove_absent _ _ Hfree). now destruct s.
  - rewrite bool_decide_eq_false_2 by exact Hfree.
    eexists. split; [reflexivity |]. simpl. split.
    + rewrite (names_add_remove _ _ Hfree). now destruct s.
    + intros v Hv Hne. apply truthy_nonempty in Hne. rewrite Hne. simpl.
      rewrite (variant_normalize n v Hv).
      rewrite bool_decide_eq_true_2; [reflexivity |].
      apply elem_of_union. left. now apply elem_of_singleton.
Qed.

Lemma GameService_register_unregister_witness :
  exists s1,
    GameService.registerUniqueName (JsStr "Team Alpha") Scenario.service0
      = Return s1 true /\
    GameService.unregisterUniqueName (JsStr "Team Alpha") s1 = Scenario.service0 /\
    GameService.registerUniqueName (JsStr " team ALPHA ") s1
      = Throw s1 (Error "Name must be unique").
Proof.
  destruct (GameService_register_unregister Scenario.service0 "Team Alpha")
    as (_ & s1 & Hreg & Hunreg & Hagain);
    [discriminate | unfold Scenario.service0; simpl; apply not_elem_of_empty |].
  exists s1. split; [exact Hreg |]. split; [exact Hunreg |].
  apply Hagain; [| discriminate].
  exists "", "", "Team Alpha", " ", " ", "team ALPHA".
  repeat split.
  repeat (constructor; [unfold JsString.same_letter; vm_compute; tauto |]).
  constructor.
Defined.

(** ** GameService: a game from creation to its end *)

(** X15. Creating a game and ending it gives back the set of names and
    the empty active slot; the history has one record more, the snapshot
    of a finished game with the trimmed name, no teams and no players.
    The name is free again: [createGame] with the same name returns a new
    game. *)
Theorem GameService_create_end_create
        (now now' now'' : Z) (uuid uuid' : string) (n : string)
        (options : optionsArg) (h : heap) (s : GameService.t) :
  GameService._isInitialized s = true ->
  GameService._currentGame s = None ->
  uuid <> "" -> uuid' <> "" ->
  JsString.trim n <> "" ->
  options <> OptNull ->
  GameService.normalize n ∉ GameService._uniqueNames s ->
  exists s1 g s2 g' snapshot s3 g'',
    GameService.createGame now uuid (JsStr n) options s = Return s1 g /\
    GameService.endCurrentGame now' h s1 = (s2, Some g') /\
    GameService._uniqueNames s2 = GameService._uniqueNames s /\
    GameService._currentGame s2 = None /\
    GameService._gameHistory s2 =
      (GameService._gameHistory s ++ [GameService.mkArchived snapshot now'])%list /\
    Game.j_id snapshot = uuid /\
    Game.j_name snapshot = JsString.trim n /\
    Game.j_gameState snapshot = finished /\
    Game.j_teams snapshot = [] /\ Game.j_players snapshot = [] /\
    GameService.createGame now'' uuid' (JsStr n) options s2 = Return s3 g'' /\
    Game.id g'' = uuid' /\ Game.name g'' = JsString.trim n /\
    Game.gameState g'' = waiting.
Proof.
  intros Hinit Hcur Huuid Huuid' Htrim Hopt Hfree.
  assert (Hn : JsString.truthy n = true) by (apply trim_truthy, truthy_nonempty, Htrim).
  assert (Hcreate : forall t u (s0 : GameService.t),
            GameService._isInitialized s0 = true ->
            GameService._currentGame s0 = None ->
            u <> "" ->
            GameService.normalize n ∉ GameService._uniqueNames s0 ->
            exists mt mp,
              GameService.createGame t u (JsStr n) options s0 =
              Return (GameService.mk
                        (Some (Game.mk u (JsString.trim n) t [] [] mt mp waiting
                                       0 10 60 None None
                                       (Game.mkSettings true true true) None))
                        (GameService._gameHistory s0)
                        ({[GameService.normalize n]} ∪ GameService._uniqueNames s0)
                        true)
                     (Game.mk u (JsString.trim n) t [] [] mt mp waiting 0 10 60
                              None None (Game.mkSettings true true true) None)).
  { intros t u s0 Hi Hc Hu Hf. unfold GameService.createGame.
    rewrite Hi, Hc, Hn. simpl negb. cbv iota.
    rewrite bool_decide_eq_false_2 by exact Hf.
    destruct options as [| | mt mp]; [| contradiction |];
      rewrite (Game_new_ok _ _ _ _ _ Hu Htrim); eauto. }
  destruct (Hcreate now uuid s Hinit Hcur Huuid Hfree) as (mt & mp & Hc1).
  set (g := Game.mk uuid (JsString.trim n) now [] [] mt mp waiting 0 10 60
                    None None (Game.mkSettings true true true) None) in *.
  set (s1 := GameService.mk (Some g) (GameService._gameHistory s)
               ({[GameService.normalize n]} ∪ GameService._uniqueNames s) true) in *.
  set (s2 := GameService.mk None
               (GameService._gameHistory s ++
                [GameService.mkArchived (Game.toJSON h (Game.endGame now' g)) now'])%list
               (GameService._uniqueNames s) true).
  assert (Hend : GameService.endCurrentGame now' h s1 = (s2, Some (Game.endGame now' g))).
  { unfold GameService.endCurrentGame. simpl.
    fold (GameService.normalize n). now rewrite (names_add_remove _ _ Hfree). }
  destruct (Hcreate now'' uuid' s2 eq_refl eq_refl Huuid' Hfree) as (mt' & mp' & Hc2).
  eexists s1, g, s2, _, _, _, _. split; [exact Hc1 |]. split; [exact Hend |].
  simpl. do 8 (split; [reflexivity |]).
  split; [exact Hc2 |]. repeat split.
Qed.

Lemma GameService_create_end_create_witness :
  exists s1 g s2 g' s3 g'',
    GameService.createGame 1 "game-1" (JsStr "Duplicate Test") OptUndefined
                           Scenario.service0 = Return s1 g /\
    GameService.endCurrentGame 2 [] s1 = (s2, Some g') /\
    GameService.createGame 3 "game-2" (JsStr "Duplicate Test") OptUndefined s2
      = Return s3 g'' /\
    Game.name g'' = "Duplicate Test".
Proof.
  edestruct (GameService_create_end_create 1 2 3 "game-1" "game-2" "Duplicate Test"
               OptUndefined [] Scenario.service0)
    as (s1 & g & s2 & g' & snap & s3 & g'' & Hc & He & _ & _ & _ & _ & _ & _ & _ & _
        & Hc2 & _ & Hname & _);
    [reflexivity | reflexivity | discriminate | discriminate
    | vm_compute; discriminate | discriminate
    | unfold Scenario.service0; simpl; apply not_elem_of_empty |].
  exists s1, g, s2, g', s3, g''. repeat split; assumption.
Defined.

(** ** GameService: the history *)

Lemma createGame_history now uuid gameName options s :
  GameService._gameHistory (final (GameService.createGame now uuid gameName options s))
  = GameService._gameHistory s.
Proof.
  unfold GameService.createGame.
  destruct (negb _); [reflexivity |].
  destruct (GameService._currentGame s); [reflexivity |].
  destruct gameName as [| | b | z | n |]; try reflexivity.
  destruct (negb _); [reflexivity |]. destruct (bool_decide _); [reflexivity |].
  destruct options as [| | mt mp]; try reflexivity;
    destruct (Game.new _ _ _ _ _); reflexivity.
Qed.

(** What one call does to the history. *)
Lemma GameService_run_history now c h s :
  c <> GameService.Reset ->
  GameService._gameHistory (snd (GameService.run now c h s)) = GameService._gameHistory s \/
  (c = GameService.EndCurrentGame /\
   exists g, GameService._currentGame s = Some g /\
     GameService._gameHistory (snd (GameService.run now c h s)) =
     (GameService._gameHistory s ++
      [GameService.mkArchived (Game.toJSON h (Game.endGame now g)) now])%list).
Proof.
  intros Hc. destruct c as [| | uuid n opts | | n | n | o]; simpl.
  - left. unfold GameService.initialize. now destruct (GameService._isInitialized s).
  - contradiction.
  - left. apply createGame_history.
  - unfold GameService.endCurrentGame.
    destruct (GameService._currentGame s) as [g |]; [| now left].
    right. split; [reflexivity |]. exists g. split; reflexivity.
  - left. destruct n as [| | b | z | n |]; try reflexivity. simpl.
    destruct (negb _); [reflexivity |]. now destruct (bool_decide _).
  - left. destruct n as [| | b | z | n |]; try reflexivity. simpl.
    now destruct (negb _).
  - left. destruct (GameService._currentGame s) as [g |]; [| reflexivity].
    now destruct (final (Game.run now o h g)).
Qed.

(** X16. The history only grows at its end. A call other than [_reset]
    leaves the records there are as they are and in their order; it adds
    a record only when it is [endCurrentGame()] with a game active, and
    the record is then the snapshot of that game, finished, with the time
    of the call. So after any sequence of calls without [_reset] the old
    history is the beginning of the new one, with at most one record
    more for each call, each of a finished game, and [getGameHistory()]
    never loses a record. *)
Theorem GameService_history_append_only
        (calls : list (Z * GameService.call)) (h : heap) (s : GameService.t) :
  (forall now c,
     c <> GameService.Reset ->
     let after := GameService.getGameHistory (snd (GameService.run now c h s)) in
     (c <> GameService.EndCurrentGame \/ GameService._currentGame s = None ->
      after = GameService.getGameHistory s) /\
     (forall g, c = GameService.EndCurrentGame ->
                GameService._currentGame s = Some g ->
                after = (GameService.getGameHistory s ++
                         [GameService.mkArchived
                            (Game.toJSON h (Game.endGame now g)) now])%list)) /\
  (Forall (fun c => snd c <> GameService.Reset) calls ->
   exists added,
     GameService.getGameHistory (snd (GameService.runAll calls h s))
     = (GameService.getGameHistory s ++ added)%list /\
     (List.length added <= List.length calls)%nat /\
     Forall (fun r => Game.j_gameState (GameService.game r) = finished) added).
Proof.
  unfold GameService.getGameHistory. split.
  - intros now c Hc. cbv zeta.
    destruct (GameService_run_history now c h s Hc)
      as [Hsame | (Hend & g & Hcur & Hgrow)].
    + split; [intros _; exact Hsame |].
      intros g -> Hcur. simpl. unfold GameService.endCurrentGame.
      rewrite Hcur. reflexivity.
    + split.
      * intros [Hne | Hnone]; [contradiction | congruence].
      * intros g' _ Hcur'. rewrite Hcur in Hcur'. injection Hcur' as <-.
        exact Hgrow.
  - revert h s. induction calls as [| [now c] calls IH]; intros h s Hcalls.
    + exists []. simpl. rewrite app_nil_r. repeat split; [lia | constructor].
    + apply Forall_cons in Hcalls as [Hc Hcalls]. simpl in Hc.
      simpl GameService.runAll.
      pose proof (GameService_run_history now c h s Hc) as Hstep.
      destruct (GameService.run now c h s) as [h' s'] eqn:Hrun. simpl in Hstep.
      destruct (IH h' s' Hcalls) as (added & Heq & Hlen & Hfin).
      destruct Hstep as [Hsame | (_ & g & _ & Hgrow)].
      * exists added. rewrite Heq, Hsame. simpl. repeat split; [lia | exact Hfin].
      * exists (GameService.mkArchived (Game.toJSON h (Game.endGame now g)) now
                :: added).
        rewrite Heq, Hgrow, <- app_assoc. simpl.
        repeat split; [lia |]. constructor; [reflexivity | exact Hfin].
Qed.

Lemma GameService_history_witness :
  exists added,
    GameService.getGameHistory
      (snd (GameService.runAll [(2, GameService.EndCurrentGame);
                                (3, GameService.CreateGame "game-2" (JsStr "Game 2") OptUndefined);
                                (4, GameService.EndCurrentGame)]
                               (fst Scenario.night) (snd Scenario.night)))
    = (GameService.getGameHistory (snd Scenario.night) ++ added)%list /\
    (List.length added <= 3)%nat.
Proof.
  edestruct (proj2 (GameService_history_append_only
               [(2, GameService.EndCurrentGame);
                (3, GameService.CreateGame "game-2" (JsStr "Game 2") OptUndefined);
                (4, GameService.EndCurrentGame)]
               (fst Scenario.night) (snd Scenario.night)))
    as (added & Heq & Hlen & _).
  - repeat constructor; discriminate.
  - exists added. split; [exact Heq | exact Hlen].
Defined.

(** ** GameService: a game renamed *)

(** X17. [endCurrentGame()] frees the name the game has when it ends, not
    the name it was created with. When the game was renamed in between,
    the name given to [createGame] stays in the set after the game has
    ended: [isNameUnique] is false on it and [createGame] with it throws,
    with no game active. The name the game ended with is out of the set,
    whoever had registered it. *)
Theorem GameService_rename_keeps_name
        (now now1 now2 now3 : Z) (uuid uuid' : string) (n m : string)
        (options options' : optionsArg) (h : heap) (s s1 : GameService.t) (g : Game.t) :
  GameService.createGame now uuid (JsStr n) options s = Return s1 g ->
  (2 <= String.length m <= 50)%nat ->
  GameService.normalize m <> GameService.normalize n ->
  let renamed := snd (GameService.run now1 (GameService.OnCurrentGame (Game.UpdateName m)) h s1) in
  let ended := fst (GameService.endCurrentGame now2 h renamed) in
  GameService._currentGame ended = None /\
  (GameService.normalize n ∈ GameService._uniqueNames ended) /\
  (GameService.normalize m ∉ GameService._uniqueNames ended) /\
  GameService.isNameUnique (JsStr n) ended = false /\
  GameService.createGame now3 uuid' (JsStr n) options' ended =
  Throw ended (Error "Game name must be unique").
Proof.
  intros Hcreate [Hlo Hhi] Hdiff.
  unfold GameService.createGame in Hcreate.
  destruct (negb (GameService._isInitialized s)) eqn:Hinit; [discriminate |].
  destruct (GameService._currentGame s); [discriminate |].
  destruct (JsString.truthy n) eqn:Hn; [| discriminate].
  simpl negb in Hcreate. cbv iota in Hcreate.
  destruct (bool_decide _); [discriminate |].
  assert (Hs1 : exists g0, s1 = GameService.mk (Some g0) (GameService._gameHistory s)
                               ({[GameService.normalize n]} ∪ GameService._uniqueNames s)
                               (GameService._isInitialized s)).
  { destruct options as [| | mt mp]; [| discriminate |];
      simpl in Hcreate;
      match type of Hcreate with
      | context [Game.new ?a ?b ?c ?d ?e] =>
          destruct (Game.new a b c d e) as [e0 | g0]; [discriminate |];
          injection Hcreate as <- <-; eauto
      end. }
  destruct Hs1 as (g0 & ->). intros renamed ended.
  assert (Hm : JsString.truthy m = true) by (destruct m; [simpl in Hlo; lia | reflexivity]).
  assert (Hrenamed : renamed = GameService.mk (Some (Game.with_name (JsString.trim m) g0))
                       (GameService._gameHistory s)
                       ({[GameService.normalize n]} ∪ GameService._uniqueNames s)
                       (GameService._isInitialized s)).
  { subst renamed. simpl. unfold Game.updateName, Entity._validateName.
    rewrite Hm. simpl.
    destruct (Z.ltb_spec (Z.of_nat (String.length m)) 2) as [Hlt | _]; [lia |].
    destruct (Z.ltb_spec 50 (Z.of_nat (String.length m))) as [Hlt | _]; [lia |].
    reflexivity. }
  assert (Hinit' : GameService._isInitialized s = true)
    by (destruct (GameService._isInitialized s); [reflexivity | discriminate]).
  assert (Hended : GameService._uniqueNames ended =
                   ({[GameService.normalize n]} ∪ GameService._uniqueNames s)
                     ∖ {[GameService.normalize m]} /\
                   GameService._currentGame ended = None /\
                   GameService._isInitialized ended = true).
  { subst ended. rewrite Hrenamed. unfold GameService.endCurrentGame. simpl.
    repeat split. exact Hinit'. }
  destruct Hended as (Hnames & Hcur & Hinit2).
  assert (Hin : GameService.normalize n ∈ GameService._uniqueNames ended).
  { rewrite Hnames, elem_of_difference, elem_of_union, !elem_of_singleton.
    split; [now left | congruence]. }
  split; [exact Hcur |]. split; [exact Hin |]. split.
  - rewrite Hnames, elem_of_difference, elem_of_singleton. tauto.
  - split.
    + simpl. rewrite Hn. simpl. now rewrite bool_decide_eq_true_2.
    + unfold GameService.createGame. rewrite Hinit2, Hcur, Hn. simpl.
      now rewrite bool_decide_eq_true_2.
Qed.

Lemma GameService_rename_keeps_name_witness :
  exists s1 g,
    GameService.createGame 1 "game-1" (JsStr "First Name") OptUndefined Scenario.service0
      = Return s1 g /\
    let renamed := snd (GameService.run 2 (GameService.OnCurrentGame
                                             (Game.UpdateName "Second Name")) [] s1) in
    let ended := fst (GameService.endCurrentGame 3 [] renamed) in
    GameService._currentGame ended = None /\
    GameService.isNameUnique (JsStr "First Name") ended = false.
Proof.
  destruct (GameService.createGame 1 "game-1" (JsStr "First Name") OptUndefined
                                   Scenario.service0) as [s1 g | s1 e] eqn:Hc;
    [| vm_compute in Hc; discriminate].
  exists s1, g. split; [reflexivity |].
  destruct (GameService_rename_keeps_name 1 2 3 4 "game-1" "game-2"
              "First Name" "Second Name" OptUndefined OptUndefined []
              Scenario.service0 s1 g Hc)
    as (Hcur & _ & _ & Huniq & _);
    [simpl; lia | vm_compute; discriminate |].
  split; [exact Hcur | exact Huniq].
Defined.

(** ** The name validator *)





Lemma toLowerCase_app a b :
  JsString.toLowerCase (a ++ b) = (JsString.toLowerCase a ++ JsString.toLowerCase b)%string.
Proof.
  induction a as [|c a IH]; [reflexivity |].
  change (String c a ++ b)%string with (String c (a ++ b)).
  simpl. rewrite IH. reflexivity.
Qed.











(** *** Suggested names *)

Lemma toLowerCase_digits d :
  JsString.toLowerCase (NilEmpty.string_of_uint d) = NilEmpty.string_of_uint d.
Proof.
  induction d as [| d IH | d IH | d IH | d IH | d IH | d IH | d IH | d IH
                  | d IH | d IH];
    cbn [NilEmpty.string_of_uint JsString.toLowerCase];
    [reflexivity | rewrite IH; reflexivity ..].
Qed.

Lemma string_of_nat_inj i j :
  NilEmpty.string_of_uint (Nat.to_uint i)
  = NilEmpty.string_of_uint (Nat.to_uint j) -> i = j.
Proof.
  intros H. apply Unsigned.to_uint_inj.
  assert (E : Some (Nat.to_uint i) = Some (Nat.to_uint j))
    by (rewrite <- !NilEmpty.usu, H; reflexivity).
  now injection E.
Qed.

Lemma string_of_nat_nonempty i :
  NilEmpty.string_of_uint (Nat.to_uint i) <> "".
Proof.
  intros H.
  assert (E : Some (Nat.to_uint i) = Some Decimal.Nil)
    by (rewrite <- NilEmpty.usu, H; reflexivity).
  injection E as E.
  assert (E0 : Nat.of_uint (Nat.to_uint i) = 0%nat) by (rewrite E; reflexivity).
  rewrite Unsigned.of_to in E0. subst i. discriminate.
Qed.

Lemma append_cancel a b c : (a ++ b)%string = (a ++ c)%string -> b = c.
Proof.
  induction a as [|x a IH]; intros H; [exact H |].
  change (String x (a ++ b) = String x (a ++ c)) in H.
  injection H as H. auto.
Qed.

Lemma append_empty_r a : (a ++ "")%string = a.
Proof.
  induction a as [|x a IH]; [reflexivity |].
  change (String x (a ++ "") = String x a). now rewrite IH.
Qed.

Lemma suggestionAt_lower cb k :
  JsString.toLowerCase (NameValidator.suggestionAt cb k)
  = (JsString.toLowerCase cb
     ++ match k with
        | O => ""
        | _ => NilEmpty.string_of_uint (Nat.to_uint k)
        end)%string.
Proof.
  destruct k; cbn [NameValidator.suggestionAt].
  - now rewrite append_empty_r.
  - unfold NameValidator.numbered.
    now rewrite toLowerCase_app, toLowerCase_digits.
Qed.

Lemma suggestionAt_lower_inj cb i j :
  JsString.toLowerCase (NameValidator.suggestionAt cb i)
  = JsString.toLowerCase (NameValidator.suggestionAt cb j) -> i = j.
Proof.
  rewrite !suggestionAt_lower. intros H. apply append_cancel in H.
  destruct i, j; [reflexivity | | |].
  - symmetry in H. now apply string_of_nat_nonempty in H.
  - now apply string_of_nat_nonempty in H.
  - now apply string_of_nat_inj.
Qed.

Lemma distinct_members (X : gset string) (f : nat -> string) (m : nat) :
  (forall i j, f i = f j -> i = j) ->
  (forall i, (i < m)%nat -> f i ∈ X) ->
  (m <= size X)%nat.
Proof.
  intros Hinj Hin.
  assert (Hnd : NoDup (f <$> seq 0 m)).
  { apply NoDup_fmap_2_strong; [| apply NoDup_seq].
    intros x y _ _. apply Hinj. }
  apply (size_list_to_set (C := gset string)) in Hnd.
  rewrite length_fmap, length_seq in Hnd. rewrite <- Hnd.
  apply subseteq_size. intros x Hx.
  apply elem_of_list_to_set, list_elem_of_fmap in Hx.
  destruct Hx as (i & -> & Hi). apply elem_of_seq in Hi.
  apply Hin. lia.
Qed.

Lemma generateLoop_hit existing cb fuel :
  forall j k : nat,
    (j <= k)%nat ->
    (forall i, (j <= i < k)%nat ->
       JsString.toLowerCase (NameValidator.suggestionAt cb i) ∈ existing) ->
    JsString.toLowerCase (NameValidator.suggestionAt cb k) ∉ existing ->
    (k - j < fuel)%nat ->
    NameValidator.generateLoop fuel existing cb
      (NameValidator.suggestionAt cb j) (S j)
    = Some (NameValidator.suggestionAt cb k).
Proof.
  induction fuel as [|fuel IH]; intros j k Hjk Hin Hout Hfuel; [lia |].
  cbn [NameValidator.generateLoop].
  destruct (decide (j = k)) as [-> | Hne].
  - now rewrite (bool_decide_eq_false_2 _ Hout).
  - rewrite bool_decide_eq_true_2 by (apply Hin; lia).
    apply (IH (S j) k); [lia | | exact Hout | lia].
    intros i Hi. apply Hin. lia.
Qed.

Lemma generateLoop_miss existing cb fuel :
  forall j : nat,
    (forall i, (j <= i < j + fuel)%nat ->
       JsString.toLowerCase (NameValidator.suggestionAt cb i) ∈ existing) ->
    NameValidator.generateLoop fuel existing cb
      (NameValidator.suggestionAt cb j) (S j) = None.
Proof.
  induction fuel as [|fuel IH]; intros j Hin; [reflexivity |].
  cbn [NameValidator.generateLoop].
  rewrite bool_decide_eq_true_2 by (apply Hin; lia).
  apply (IH (S j)). intros i Hi. apply Hin. lia.
Qed.

Lemma first_fresh (existing : gset string) cb :
  exists k : nat,
    (k <= size existing)%nat /\
    (JsString.toLowerCase (NameValidator.suggestionAt cb k) ∉ existing) /\
    forall i, (i < k)%nat ->
      JsString.toLowerCase (NameValidator.suggestionAt cb i) ∈ existing.
Proof.
  assert (H : forall m : nat,
             (forall i, (i < m)%nat ->
                JsString.toLowerCase (NameValidator.suggestionAt cb i)
                ∈ existing) \/
             exists k : nat,
               (k < m)%nat /\
               (JsString.toLowerCase (NameValidator.suggestionAt cb k)
                ∉ existing) /\
               forall i, (i < k)%nat ->
                 JsString.toLowerCase (NameValidator.suggestionAt cb i)
                 ∈ existing).
  { induction m as [|m [IH | IH]].
    - left. intros i Hi. lia.
    - destruct (decide (JsString.toLowerCase (NameValidator.suggestionAt cb m)
                        ∈ existing)) as [Hm | Hm].
      + left. intros i Hi.
        destruct (decide (i = m)) as [-> | Hne]; [exact Hm | apply IH; lia].
      + right. exists m. split; [lia |]. split; [exact Hm | exact IH].
    - right. destruct IH as (k & Hk & Hout & Hin).
      exists k. split; [lia |]. split; assumption. }
  destruct (H (S (size existing))) as [Hall | (k & Hk & Hout & Hin)].
  - apply distinct_members in Hall; [lia |].
    intros i j. apply suggestionAt_lower_inj.
  - exists k. split; [lia |]. split; assumption.
Qed.

(** X20. [generateUniqueName] on a falsy or string base name and a set
    of [n] existing names: the loop ends after at most [n] turns, and the
    suggestion it returns is the cleaned base name, or the cleaned base
    name followed by the least counter from 1, whose lower-case form is
    not among the existing names. *)
Theorem NameValidator_generateUniqueName_fresh
    (baseName : JsValue) (base : string) (existingNames : gset string) :
  (if falsy baseName then JsStr "NewEntity" else baseName)
  = JsStr base ->
  exists k : nat,
    (k <= size existingNames)%nat /\
    let cleanBase := NameValidator.clean (JsString.trim base) in
    let suggestion := NameValidator.suggestionAt cleanBase k in
    (forall fuel, (k < fuel)%nat ->
       NameValidator.generateUniqueName fuel baseName existingNames
       = Some (inr suggestion)) /\
    (forall fuel, (fuel <= k)%nat ->
       NameValidator.generateUniqueName fuel baseName existingNames = None) /\
    (JsString.toLowerCase suggestion ∉ existingNames) /\
    forall i, (i < k)%nat ->
      JsString.toLowerCase (NameValidator.suggestionAt cleanBase i)
      ∈ existingNames.
Proof.
  intros Hbase.
  destruct (first_fresh existingNames (NameValidator.clean (JsString.trim base)))
    as (k & Hk & Hout & Hin).
  exists k. split; [exact Hk |]. cbv zeta.
  unfold NameValidator.generateUniqueName. rewrite Hbase.
  split; [| split; [| split; [exact Hout | exact Hin]]].
  - intros fuel Hfuel.
    change (NameValidator.clean (JsString.trim base))
      with (NameValidator.suggestionAt
              (NameValidator.clean (JsString.trim base)) 0) at 2.
    rewrite (generateLoop_hit _ _ fuel 0%nat k); [reflexivity | lia | | exact Hout | lia].
    intros i Hi. apply Hin. lia.
  - intros fuel Hfuel.
    change (NameValidator.clean (JsString.trim base))
      with (NameValidator.suggestionAt
              (NameValidator.clean (JsString.trim base)) 0) at 2.
    rewrite generateLoop_miss; [reflexivity |].
    intros i Hi. apply Hin. lia.
Qed.

Lemma NameValidator_generateUniqueName_witness :
  exists k : nat,
    (k <= size ({[ "team"; "team1" ]} : gset string))%nat /\
    let cleanBase := NameValidator.clean (JsString.trim "Team!") in
    let suggestion := NameValidator.suggestionAt cleanBase k in
    (forall fuel, (k < fuel)%nat ->
       NameValidator.generateUniqueName fuel (JsStr "Team!")
         {[ "team"; "team1" ]}
       = Some (inr suggestion)) /\
    (forall fuel, (fuel <= k)%nat ->
       NameValidator.generateUniqueName fuel (JsStr "Team!")
         {[ "team"; "team1" ]} = None) /\
    (JsString.toLowerCase suggestion
     ∉ ({[ "team"; "team1" ]} : gset string)) /\
    forall i, (i < k)%nat ->
      JsString.toLowerCase (NameValidator.suggestionAt cleanBase i)
      ∈ ({[ "team"; "team1" ]} : gset string).
Proof.
  apply (NameValidator_generateUniqueName_fresh (JsStr "Team!") "Team!").
  reflexivity.
Defined.

(** *** Several names at once *)

Lemma validateMultipleNames_fold numberText names :
  forall r0,
    let r := fold_left (NameValidator.validateOne numberText) names r0 in
    NameValidator.results r
    = (NameValidator.results r0
       ++ List.map (fun e =>
            NameValidator.mkChecked
              (NameValidator.entryName e) (NameValidator.entryType e)
              (NameValidator.validateName
                 (NameValidator.entryName e)
                 (default "entity" (NameValidator.entryType e)))) names)%list /\
    ((NameValidator.allValid r0 = true <-> NameValidator.errors r0 = []) ->
     (NameValidator.allValid r = true <-> NameValidator.errors r = [])) /\
    (NameValidator.allValid r0
     = forallb (fun c => NameValidator.isValid (NameValidator.verdict c))
               (NameValidator.results r0) ->
     NameValidator.allValid r
     = forallb (fun c => NameValidator.isValid (NameValidator.verdict c))
               (NameValidator.results r)) /\
    (List.length (NameValidator.errors r0)
     = List.length
         (List.filter
            (fun c => negb (NameValidator.isValid (NameValidator.verdict c)))
            (NameValidator.results r0)) ->
     List.length (NameValidator.errors r)
     = List.length
         (List.filter
            (fun c => negb (NameValidator.isValid (NameValidator.verdict c)))
            (NameValidator.results r))).
Proof.
  induction names as [|e names IH]; intros r0; cbn [fold_left List.map].
  - rewrite List.app_nil_r. tauto.
  - specialize (IH (NameValidator.validateOne numberText r0 e)). cbv zeta in IH.
    destruct IH as (Hres & Hiff & Hall & Hlen).
    assert (Hone : NameValidator.results
                     (NameValidator.validateOne numberText r0 e)
                   = (NameValidator.results r0
                      ++ [NameValidator.mkChecked
                            (NameValidator.entryName e)
                            (NameValidator.entryType e)
                            (NameValidator.validateName
                               (NameValidator.entryName e)
                               (default "entity" (NameValidator.entryType e)))])%list).
    { unfold NameValidator.validateOne.
      now destruct (negb (NameValidator.isValid _)). }
    split; [| split; [| split]].
    + rewrite Hres, Hone, <- List.app_assoc. reflexivity.
    + intros H0. apply Hiff. unfold NameValidator.validateOne.
      destruct (negb (NameValidator.isValid _));
        cbn [NameValidator.allValid NameValidator.errors]; [| exact H0].
      split; [discriminate |].
      intros E. now apply List.app_eq_nil in E as [_ E].
    + intros H0. apply Hall. rewrite Hone, List.forallb_app.
      unfold NameValidator.validateOne.
      cbn [forallb NameValidator.verdict].
      destruct (NameValidator.isValid _);
        cbn [negb NameValidator.allValid]; rewrite <- H0.
      * now rewrite !andb_true_r.
      * now rewrite andb_false_r.
    + intros H0. apply Hlen. rewrite Hone, List.filter_app, List.length_app.
      unfold NameValidator.validateOne.
      cbn [List.filter NameValidator.verdict].
      destruct (NameValidator.isValid _);
        cbn [negb NameValidator.errors List.length]; [lia |].
      rewrite List.length_app. cbn [List.length]. lia.
Qed.

(** X21. [validateMultipleNames] gives one result per entry, in order,
    holding the verdict of [validateName] on that entry; [allValid] is
    true exactly when every verdict is valid, and exactly when no error
    line was written; there is one error line per rejected entry. *)
Theorem NameValidator_validateMultipleNames_spec
    (numberText : Z -> string) (names : list NameValidator.entry) :
  let r := NameValidator.validateMultipleNames numberText names in
  NameValidator.results r
  = List.map (fun e =>
       NameValidator.mkChecked
         (NameValidator.entryName e) (NameValidator.entryType e)
         (NameValidator.validateName
            (NameValidator.entryName e)
            (default "entity" (NameValidator.entryType e)))) names /\
  NameValidator.allValid r
  = forallb (fun c => NameValidator.isValid (NameValidator.verdict c))
            (NameValidator.results r) /\
  (NameValidator.allValid r = true <-> NameValidator.errors r = []) /\
  List.length (NameValidator.errors r)
  = List.length
      (List.filter
         (fun c => negb (NameValidator.isValid (NameValidator.verdict c)))
         (NameValidator.results r)).
Proof.
  cbv zeta. unfold NameValidator.validateMultipleNames.
  destruct (validateMultipleNames_fold numberText names
              (NameValidator.mkReport true [] []))
    as (Hres & Hiff & Hall & Hlen).
  split; [exact Hres |]. split; [now apply Hall |].
  split; [now apply Hiff | now apply Hlen].
Qed.


(** ** The HTTP routes *)

Lemma createGame_cases now uuid gameName options s :
  (exists e, GameService.createGame now uuid gameName options s = Throw s e) \/
  (exists n g,
      gameName = JsStr n /\ JsString.truthy n = true /\
      GameService._currentGame s = None /\
      GameService._isInitialized s = true /\
      Game.id g = uuid /\ Game.name g = JsString.trim n /\
      Game.gameState g = waiting /\
      GameService.createGame now uuid gameName options s
      = Return (GameService.mk (Some g) (GameService._gameHistory s)
                  ({[GameService.normalize n]} ∪ GameService._uniqueNames s)
                  true) g).
Proof.
  unfold GameService.createGame.
  destruct (GameService._isInitialized s) eqn:Hinit; cbn [negb];
    [| left; eauto].
  destruct (GameService._currentGame s) eqn:Hcur; [left; eauto |].
  destruct gameName as [| | b | z | n |]; try (left; eauto; fail).
  destruct (JsString.truthy n) eqn:Hn; cbn [negb]; [| left; eauto].
  destruct (bool_decide _); [left; eauto |].
  assert (H : forall mt mp,
             (exists e, match Game.new now uuid (JsString.trim n) mt mp with
                        | inl e => Throw s e
                        | inr g =>
                            Return (GameService.mk (Some g)
                                      (GameService._gameHistory s)
                                      ({[GameService.normalize n]}
                                       ∪ GameService._uniqueNames s) true) g
                        end = Throw s e) \/
             (exists n0 g,
                 JsStr n = JsStr n0 /\ JsString.truthy n0 = true /\
                 @None Game.t = None /\ true = true /\
                 Game.id g = uuid /\ Game.name g = JsString.trim n0 /\
                 Game.gameState g = waiting /\
                 match Game.new now uuid (JsString.trim n) mt mp with
                 | inl e => Throw s e
                 | inr g =>
                     Return (GameService.mk (Some g)
                               (GameService._gameHistory s)
                               ({[GameService.normalize n]}
                                ∪ GameService._uniqueNames s) true) g
                 end
                 = Return (GameService.mk (Some g)
                             (GameService._gameHistory s)
                             ({[GameService.normalize n0]}
                              ∪ GameService._uniqueNames s) true) g)).
  { intros mt mp. unfold Game.new.
    destruct (negb (Entity.accepts uuid (JsString.trim n)));
      [left; eauto |].
    right.
    exists n, (Game.mk uuid (JsString.trim n) now [] [] mt mp waiting 0 10 60
                       None None (Game.mkSettings true true true) None).
    split; [reflexivity |]. split; [exact Hn |].
    repeat (split; [reflexivity |]). reflexivity. }
  destruct options as [| | mt mp]; [apply H | left; eauto | apply H].
Qed.

(** X23. [POST /api/games] answers 400 and leaves the service as it was,
    or answers 201 with the JSON form of a new game whose name is the
    trimmed one. After a 201: [GET /api/games/current] answers 200 with
    that game, [POST /api/validate/name] finds the name taken, and every
    further [POST /api/games] answers 400 and changes nothing; then
    [DELETE /api/games/current] answers 200 with the finished game,
    after which the current game is a 404, the name is free again, and a
    second [DELETE] answers 200 with [null]. The 201 is the answer
    whenever the service is initialized and idle, the id is not empty,
    [options] is not [null] and the name is a string that is not blank
    and not taken. *)
Theorem Server_game_routes
    (now : Z) (uuid : string) (name : JsValue) (options : optionsArg)
    (h : heap) (s : GameService.t) :
  let r := Server.postGame now uuid name options h s in
  ((Server.status (snd r) = 400 /\ fst r = s) \/
   (exists g n,
       name = JsStr n /\ Game.name g = JsString.trim n /\ Game.id g = uuid /\
       snd r = Server.mkResponse 201 (Server.Created (Game.toJSON h g)) /\
       Server.getCurrentGame h (fst r)
       = Server.mkResponse 200 (Server.GameBody (Game.toJSON h g)) /\
       Server.postValidateName name (fst r)
       = Server.mkResponse 200 (Server.Unique false) /\
       (forall now' uuid' name' options',
           let r' := Server.postGame now' uuid' name' options' h (fst r) in
           Server.status (snd r') = 400 /\ fst r' = fst r) /\
       forall now',
         let d := Server.deleteCurrentGame now' h (fst r) in
         snd d = Server.mkResponse 200
                   (Server.Ended (Some (Game.toJSON h (Game.endGame now' g)))) /\
         Server.getCurrentGame h (fst d)
         = Server.mkResponse 404 (Server.ErrorBody "No active game") /\
         Server.postValidateName name (fst d)
         = Server.mkResponse 200 (Server.Unique true) /\
         forall now'',
           Server.deleteCurrentGame now'' h (fst d)
           = (fst d, Server.mkResponse 200 (Server.Ended None)))) /\
  (forall n,
      GameService._isInitialized s = true ->
      GameService._currentGame s = None ->
      name = JsStr n -> JsString.trim n <> "" -> uuid <> "" ->
      options <> OptNull ->
      GameService.normalize n ∉ GameService._uniqueNames s ->
      Server.status (snd r) = 201).
Proof.
  cbv zeta. split.
  - unfold Server.postGame.
    destruct (falsy name) eqn:Hfalsy; [left; split; reflexivity |].
    destruct (createGame_cases now uuid name
                (match options with
                 | OptUndefined => OptObject None None
                 | _ => options
                 end) s)
      as [(e & ->) | (n & g & -> & Hn & Hcur & Hinit & Hid & Hname & Hst & ->)];
      [left; split; reflexivity |].
    right. exists g, n. cbn [fst snd].
    split; [reflexivity |]. split; [exact Hname |]. split; [exact Hid |].
    split; [reflexivity |]. split; [reflexivity |].
    split; [| split].
    + unfold Server.postValidateName, GameService.isNameUnique.
      rewrite Hfalsy, Hn. cbn [negb GameService._uniqueNames].
      rewrite bool_decide_eq_true_2; [reflexivity |].
      apply elem_of_union_l, elem_of_singleton. reflexivity.
    + intros now' uuid' name' options'. cbv zeta. unfold Server.postGame.
      destruct (falsy name'); [split; reflexivity |].
      match goal with
      | |- context [GameService.createGame ?a ?b ?c ?d ?e] =>
          destruct (createGame_cases a b c d e)
            as [(e' & ->) | (n' & g' & _ & _ & Hcur' & _)]
      end; [split; reflexivity | discriminate Hcur'].
    + intros now'. cbv zeta.
      unfold Server.deleteCurrentGame, GameService.endCurrentGame.
      cbn [GameService._currentGame GameService._gameHistory
           GameService._uniqueNames GameService._isInitialized fst snd
           fmap option_fmap option_map Server.getCurrentGame
           GameService.getCurrentGame].
      split; [reflexivity |]. split; [reflexivity |]. split; [| reflexivity].
      unfold Server.postValidateName, GameService.isNameUnique.
      rewrite Hfalsy, Hn. cbn [negb GameService._uniqueNames].
      rewrite bool_decide_eq_false_2; [reflexivity |].
      rewrite elem_of_difference, elem_of_singleton.
      intros [_ Hne]. apply Hne.
      unfold GameService.normalize. now rewrite <- Hname.
  - intros n Hinit Hcur -> Htrim Huuid Hopt Hfresh.
    unfold Server.postGame.
    assert (Hn : JsString.truthy n = true).
    { apply trim_truthy. now apply truthy_nonempty. }
    cbn [falsy]. rewrite Hn. cbn [negb].
    unfold GameService.createGame.
    rewrite Hinit, Hcur, Hn. cbn [negb].
    rewrite (bool_decide_eq_false_2 _ Hfresh).
    destruct options as [| | mt mp]; [| congruence |];
      rewrite Game_new_ok by assumption; reflexivity.
Qed.

Lemma Server_game_routes_witness :
  Server.status
    (snd (Server.postGame 1 "game-1" (JsStr " Pictionary Night ") OptUndefined
            [] Scenario.service0)) = 201.
Proof.
  apply (Server_game_routes 1 "game-1" (JsStr " Pictionary Night ") OptUndefined
           [] Scenario.service0) with (n := " Pictionary Night ");
    try reflexivity; discriminate.
Defined.

(** ** One game at a time *)

Lemma Game_run_id now o h g :
  Game.id (snd (final (Game.run now o h g))) = Game.id g /\
  Game.createdAt (snd (final (Game.run now o h g))) = Game.createdAt g.
Proof.
  destruct o as [| | | | | w | n | rnd tid tn c | tid | k n tid | k | k n tid
                 | l po | tid teamOp]; simpl.
  - unfold Game.startGame.
    destruct (_ <? 2); [split; reflexivity |].
    destruct (negb _); [split; reflexivity |].
    rewrite selectNextDrawer_spec. split; reflexivity.
  - unfold Game.pauseGame. destruct (Game.isPlaying _); split; reflexivity.
  - unfold Game.resumeGame. destruct (Game.isPaused _); split; reflexivity.
  - split; reflexivity.
  - unfold Game.nextRound.
    destruct (negb _); [split; reflexivity |].
    destruct (_ <? _); [split; reflexivity |].
    rewrite selectNextDrawer_spec. split; reflexivity.
  - destruct w as [| | b | z | w |]; simpl; try (split; reflexivity).
    destruct (negb _); split; reflexivity.
  - unfold Game.updateName. destruct (Entity._validateName n); split; reflexivity.
  - unfold Game.createTeam.
    destruct (JsMap.has tid _); [split; reflexivity |].
    destruct (_ <=? _); [split; reflexivity |].
    destruct (Team.new _ _ _ _ _); split; reflexivity.
  - unfold Game.removeTeam. destruct (JsMap.get tid _); split; reflexivity.
  - unfold Game.addPlayer.
    destruct (JsMap.has k _); [split; reflexivity |].
    destruct (Player.new _ _ _ _); [split; reflexivity |].
    destruct (if truthyId tid then tid else None); [| split; reflexivity].
    cbn [Game._teams Game.with_players].
    destruct (JsMap.get _ _); [| split; reflexivity].
    destruct (Team.addPlayer _ _ _ _) as [[h2 tm'] ? | [h2 tm'] e];
      split; reflexivity.
  - unfold Game.removePlayer.
    destruct (JsMap.get k _); [| split; reflexivity].
    destruct (match h !! _ with Some _ => _ | None => _ end);
      [| split; reflexivity].
    destruct (JsMap.get _ _); [| split; reflexivity].
    destruct (Team.removePlayer _ _ _ _) as [[h2 tm'] ? | [h2 tm'] e];
      split; reflexivity.
  - destruct (Player.new _ _ _ _); split; reflexivity.
  - destruct (h !! l); [| split; reflexivity].
    destruct (Player.run _ _ _); split; reflexivity.
  - destruct (JsMap.get tid _); [| split; reflexivity].
    destruct (Team.run _ _ _ _) as [[h' tm'] ? | [h' tm'] e]; split; reflexivity.
Qed.

Lemma createGame_busy now uuid gameName options s g :
  GameService._currentGame s = Some g ->
  exists e, GameService.createGame now uuid gameName options s = Throw s e.
Proof.
  intros Hcur.
  destruct (createGame_cases now uuid gameName options s)
    as [He | (n & g' & _ & _ & Hnone & _)]; [exact He | congruence].
Qed.

Lemma GameService_run_current now c h s g :
  GameService._currentGame s = Some g ->
  c <> GameService.EndCurrentGame -> c <> GameService.Reset ->
  exists g',
    GameService._currentGame (snd (GameService.run now c h s)) = Some g' /\
    Game.id g' = Game.id g /\ Game.createdAt g' = Game.createdAt g.
Proof.
  intros Hcur Hend Hreset.
  destruct c as [| | uuid n opts | | n | n | o]; simpl;
    try contradiction.
  - exists g. unfold GameService.initialize.
    destruct (GameService._isInitialized s); simpl; auto.
  - destruct (createGame_busy now uuid n opts s g Hcur) as (e & ->).
    exists g. simpl. auto.
  - exists g. destruct n as [| | b | z | n |]; simpl; auto.
    destruct (negb _); simpl; auto. destruct (bool_decide _); simpl; auto.
  - exists g. destruct n as [| | b | z | n |]; simpl; auto.
    destruct (negb _); simpl; auto.
  - rewrite Hcur. pose proof (Game_run_id now o h g) as [Hid Hat].
    destruct (final (Game.run now o h g)) as [h' g']. simpl in *.
    exists g'. auto.
Qed.

(** X24. While a game is current, no call of the service other than
    [endCurrentGame] and [_reset] replaces it: after any such calls, and
    any calls on the game itself, the current game is still the one with
    the same id and creation time, and [createGame] throws and changes
    nothing. *)
Theorem GameService_single_game
    (calls : list (Z * GameService.call)) (h : heap) (s : GameService.t)
    (g : Game.t) :
  GameService._currentGame s = Some g ->
  Forall (fun c => snd c <> GameService.EndCurrentGame /\
                   snd c <> GameService.Reset) calls ->
  exists g',
    GameService.getCurrentGame (snd (GameService.runAll calls h s)) = Some g' /\
    Game.id g' = Game.id g /\ Game.createdAt g' = Game.createdAt g /\
    forall now uuid gameName options,
    exists e,
      GameService.createGame now uuid gameName options
        (snd (GameService.runAll calls h s))
      = Throw (snd (GameService.runAll calls h s)) e.
Proof.
  revert h s g. induction calls as [| [now c] calls IH]; intros h s g Hcur Hcalls.
  - exists g. simpl. split; [exact Hcur |]. split; [reflexivity |].
    split; [reflexivity |]. intros. now apply (createGame_busy _ _ _ _ _ g).
  - apply Forall_cons in Hcalls as [[Hend Hreset] Hcalls]. simpl in Hend, Hreset.
    destruct (GameService_run_current now c h s g Hcur Hend Hreset)
      as (g1 & Hcur1 & Hid1 & Hat1).
    cbn [GameService.runAll].
    destruct (GameService.run now c h s) as [h1 s1]. simpl in Hcur1.
    destruct (IH h1 s1 g1 Hcur1 Hcalls) as (g' & Hcur' & Hid' & Hat' & Hbusy).
    exists g'. split; [exact Hcur' |]. split; [congruence |].
    split; [congruence | exact Hbusy].
Qed.

Lemma GameService_single_game_witness :
  exists g',
    GameService.getCurrentGame
      (snd (GameService.runAll
              [ (2, GameService.CreateGame "game-2" (JsStr "Game 2") OptUndefined);
                (3, GameService.OnCurrentGame (Game.UpdateName "Renamed"));
                (4, GameService.UnregisterUniqueName (JsStr "Pictionary Night")) ]
              (fst Scenario.night) (snd Scenario.night))) = Some g' /\
    Game.id g' = "game-1".
Proof.
  edestruct (GameService_single_game
               [ (2, GameService.CreateGame "game-2" (JsStr "Game 2") OptUndefined);
                 (3, GameService.OnCurrentGame (Game.UpdateName "Renamed"));
                 (4, GameService.UnregisterUniqueName (JsStr "Pictionary Night")) ]
               (fst Scenario.night) (snd Scenario.night))
    as (g' & Hcur & Hid & _).
  - reflexivity.
  - repeat constructor; discriminate.
  - exists g'. split; [exact Hcur | exact Hid].
Defined.

(** ** A player in two teams *)

(** X25. [Team.addPlayer] does not take a player out of the team they
    are in: adding a member of one team to a second team succeeds, both
    teams then list the player and the player's [teamId] names the
    second; when the first team removes the player, the [teamId] becomes
    [null] although the second team still lists them. *)
Theorem Team_addPlayer_two_teams
    (now1 now2 now3 : Z) (l : loc) (h : heap) (a b : Team.t) (p : Player.t) :
  h !! l = Some p -> Player.id p <> "" ->
  Team.id a <> "" -> Team.id b <> "" ->
  Team.hasPlayer (Player.id p) a = false ->
  Team.hasPlayer (Player.id p) b = false ->
  exists h1 a1 h2 b1 h3 a2,
    Team.addPlayer now1 l h a = Return (h1, a1) tt /\
    Team.addPlayer now2 l h1 b = Return (h2, b1) tt /\
    Team.hasPlayer (Player.id p) a1 = true /\
    Team.hasPlayer (Player.id p) b1 = true /\
    Player.teamId <$> h2 !! l = Some (Some (Team.id b)) /\
    Team.removePlayer now3 (Player.id p) h2 a1 = Return (h3, a2) tt /\
    Player.teamId <$> h3 !! l = Some None /\
    Team.hasPlayer (Player.id p) a2 = false /\
    Team.getPlayer (Player.id p) b1 = Some l.
Proof.
  intros Hl Hid Ha Hb Hina Hinb.
  assert (Hlt : (l < List.length h)%nat) by (eapply lookup_lt_Some; exact Hl).
  set (p1 := Player.mk (Player.id p) (Player.name p) (Player.createdAt p)
                       (Some (Team.id a)) (Player.score p)
                       (Player.isDrawing p) (Player.isReady p) now1).
  set (p2 := Player.mk (Player.id p) (Player.name p) (Player.createdAt p)
                       (Some (Team.id b)) (Player.score p)
                       (Player.isDrawing p) (Player.isReady p) now2).
  set (h1 := <[l := p1]> h).
  set (h2 := <[l := p2]> h1).
  assert (H1 : h1 !! l = Some p1) by (apply list_lookup_insert_eq; exact Hlt).
  assert (Hlt1 : (l < List.length h1)%nat) by (eapply lookup_lt_Some; exact H1).
  assert (H2 : h2 !! l = Some p2) by (apply list_lookup_insert_eq; exact Hlt1).
  assert (Hlt2 : (l < List.length h2)%nat) by (eapply lookup_lt_Some; exact H2).
  exists h1, (Team._updateActivity now1
                (Team.with_players (Team._players a ++ [(Player.id p, l)])%list a)),
         h2, (Team._updateActivity now2
                (Team.with_players (Team._players b ++ [(Player.id p, l)])%list b)),
         (<[l := Player.leaveTeam now3 p2]> h2),
         (Team._updateActivity now3
            (Team.with_players
               (JsMap.delete (Player.id p)
                  (Team._players a ++ [(Player.id p, l)])%list)
               (Team._updateActivity now1
                  (Team.with_players
                     (Team._players a ++ [(Player.id p, l)])%list a)))).
  assert (Hga : JsMap.get (Player.id p)
                  (Team._players a ++ [(Player.id p, l)])%list = Some l)
    by (apply get_snoc; exact Hina).
  assert (Hgb : JsMap.get (Player.id p)
                  (Team._players b ++ [(Player.id p, l)])%list = Some l)
    by (apply get_snoc; exact Hinb).
  split; [apply (Team_addPlayer_ok now1 l h a p); assumption |].
  split; [apply (Team_addPlayer_ok now2 l h1 b p1); assumption |].
  split; [unfold Team.hasPlayer, JsMap.has; cbn; now rewrite Hga |].
  split; [unfold Team.hasPlayer, JsMap.has; cbn; now rewrite Hgb |].
  split; [now rewrite H2 |].
  split; [| split; [| split]].
  - unfold Team.removePlayer. cbn. rewrite Hga, H2. reflexivity.
  - assert (H3 : (<[l := Player.leaveTeam now3 p2]> h2) !! l
                 = Some (Player.leaveTeam now3 p2))
      by (apply list_lookup_insert_eq; exact Hlt2).
    now rewrite H3.
  - unfold Team.hasPlayer. cbn.
    apply has_false_get. apply get_delete_eq.
  - exact Hgb.
Qed.

Lemma Team_addPlayer_two_teams_witness :
  exists h1 a1 h2 b1 h3 a2,
    Team.addPlayer 1 0%nat [Player.mk "a" "A" 0 None 0 false false 0]
      (Team.mk "red" "Red" 0 [] 0 "#FF6B6B" true None) = Return (h1, a1) tt /\
    Team.addPlayer 2 0%nat h1
      (Team.mk "blue" "Blue" 0 [] 0 "#4ECDC4" true None) = Return (h2, b1) tt /\
    Team.hasPlayer "a" a1 = true /\
    Team.hasPlayer "a" b1 = true /\
    Player.teamId <$> h2 !! 0%nat = Some (Some "blue") /\
    Team.removePlayer 3 "a" h2 a1 = Return (h3, a2) tt /\
    Player.teamId <$> h3 !! 0%nat = Some None /\
    Team.hasPlayer "a" a2 = false /\
    Team.getPlayer "a" b1 = Some 0%nat.
Proof.
  apply (Team_addPlayer_two_teams 1 2 3 0%nat
           [Player.mk "a" "A" 0 None 0 false false 0]
           (Team.mk "red" "Red" 0 [] 0 "#FF6B6B" true None)
           (Team.mk "blue" "Blue" 0 [] 0 "#4ECDC4" true None)
           (Player.mk "a" "A" 0 None 0 false false 0));
    try reflexivity; discriminate.
Defined.

(** * The choice of the drawer, against the words of the specification

    [selected] is what the code computes; [Spec.nextDrawer] is the rule as
    the specification words it. The two agree in every state a game
    reaches, where no team has an empty id. *)

Lemma has_existsb {V} k (m : list (string * V)) :
  JsMap.has k m = existsb (String.eqb k) (List.map fst m).
Proof.
  unfold JsMap.has. induction m as [| [k' v] m IH]; simpl; [reflexivity |].
  destruct (String.eqb k k'); [reflexivity | exact IH].
Qed.

Lemma position_ext {A} (f f' : A -> bool) (l : list A) :
  (forall x, f x = f' x) -> Spec.position f l = Spec.position f' l.
Proof.
  intros H. induction l as [| x l IH]; simpl; [reflexivity |].
  now rewrite H, IH.
Qed.

Lemma onExistingTeam_belongs h g l :
  (forall tid team, In (tid, team) (Game._teams g) -> tid <> "") ->
  Game.onExistingTeam h g l = Spec.belongs h g l.
Proof.
  intros Hids. unfold Game.onExistingTeam, Spec.belongs.
  destruct (h !! l) as [p |]; [| reflexivity].
  destruct (Player.teamId p) as [tid |]; [| reflexivity].
  rewrite has_existsb. cbn [truthyId].
  destruct tid as [| c tid]; [| reflexivity].
  cbn [JsString.truthy andb]. symmetry.
  apply not_true_iff_false. intros H.
  apply existsb_exists in H as (k & HIn & Heq).
  apply String.eqb_eq in Heq. subst k.
  apply in_map_iff in HIn as ([k team] & Hk & HIn). simpl in Hk. subst k.
  now apply (Hids "" team).
Qed.

Lemma isDrawer_wasDrawing h g l : Game.isDrawer h g l = Spec.wasDrawing h g l.
Proof.
  unfold Game.isDrawer, Game.drawerId, Spec.wasDrawing.
  destruct (Game.currentDrawer g) as [d |]; [| now destruct (h !! l)].
  destruct (h !! d) as [previous |], (h !! l) as [p |]; reflexivity.
Qed.

(** The code's choice is the rule of the specification. *)
Lemma selected_nextDrawer h g :
  (forall tid team, In (tid, team) (Game._teams g) -> tid <> "") ->
  selected h g = Spec.nextDrawer h g.
Proof.
  intros Hids. unfold selected, Spec.nextDrawer.
  assert (Hc : Game.activePlayers h g = Spec.candidates h g).
  { unfold Game.activePlayers, Spec.candidates, Game.players, JsMap.values.
    apply List.filter_ext. intros l. now apply onExistingTeam_belongs. }
  rewrite Hc. f_equal. apply position_ext. apply isDrawer_wasDrawing.
Qed.

Lemma Game_reachable_teamIds h g :
  Game.reachable h g ->
  forall tid team, In (tid, team) (Game._teams g) -> tid <> "".
Proof.
  intros Hr.
  assert (Hk : Game.keyed h g).
  { induction Hr as [now id name mt mp g Hnew | now o h g h' g' _ IH Hrun].
    - unfold Game.new in Hnew. destruct (negb _); [discriminate |].
      injection Hnew as <-.
      split; [apply List.NoDup_nil |]. split; [intros ? ? [] |].
      split; [apply List.NoDup_nil | intros ? ? []].
    - pose proof (Game_run_keyed now o h g IH) as [_ H]. now rewrite Hrun in H. }
  destruct Hk as (_ & _ & _ & Ht).
  intros tid team HIn. now apply (Ht tid team HIn).
Qed.

Lemma Scenario_started_reachable :
  Game.reachable (fst Scenario.started) (snd Scenario.started).
Proof.
  unfold Scenario.started. apply Game_reachable_runAll.
  exact Scenario_lobby_reachable.
Defined.

(** C5. [startGame()] throws when there are fewer than 2 teams, and when
    some team is not ready; with at least 2 teams, all of them ready, it
    returns, the state is playing, the round is 1 and, in every state a
    game reaches, the drawer is the one the specification's rule names:
    the next in round-robin order over the players whose team reference
    is the id of an existing team, taken in the order they joined the
    game, after the player that was drawing last, and the first of them
    when nobody was drawing or the previous drawer is not among them. *)
Theorem Game_startGame_spec (now : Z) (h : heap) (g : Game.t) :
  (JsMap.size (Game._teams g) < 2 ->
   Game.startGame now h g =
   Throw (h, g) (Error "At least 2 teams required to start game")) /\
  (2 <= JsMap.size (Game._teams g) ->
   (exists tid team, In (tid, team) (Game._teams g) /\ ~ Spec.teamReady h team) ->
   Game.startGame now h g =
   Throw (h, g) (Error "All teams must be ready to start game")) /\
  (2 <= JsMap.size (Game._teams g) ->
   (forall tid team, In (tid, team) (Game._teams g) -> Spec.teamReady h team) ->
   exists h' g',
     Game.startGame now h g = Return (h', g') tt /\
     Game.gameState g' = playing /\
     Game.currentRound g' = 1 /\
     Game._teams g' = Game._teams g /\ Game._players g' = Game._players g /\
     (Game.reachable h g -> Game.currentDrawer g' = Spec.nextDrawer h g)).
Proof.
  unfold Game.startGame. split; [| split].
  - intros Hlt. destruct (Z.ltb_spec (JsMap.size (Game._teams g)) 2); [reflexivity | lia].
  - intros Hge (tid & team & HIn & Hnot).
    destruct (Z.ltb_spec (JsMap.size (Game._teams g)) 2); [lia |].
    destruct (Game._allTeamsReady h g) eqn:E; [| reflexivity].
    exfalso. apply Hnot. rewrite allTeamsReady_spec in E. eauto.
  - intros Hge Hall.
    destruct (Z.ltb_spec (JsMap.size (Game._teams g)) 2); [lia |].
    apply allTeamsReady_spec in Hall. rewrite Hall. simpl negb. cbv iota.
    rewrite selectNextDrawer_spec.
    eexists _, _. split; [reflexivity |].
    split; [reflexivity |]. split; [reflexivity |].
    split; [reflexivity |]. split; [reflexivity |].
    intros Hr. transitivity (selected h g); [reflexivity |].
    apply selected_nextDrawer. exact (Game_reachable_teamIds h g Hr).
Qed.

Lemma Game_startGame_witness :
  2 <= JsMap.size (Game._teams (snd Scenario.lobby)) /\
  Spec.candidates (fst Scenario.lobby) (snd Scenario.lobby)
  = [0%nat; 1%nat; 2%nat] /\
  exists h' g',
    Game.startGame 9 (fst Scenario.lobby) (snd Scenario.lobby) = Return (h', g') tt /\
    Game.gameState g' = playing /\
    Game.currentRound g' = 1 /\
    Game.currentDrawer g' = Some 0%nat.
Proof.
  assert (Hsize : 2 <= JsMap.size (Game._teams (snd Scenario.lobby)))
    by (vm_compute; discriminate).
  split; [exact Hsize |]. split; [vm_compute; reflexivity |].
  destruct (Game_startGame_spec 9 (fst Scenario.lobby) (snd Scenario.lobby))
    as (_ & _ & H).
  destruct (H Hsize Scenario_lobby_ready) as (h' & g' & Hrun & Hs & Hr & _ & _ & Hd).
  exists h', g'. split; [exact Hrun |]. split; [exact Hs |]. split; [exact Hr |].
  rewrite (Hd Scenario_lobby_reachable). vm_compute. reflexivity.
Defined.

(** C3. [nextRound()] throws unless the game is playing; otherwise the
    round goes up by one; when it then exceeds the maximum, the game is
    finished, the drawer is unset and no player is marked as drawing;
    when it does not, the game keeps playing and the drawer is chosen by
    the rule of [startGame()]: it is the drawer [startGame()] would
    choose in the same state, and, in every state a game reaches, the one
    the specification's round-robin rule names. From round 1 of a game
    with 10 rounds, nine calls reach round 10, still playing, and the
    tenth call finishes the game. *)
Theorem Game_nextRound_spec (now : Z) (h : heap) (g : Game.t) :
  (Game.gameState g <> playing ->
   Game.nextRound now h g =
   Throw (h, g) (Error "Game must be in playing state to advance round")) /\
  (Game.gameState g = playing ->
   Game.maxRounds g < Game.currentRound g + 1 ->
   exists g',
     Game.nextRound now h g = Return (h, g') tt /\
     Game.currentRound g' = Game.currentRound g + 1 /\
     Game.gameState g' = finished /\
     Game.currentDrawer g' = None) /\
  (Game.gameState g = playing ->
   Game.currentRound g + 1 <= Game.maxRounds g ->
   exists h' g',
     Game.nextRound now h g = Return (h', g') tt /\
     Game.currentRound g' = Game.currentRound g + 1 /\
     Game.gameState g' = playing /\
     (Game.reachable h g -> Game.currentDrawer g' = Spec.nextDrawer h g) /\
     (forall now' hs gs,
        Game.startGame now' h g = Return (hs, gs) tt ->
        Game.currentDrawer gs = Game.currentDrawer g')) /\
  (forall nows,
     List.length nows = 9%nat ->
     Game.gameState g = playing ->
     Game.currentRound g = 1 ->
     Game.maxRounds g = 10 ->
     exists h9 g9,
       Game.nextRounds nows h g = Return (h9, g9) tt /\
       Game.currentRound g9 = 10 /\
       Game.gameState g9 = playing /\
       exists g10,
         Game.nextRound now h9 g9 = Return (h9, g10) tt /\
         Game.gameState g10 = finished /\
         Game.currentDrawer g10 = None).
Proof.
  split; [| split; [| split]].
  - intros Hnp. unfold Game.nextRound.
    destruct (Game.isPlaying (Game.gameState g)) eqn:E; [| reflexivity].
    apply isPlaying_spec in E. contradiction.
  - intros Hp Hover. rewrite (nextRound_playing now h g Hp).
    destruct (Z.ltb_spec (Game.maxRounds g) (Game.currentRound g + 1)); [| lia].
    eexists. split; [reflexivity |]. repeat split.
  - intros Hp Hle. rewrite (nextRound_playing now h g Hp).
    destruct (Z.ltb_spec (Game.maxRounds g) (Game.currentRound g + 1)); [lia |].
    eexists _, _. split; [reflexivity |].
    split; [reflexivity |]. split; [exact Hp |]. split.
    + intros Hr. transitivity (selected h g); [reflexivity |].
      apply selected_nextDrawer. exact (Game_reachable_teamIds h g Hr).
    + intros now' hs gs Hstart. unfold Game.startGame in Hstart.
      destruct (_ <? 2); [discriminate |].
      destruct (negb _); [discriminate |].
      rewrite selectNextDrawer_spec in Hstart.
      injection Hstart as _ <-. reflexivity.
  - intros nows Hlen Hp Hr Hm.
    destruct (nextRounds_playing nows h g Hp) as (h9 & g9 & Hrun & Hp9 & Hr9 & Hm9);
      [rewrite Hlen; lia |].
    exists h9, g9. rewrite Hlen in Hr9.
    split; [exact Hrun |]. split; [lia |]. split; [exact Hp9 |].
    rewrite (nextRound_playing now h9 g9 Hp9).
    destruct (Z.ltb_spec (Game.maxRounds g9) (Game.currentRound g9 + 1)); [| lia].
    eexists. split; [reflexivity |]. split; reflexivity.
Qed.

Lemma Game_nextRound_witness :
  Game.gameState (snd Scenario.started) = playing /\
  Game.currentRound (snd Scenario.started) = 1 /\
  Game.maxRounds (snd Scenario.started) = 10 /\
  Game.currentDrawer (snd Scenario.started) = Some 0%nat /\
  (exists h' g',
     Game.nextRound 10 (fst Scenario.started) (snd Scenario.started)
     = Return (h', g') tt /\
     Game.currentRound g' = 2 /\
     Game.currentDrawer g' = Some 1%nat) /\
  exists h9 g9,
    Game.nextRounds [10; 11; 12; 13; 14; 15; 16; 17; 18]
                    (fst Scenario.started) (snd Scenario.started)
    = Return (h9, g9) tt /\
    Game.currentRound g9 = 10 /\
    Game.gameState g9 = playing /\
    exists g10,
      Game.nextRound 19 h9 g9 = Return (h9, g10) tt /\
      Game.gameState g10 = finished /\
      Game.currentDrawer g10 = None.
Proof.
  assert (Hp : Game.gameState (snd Scenario.started) = playing)
    by (vm_compute; reflexivity).
  assert (Hr : Game.currentRound (snd Scenario.started) = 1)
    by (vm_compute; reflexivity).
  assert (Hm : Game.maxRounds (snd Scenario.started) = 10)
    by (vm_compute; reflexivity).
  split; [exact Hp |]. split; [exact Hr |]. split; [exact Hm |].
  split; [vm_compute; reflexivity |].
  destruct (Game_nextRound_spec 10 (fst Scenario.started) (snd Scenario.started))
    as (_ & _ & Hnext & _).
  destruct (Game_nextRound_spec 19 (fst Scenario.started) (snd Scenario.started))
    as (_ & _ & _ & H).
  split; [| exact (H [10; 11; 12; 13; 14; 15; 16; 17; 18] eq_refl Hp Hr Hm)].
  destruct (Hnext Hp ltac:(rewrite Hr, Hm; lia)) as (h' & g' & Hrun & Hr' & _ & Hd & _).
  exists h', g'. split; [exact Hrun |]. split; [rewrite Hr', Hr; reflexivity |].
  rewrite (Hd Scenario_started_reachable). vm_compute. reflexivity.
Defined.
